(** * image-enhancers: the raster enhancement pipeline of [src/utils/imageProcessor.ts]

    A shallow embedding of the [ImageProcessor] class and the properties its
    specification states about it.

    Conventions of the embedding.
    - A [Uint8ClampedArray] is a [list Z] of samples (R,G,B,A per pixel); every
      write of a JavaScript number goes through [ToUint8Clamp] (clamp to
      0..255, round to nearest, ties to even), written out below.  A write out
      of range is dropped, as typed arrays do.
    - JavaScript numbers are idealised.  Stages whose arithmetic is rational
      (field operations, comparisons, floor) are computed in [Q] and run;
      stages that call [Math.exp], [Math.pow] or [Math.tanh] are computed in
      [R].  Rounding error of IEEE doubles, NaN and the infinities are outside
      the model; a statement whose truth would depend on them carries the
      hypotheses that keep its inputs where the doubles of the source and the
      idealised numbers give the same result.
    - Loops are folds over the index range they scan, with the mutated buffer
      (and accumulators) passed from one iteration to the next.
    - The browser canvas (decode, scale on draw, read back) is a parameter of
      the two pipeline entry points. *)

From Stdlib Require Import ZArith QArith Qround Qabs Qminmax Reals Psatz List Bool String Sorted.
From stdpp Require Import base list.
Import ListNotations.
Local Open Scope Z_scope.

(** ** Loops *)

Definition range (lo hi : Z) : list Z :=
  map (fun k => lo + Z.of_nat k) (seq 0 (Z.to_nat (hi - lo))).

(** [for (let i = lo; i < hi; i++) body] *)
Definition for_range {S : Type} (lo hi : Z) (body : Z -> S -> S) (s : S) : S :=
  fold_left (fun s i => body i s) (range lo hi) s.

(** [for (let i = lo; i < hi; i += step) body], for a positive [step] *)
Definition for_step {S : Type} (lo hi step : Z) (body : Z -> S -> S) (s : S) : S :=
  for_range 0 ((hi - lo + step - 1) / step) (fun k => body (lo + step * k)) s.

(** ** Sample buffers *)

Abbreviation buffer := (list Z).

Definition len (d : buffer) : Z := Z.of_nat (length d).

(** [d[i]] read as a number.  An index outside the buffer reads [undefined]
    in the source; no loop of the source does so on a buffer of
    width*height*4 samples, and the model returns 0 there. *)
Definition get (d : buffer) (i : Z) : Z :=
  if 0 <=? i then default 0 (d !! Z.to_nat i) else 0.

Definition put (d : buffer) (i : Z) (v : Z) : buffer :=
  if 0 <=? i then <[Z.to_nat i := v]> d else d.

Module Image.
Record ImageData := mkImageData { width : Z; height : Z; data : buffer }.
End Image.
Export Image.

Definition is_byte (v : Z) : Prop := 0 <= v <= 255.

(** The invariant of the data model: width*height*4 samples, each 0..255. *)
Definition wf_image (img : ImageData) : Prop :=
  0 <= width img /\ 0 <= height img /\
  len (data img) = width img * height img * 4 /\
  Forall is_byte (data img).

(** ** Numbers computed in Q *)

Module JsQ.
Local Open Scope Q_scope.

Definition Math_floor (x : Q) : Z := Qfloor x.
Definition Math_round (x : Q) : Z := Qfloor (x + (1 # 2)).
Definition Math_min (x y : Q) : Q := if Qlt_le_dec y x then y else x.
Definition Math_max (x y : Q) : Q := if Qlt_le_dec x y then y else x.
Definition Math_abs (x : Q) : Q := if Qlt_le_dec x 0 then - x else x.

(** [x % y] on numbers: the remainder of the truncated quotient. *)
Definition trunc (x : Q) : Z := if Qlt_le_dec x 0 then Qceiling x else Qfloor x.
Definition rem (x y : Q) : Q := x - inject_Z (trunc (x / y)) * y.

(** The conversion applied by a store into a [Uint8ClampedArray]. *)
Definition ToUint8Clamp (x : Q) : Z :=
  if Qlt_le_dec 0 x then
    if Qlt_le_dec x 255 then
      let f := Qfloor x in
      let d := x - inject_Z f in
      if Qlt_le_dec d (1 # 2) then f
      else if Qlt_le_dec (1 # 2) d then (f + 1)%Z
      else if Z.even f then f else (f + 1)%Z
    else 255%Z
  else 0%Z.

Definition load (d : buffer) (i : Z) : Q := inject_Z (get d i).
Definition store (d : buffer) (i : Z) (v : Q) : buffer := put d i (ToUint8Clamp v).

End JsQ.

(** ** Numbers computed in R *)

Module JsR.
Local Open Scope R_scope.

Definition Math_ceil (x : R) : Z := Zceil x.
Definition Math_floor (x : R) : Z := Zfloor x.
Definition Math_round (x : R) : Z := Zfloor (x + 1 / 2).
Definition Math_exp (x : R) : R := exp x.
Definition Math_tanh (x : R) : R := tanh x.

(** [Math.pow] on a base [x >= 0] (all the source passes) and an exponent
    [y >= 0]. *)
Definition Math_pow (x y : R) : R :=
  if Req_dec_T y 0 then 1
  else if Req_dec_T x 0 then 0
  else Rpower x y.

Definition ToUint8Clamp (x : R) : Z :=
  if Rlt_dec 0 x then
    if Rlt_dec x 255 then
      let f := Zfloor x in
      let d := x - IZR f in
      if Rlt_dec d (1 / 2) then f
      else if Rlt_dec (1 / 2) d then (f + 1)%Z
      else if Z.even f then f else (f + 1)%Z
    else 255%Z
  else 0%Z.

Definition load (d : buffer) (i : Z) : R := IZR (get d i).
Definition store (d : buffer) (i : Z) (v : R) : buffer := put d i (ToUint8Clamp v).

(** [x | 1] coerces [x] to a 32-bit signed integer first. *)
Definition ToInt32 (n : Z) : Z := ((n + 2 ^ 31) mod 2 ^ 32 - 2 ^ 31)%Z.

End JsR.

(** ** Kernel generator, separable Gaussian blur, unsharp mask *)

Section Convolution.
Import JsR.
Local Open Scope R_scope.

Definition kernel_size (radius : R) : Z :=
  Z.max 3 (Z.lor (ToInt32 (Math_ceil (radius * 6))) 1).

Definition kernel_at (kernel : list R) (i : Z) : R :=
  if (0 <=? i)%Z then default 0 (kernel !! Z.to_nat i) else 0.

Definition generateGaussianKernel (radius : R) : list R :=
  let size := kernel_size radius in
  let kernel := replicate (Z.to_nat size) 0 in
  let sigma := radius / 3 in
  let twoSigmaSquare := 2 * sigma * sigma in
  let center := (size / 2)%Z in
  let '(kernel, sum) :=
    for_range 0 size (fun i '(kernel, sum) =>
      let x := IZR (i - center) in
      let w := Math_exp (- (x * x) / twoSigmaSquare) in
      (<[Z.to_nat i := w]> kernel, sum + w)) (kernel, 0) in
  (* Normalize *)
  for_range 0 size (fun i kernel =>
    <[Z.to_nat i := kernel_at kernel i / sum]> kernel) kernel.

(** One output sample of a pass: the taps inside the image, renormalised. *)
Definition convolve (kernel : list R) (kernelSize halfKernel : Z)
    (inside : Z -> bool) (tap : Z -> R) : R :=
  let '(sum, weightSum) :=
    for_range 0 kernelSize (fun k '(sum, weightSum) =>
      let p := (k - halfKernel)%Z in
      if inside p
      then (sum + tap p * kernel_at kernel k, weightSum + kernel_at kernel k)
      else (sum, weightSum)) (0, 0) in
  sum / weightSum.

Definition gaussianBlur (imageData : ImageData) (width height : Z) (radius : R)
    : ImageData :=
  let data := data imageData in
  let outputData := data in
  let kernel := generateGaussianKernel radius in
  let kernelSize := Z.of_nat (length kernel) in
  let halfKernel := (kernelSize / 2)%Z in
  (* Horizontal pass *)
  let tempData := data in
  let tempData :=
    for_range 0 height (fun y tempData =>
      for_range 0 width (fun x tempData =>
        let tempData :=
          for_range 0 3 (fun c tempData =>
            store tempData ((y * width + x) * 4 + c)
              (convolve kernel kernelSize halfKernel
                 (fun p => (0 <=? x + p)%Z && (x + p <? width)%Z)
                 (fun p => load data ((y * width + (x + p)) * 4 + c))))
            tempData in
        store tempData ((y * width + x) * 4 + 3)
          (load data ((y * width + x) * 4 + 3))) tempData) tempData in
  (* Vertical pass *)
  let outputData :=
    for_range 0 height (fun y outputData =>
      for_range 0 width (fun x outputData =>
        let outputData :=
          for_range 0 3 (fun c outputData =>
            store outputData ((y * width + x) * 4 + c)
              (convolve kernel kernelSize halfKernel
                 (fun p => (0 <=? y + p)%Z && (y + p <? height)%Z)
                 (fun p => load tempData (((y + p) * width + x) * 4 + c))))
            outputData in
        store outputData ((y * width + x) * 4 + 3)
          (load tempData ((y * width + x) * 4 + 3))) outputData) outputData in
  mkImageData width height outputData.

Definition applyUnsharpMask (imageData : ImageData) (width height : Z)
    (amount radius threshold : R) : ImageData :=
  let data := data imageData in
  let outputData := data in
  let blurred := gaussianBlur imageData width height radius in
  let outputData :=
    for_step 0 (len data) 4 (fun i outputData =>
      let outputData :=
        for_range 0 3 (fun c outputData =>
          let original := load data (i + c) in
          let blurredValue := load (Image.data blurred) (i + c) in
          let diff := original - blurredValue in
          if Rlt_dec threshold (Rabs diff) then
            let sharpened := original + diff * amount in
            store outputData (i + c) (Rmin 255 (Rmax 0 sharpened))
          else store outputData (i + c) original) outputData in
      store outputData (i + 3) (load data (i + 3))) outputData in
  mkImageData width height outputData.

End Convolution.

(** ** Tone mapper *)

Section ToneMapping.
Import JsR.
Local Open Scope R_scope.

Definition luminance (d : buffer) (i : Z) : Z :=
  Math_round (0.299 * load d i + 0.587 * load d (i + 1) + 0.114 * load d (i + 2)).

Definition applySCurve (value strength : R) : R :=
  if Req_dec_T strength 0 then value
  else
    let factor := strength * 2 in
    if Rlt_dec 0 factor then
      (* Increase contrast *)
      0.5 + Math_tanh (factor * (value - 0.5)) / (2 * Math_tanh (factor / 2))
    else
      (* Decrease contrast *)
      let absFactor := Rabs factor in
      0.5 + (value - 0.5) / (1 + absFactor).

(** The sample written for a sample [value]. *)
Definition toneMapSample (brightness contrast : R) (value : Z) : R :=
  let normalized := IZR value / 255 in
  let contrasted := applySCurve normalized (contrast / 100) in
  let brightened := Math_pow contrasted (1 + brightness / 100) * 255 in
  Rmin 255 (Rmax 0 brightened).

Definition applyAdvancedToneMapping (imageData : ImageData)
    (brightness contrast : R) : ImageData :=
  let data := data imageData in
  (* histogram and cumulative distribution: computed, never read *)
  let histogram :=
    for_step 0 (len data) 4 (fun i histogram =>
      let l := luminance data i in
      if (0 <=? l)%Z
      then <[Z.to_nat l := (default 0 (histogram !! Z.to_nat l) + 1)%Z]> histogram
      else histogram) (replicate 256 0%Z) in
  let cdf :=
    for_range 1 256 (fun i cdf =>
      <[Z.to_nat i := (get cdf (i - 1) + get histogram i)%Z]> cdf)
      (<[0%nat := get histogram 0]> (replicate 256 0%Z)) in
  let totalPixels := (len data / 4)%Z in
  let data :=
    for_step 0 (len data) 4 (fun i data =>
      for_range 0 3 (fun c data =>
        let value := get data (i + c) in
        store data (i + c) (toneMapSample brightness contrast value)) data) data in
  mkImageData (width imageData) (height imageData) data.

End ToneMapping.

(** ** Saturation adjuster *)

Section Saturation.
Import JsQ.
Local Open Scope Q_scope.

(** Convert back to RGB: the three numbers stored for hue [h], lightness
    [l] and saturation [newS]. *)
Definition hslToRgb (h l newS : Q) : Q * Q * Q :=
  let c := (1 - Math_abs (2 * l - 1)) * newS in
  let x := c * (1 - Math_abs (rem (h * 6) 2 - 1)) in
  let m := l - c / 2 in
  let hSector := Math_floor (h * 6) in
  let '(rPrime, gPrime, bPrime) :=
    match hSector with
    | 0%Z => (c, x, 0)
    | 1%Z => (x, c, 0)
    | 2%Z => (0, c, x)
    | 3%Z => (0, x, c)
    | 4%Z => (x, 0, c)
    | 5%Z => (c, 0, x)
    | _ => (0, 0, 0)
    end in
  (Math_min 255 (Math_max 0 ((rPrime + m) * 255)),
   Math_min 255 (Math_max 0 ((gPrime + m) * 255)),
   Math_min 255 (Math_max 0 ((bPrime + m) * 255))).

(** The three numbers stored for a chromatic pixel [r g b] (in [0,1]). *)
Definition saturatePixel (factor r g b : Q) : Q * Q * Q :=
  let max := Math_max (Math_max r g) b in
  let min := Math_min (Math_min r g) b in
  let diff := max - min in
  let sum := max + min in
  let l := sum / 2 in
  (* Convert to HSL for better saturation control *)
  let s := if Qlt_le_dec (1 # 2) l then diff / (2 - sum) else diff / sum in
  let h :=
    if Qeq_dec max r then ((g - b) / diff + (if Qlt_le_dec g b then 6 else 0)) / 6
    else if Qeq_dec max g then ((b - r) / diff + 2) / 6
    else if Qeq_dec max b then ((r - g) / diff + 4) / 6
    else 0 in
  (* Apply saturation *)
  let newS := Math_min 1 (Math_max 0 (s * factor)) in
  hslToRgb h l newS.

Definition applyAdvancedSaturation (imageData : ImageData) (saturation : Q)
    : ImageData :=
  let data := data imageData in
  let factor := (saturation + 100) / 100 in
  let data :=
    for_step 0 (len data) 4 (fun i data =>
      let r := load data i / 255 in
      let g := load data (i + 1) / 255 in
      let b := load data (i + 2) / 255 in
      let max := Math_max (Math_max r g) b in
      let min := Math_min (Math_min r g) b in
      let diff := max - min in
      if Qeq_dec diff 0 then data (* Grayscale pixel *)
      else
        let '(r', g', b') := saturatePixel factor r g b in
        let data := store data i r' in
        let data := store data (i + 1) g' in
        store data (i + 2) b') data in
  mkImageData (width imageData) (height imageData) data.

End Saturation.

(** ** Bilateral filter *)

Section Bilateral.
Import JsR.
Local Open Scope R_scope.

(** The weight of the neighbour at offset [(dx, dy)] of sample value
    [pixelValue], seen from a centre of sample value [centerValue]. *)
Definition bilateralWeight (spatialSigma intensitySigma : R)
    (dx dy : Z) (centerValue pixelValue : R) : R :=
  let spatialDistance := IZR (dx * dx + dy * dy) in
  let spatialWeight :=
    Math_exp (- spatialDistance / (2 * spatialSigma * spatialSigma)) in
  let intensityDistance := Rabs (centerValue - pixelValue) in
  let intensityWeight :=
    Math_exp (- intensityDistance * intensityDistance
              / (2 * intensitySigma * intensitySigma)) in
  spatialWeight * intensityWeight.

(** The number stored for channel [c] of the pixel at [(x, y)]. *)
Definition bilateralSample (data : buffer) (width : Z)
    (spatialSigma intensitySigma : R) (radius x y c : Z) : R :=
  let centerIdx := ((y * width + x) * 4 + c)%Z in
  let centerValue := load data centerIdx in
  let '(sum, weightSum) :=
    for_range (- radius) (radius + 1) (fun dy acc =>
      for_range (- radius) (radius + 1) (fun dx '(sum, weightSum) =>
        let idx := (((y + dy) * width + (x + dx)) * 4 + c)%Z in
        let pixelValue := load data idx in
        let weight :=
          bilateralWeight spatialSigma intensitySigma dx dy centerValue pixelValue in
        (sum + pixelValue * weight, weightSum + weight)) acc) (0, 0) in
  if Rlt_dec 0 weightSum then sum / weightSum else centerValue.

Definition applyBilateralFilter (imageData : ImageData) (width height : Z)
    (spatialSigma intensitySigma : R) : ImageData :=
  let data := data imageData in
  let outputData := data in
  let radius := Math_ceil (spatialSigma * 2) in
  let outputData :=
    for_range radius (height - radius) (fun y outputData =>
      for_range radius (width - radius) (fun x outputData =>
        let outputData :=
          for_range 0 3 (fun c outputData =>
            store outputData ((y * width + x) * 4 + c)
              (bilateralSample data width spatialSigma intensitySigma radius x y c))
            outputData in
        store outputData ((y * width + x) * 4 + 3)
          (load data ((y * width + x) * 4 + 3))) outputData) outputData in
  mkImageData width height outputData.

End Bilateral.

(** ** Local contrast enhancer (tiled, clip-limited histogram equalization) *)

Section CLAHE.
Import JsQ.
Local Open Scope Q_scope.

Definition blockSize : Z := 64.
Definition clipLimit : Q := 3.

Definition bin (histogram : list Q) (i : Z) : Q :=
  if (0 <=? i)%Z then default 0 (histogram !! Z.to_nat i) else 0.

Definition set_bin (histogram : list Q) (i : Z) (v : Q) : list Q :=
  if (0 <=? i)%Z then <[Z.to_nat i := v]> histogram else histogram.

Definition luminanceQ (d : buffer) (i : Z) : Z :=
  Math_round (0.299 * load d i + 0.587 * load d (i + 1) + 0.114 * load d (i + 2)).

(** Calculate histogram for this block: the bins and [pixelCount]. *)
Definition blockHistogram (data : buffer) (width bx by' endX endY : Z)
    : list Q * Z :=
  for_range by' endY (fun y acc =>
    for_range bx endX (fun x '(histogram, pixelCount) =>
      let idx := ((y * width + x) * 4)%Z in
      let luminance := luminanceQ data idx in
      (set_bin histogram luminance (bin histogram luminance + 1),
       (pixelCount + 1)%Z)) acc) (replicate 256 0, 0%Z).

(** Apply contrast limiting: the capped bins and the [excess]. *)
Definition clipHistogram (histogram : list Q) (clipValue : Q) : list Q * Q :=
  for_range 0 256 (fun i '(histogram, excess) =>
    if Qlt_le_dec clipValue (bin histogram i)
    then (set_bin histogram i clipValue, excess + (bin histogram i - clipValue))
    else (histogram, excess)) (histogram, 0).

(** Redistribute excess *)
Definition redistributeExcess (histogram : list Q) (excess : Q) : list Q :=
  let redistribute := excess / 256 in
  for_range 0 256 (fun i histogram =>
    set_bin histogram i (bin histogram i + redistribute)) histogram.

(** Calculate CDF *)
Definition buildCdf (histogram : list Q) : list Q :=
  for_range 1 256 (fun i cdf =>
    set_bin cdf i (bin cdf (i - 1) + bin histogram i))
    (set_bin (replicate 256 0) 0 (bin histogram 0)).

(** What a block computes before it is remapped: the histogram after
    clipping and redistribution, its CDF, and [pixelCount]. *)
Definition blockEqualization (data : buffer) (width bx by' endX endY : Z)
    : list Q * list Q * Z :=
  let '(histogram, pixelCount) := blockHistogram data width bx by' endX endY in
  let clipValue := clipLimit * inject_Z pixelCount / 256 in
  let '(histogram, excess) := clipHistogram histogram clipValue in
  let histogram := redistributeExcess histogram excess in
  let cdf := buildCdf histogram in
  (histogram, cdf, pixelCount).

(** Apply equalization to block *)
Definition equalizeBlock (data : buffer) (width bx by' endX endY : Z)
    (cdf : list Q) (pixelCount : Z) : buffer :=
  for_range by' endY (fun y data =>
    for_range bx endX (fun x data =>
      let idx := ((y * width + x) * 4)%Z in
      for_range 0 3 (fun c data =>
        let value := get data (idx + c) in
        let newValue := bin cdf value / inject_Z pixelCount * 255 in
        store data (idx + c) (Math_min 255 (Math_max 0 newValue))) data) data) data.

Definition applyCLAHE (imageData : ImageData) (width height : Z) : ImageData :=
  let data := data imageData in
  let data :=
    for_step 0 height blockSize (fun by' data =>
      for_step 0 width blockSize (fun bx data =>
        let endY := Z.min (by' + blockSize) height in
        let endX := Z.min (bx + blockSize) width in
        let '(_, cdf, pixelCount) := blockEqualization data width bx by' endX endY in
        equalizeBlock data width bx by' endX endY cdf pixelCount) data) data in
  mkImageData (Image.width imageData) (Image.height imageData) data.

End CLAHE.

(** ** Detail enhancer, colour enhancer, the AI chain *)

Section Enhancement.
Import JsR.
Local Open Scope R_scope.

Definition enhanceDetails (imageData : ImageData) (width height : Z) : ImageData :=
  let blurred := gaussianBlur imageData width height 2 in
  let data := data imageData in
  let blurredData := Image.data blurred in
  let data :=
    for_step 0 (len data) 4 (fun i data =>
      for_range 0 3 (fun c data =>
        let detail := load data (i + c) - load blurredData (i + c) in
        let enhanced := load data (i + c) + detail * 0.8 in
        store data (i + c) (Rmin 255 (Rmax 0 enhanced))) data) data in
  mkImageData (Image.width imageData) (Image.height imageData) data.

(** The three numbers stored for a pixel of samples [r0 g0 b0]. *)
Definition enhancePixel (r0 g0 b0 : Z) : R * R * R :=
  let r := IZR r0 / 255 in
  let g := IZR g0 / 255 in
  let b := IZR b0 / 255 in
  (* Apply color temperature adjustment *)
  let r := Math_pow r 0.9 * 1.05 in
  let g := Math_pow g 0.95 * 1.02 in
  let b := Math_pow b 1.1 * 0.98 in
  (* Enhance color separation *)
  let max := Rmax (Rmax r g) b in
  let min := Rmin (Rmin r g) b in
  let '(r, g, b) :=
    if Rlt_dec min max then
      let factor := 1.15 in
      (min + (r - min) * factor, min + (g - min) * factor, min + (b - min) * factor)
    else (r, g, b) in
  (Rmin 255 (Rmax 0 (r * 255)), Rmin 255 (Rmax 0 (g * 255)),
   Rmin 255 (Rmax 0 (b * 255))).

Definition enhanceColors (imageData : ImageData) : ImageData :=
  let data := data imageData in
  let data :=
    for_step 0 (len data) 4 (fun i data =>
      let '(r, g, b) := enhancePixel (get data i) (get data (i + 1)) (get data (i + 2)) in
      let data := store data i r in
      let data := store data (i + 1) g in
      store data (i + 2) b) data in
  mkImageData (width imageData) (height imageData) data.

Definition applyAdvancedAIEnhancement (imageData : ImageData) (width height : Z)
    : ImageData :=
  (* Step 1: Edge-preserving smoothing *)
  let enhanced := applyBilateralFilter imageData width height 3 25 in
  (* Step 2: Local contrast enhancement *)
  let enhanced := applyCLAHE enhanced width height in
  (* Step 3: Detail enhancement *)
  let enhanced := enhanceDetails enhanced width height in
  (* Step 4: Color enhancement *)
  enhanceColors enhanced.

End Enhancement.

(** ** Resampler (bicubic) *)

Section Resampler.
Import JsQ.
Local Open Scope Q_scope.

Definition cubic (t : Q) : Q :=
  let a := - (1 # 2) in
  let absT := Math_abs t in
  if Qlt_le_dec 1 absT then
    if Qlt_le_dec 2 absT then 0
    else a * absT * absT * absT - 5 * a * absT * absT + 8 * a * absT - 4 * a
  else (a + 2) * absT * absT * absT - (a + 3) * absT * absT + 1.

Definition getValue (data : buffer) (width height channel : Z) (px py : Z) : Q :=
  let px := Z.min (width - 1) (Z.max 0 px) in
  let py := Z.min (height - 1) (Z.max 0 py) in
  load data ((py * width + px) * 4 + channel).

Definition bicubicInterpolate (data : buffer) (width height : Z) (x y : Q)
    (channel : Z) : Q :=
  let x1 := Math_floor x in
  let y1 := Math_floor y in
  let dx := x - inject_Z x1 in
  let dy := y - inject_Z y1 in
  for_range (-1) 3 (fun m result =>
    for_range (-1) 3 (fun n result =>
      let value := getValue data width height channel (x1 + n) (y1 + m) in
      let weight := cubic (dx - inject_Z n) * cubic (dy - inject_Z m) in
      result + value * weight) result) 0.

(** [new ImageData(data, sw, sh)].  The constructor throws unless [data] holds
    sw*sh*4 samples and both sizes are at least 1. *)
Definition newImageData (data : buffer) (sw sh : Z) : option ImageData :=
  if ((0 <? sw) && (0 <? sh) && (len data =? sw * sh * 4))%Z
  then Some (mkImageData sw sh data)
  else None.

(** [None]: the constructor of the result throws. *)
Definition bicubicUpscale (imageData : ImageData) (scaleFactor : Q)
    : option ImageData :=
  let srcWidth := width imageData in
  let srcHeight := height imageData in
  let dstWidth := Math_round (inject_Z srcWidth * scaleFactor) in
  let dstHeight := Math_round (inject_Z srcHeight * scaleFactor) in
  let srcData := data imageData in
  let dstData := replicate (Z.to_nat (dstWidth * dstHeight * 4)) 0%Z in
  let dstData :=
    for_range 0 dstHeight (fun y dstData =>
      for_range 0 dstWidth (fun x dstData =>
        let srcX := inject_Z x / scaleFactor in
        let srcY := inject_Z y / scaleFactor in
        for_range 0 4 (fun c dstData =>
          let value := bicubicInterpolate srcData srcWidth srcHeight srcX srcY c in
          store dstData ((y * dstWidth + x) * 4 + c)
            (Math_min 255 (Math_max 0 value))) dstData) dstData) dstData in
  newImageData dstData dstWidth dstHeight.

End Resampler.

(** ** Pipeline orchestrator *)

Record ProcessingSettings := mkSettings {
  sharpening : Q;
  denoising : Q;
  brightness : Q;
  contrast : Q;
  saturation : Q;
  useAI : bool
}.

(** The canvas the pipeline draws on.  [contextAvailable] is whether
    [getContext('2d')] returns a context; [drawImage img w h] is the sample
    buffer read back by [getImageData(0, 0, w, h)] after
    [drawImage(img, 0, 0, w, h)]. *)
Record Canvas := mkCanvas {
  contextAvailable : bool;
  drawImage : ImageData -> Z -> Z -> buffer
}.

(** How the promise settles; [Resolved] carries the raster put on the canvas,
    before it is encoded. *)
Inductive Outcome :=
| Resolved (raster : ImageData)
| Rejected (reason : string).

Section Orchestrator.
Import JsQ.
Local Open Scope Q_scope.

Definition nonzero (x : Q) : bool := negb (Qeq_bool x 0).
Definition positive (x : Q) : bool := if Qlt_le_dec 0 x then true else false.

(** [file] is the decoded image, or [None] when the image fails to load. *)
Definition processImageRealtime (canvas : Canvas) (file : option ImageData)
    (settings : ProcessingSettings) : Outcome :=
  match file with
  | None => Rejected "Failed to load image"
  | Some img =>
    (* Use moderate size for real-time processing *)
    let maxSize := 800 in
    let scale :=
      Math_min (Math_min (maxSize / inject_Z (Image.width img))
                         (maxSize / inject_Z (Image.height img))) 1 in
    let width := Math_floor (inject_Z (Image.width img) * scale) in
    let height := Math_floor (inject_Z (Image.height img) * scale) in
    if negb (contextAvailable canvas) then Rejected "Canvas context not available"
    else if (width =? 0)%Z || (height =? 0)%Z then Rejected "IndexSizeError"
    else
      let imageData := mkImageData width height (drawImage canvas img width height) in
      let imageData :=
        if positive (denoising settings) then
          let spatialSigma := 2 + (denoising settings / 100) * 3 in
          let intensitySigma := 15 + (denoising settings / 100) * 35 in
          applyBilateralFilter imageData width height
            (Q2R spatialSigma) (Q2R intensitySigma)
        else imageData in
      let imageData :=
        if nonzero (brightness settings) || nonzero (contrast settings) then
          applyAdvancedToneMapping imageData
            (Q2R (brightness settings)) (Q2R (contrast settings))
        else imageData in
      let imageData :=
        if nonzero (saturation settings) then
          applyAdvancedSaturation imageData (saturation settings)
        else imageData in
      let imageData :=
        if positive (sharpening settings) then
          let amount := (1 # 2) + (sharpening settings / 100) * 2 in
          let radius := 1 + (sharpening settings / 100) * (3 # 2) in
          applyUnsharpMask imageData width height (Q2R amount) (Q2R radius) 3%R
        else imageData in
      let imageData :=
        if useAI settings then applyAdvancedAIEnhancement imageData width height
        else imageData in
      Resolved imageData
  end.

(** The first component is the sequence of values passed to [onProgress]. *)
Definition processImage (canvas : Canvas) (file : option ImageData)
    (settings : ProcessingSettings) : list Z * Outcome :=
  match file with
  | None => ([], Rejected "Failed to load image")
  | Some img =>
    (* Optional upscaling for better quality *)
    let scale :=
      if (Image.width img * Image.height img <? 1000000)%Z
      then Math_min 2 (1500 / inject_Z (Z.max (Image.width img) (Image.height img)))
      else 1 in
    let width := Math_floor (inject_Z (Image.width img) * scale) in
    let height := Math_floor (inject_Z (Image.height img) * scale) in
    if negb (contextAvailable canvas) then ([], Rejected "Canvas context not available")
    else
      let progress := [10%Z] in
      if (width =? 0)%Z || (height =? 0)%Z then (progress, Rejected "IndexSizeError")
      else
        let imageData := mkImageData width height (drawImage canvas img width height) in
        let '(imageData, progress) :=
          if positive (denoising settings) then
            let spatialSigma := 3 + (denoising settings / 100) * 4 in
            let intensitySigma := 20 + (denoising settings / 100) * 50 in
            (applyBilateralFilter imageData width height
               (Q2R spatialSigma) (Q2R intensitySigma), progress ++ [25%Z])
          else (imageData, progress) in
        let '(imageData, progress) :=
          if useAI settings then
            (applyAdvancedAIEnhancement imageData width height, progress ++ [50%Z])
          else (imageData, progress) in
        let '(imageData, progress) :=
          if nonzero (brightness settings) || nonzero (contrast settings) then
            (applyAdvancedToneMapping imageData
               (Q2R (brightness settings)) (Q2R (contrast settings)),
             progress ++ [65%Z])
          else (imageData, progress) in
        let '(imageData, progress) :=
          if nonzero (saturation settings) then
            (applyAdvancedSaturation imageData (saturation settings),
             progress ++ [80%Z])
          else (imageData, progress) in
        let '(imageData, progress) :=
          if positive (sharpening settings) then
            let amount := 1 + (sharpening settings / 100) * 3 in
            let radius := (6 # 5) + (sharpening settings / 100) * 2 in
            (applyUnsharpMask imageData width height (Q2R amount) (Q2R radius) 2%R,
             progress ++ [95%Z])
          else (imageData, progress) in
        (progress ++ [100%Z], Resolved imageData)
  end.

End Orchestrator.

(** ** Vocabulary of the statements *)

(** [kept d t]: buffer [t] has the length and the alpha samples of [d], and
    holds bytes. *)
Definition kept (d t : buffer) : Prop :=
  length t = length d /\
  (forall j, j mod 4 = 3 -> get t j = get d j) /\
  Forall is_byte t.


(** [output] has the dimensions of [input], width*height*4 samples, and the
    alpha sample of every pixel of [input]. *)
Definition alpha_preserved (input output : ImageData) : Prop :=
  len (data output) = width input * height input * 4 /\
  forall p, 0 <= p < width input * height input ->
    get (data output) (p * 4 + 3) = get (data input) (p * 4 + 3).

(** The progress values the specification lists for a settings record. *)
Definition milestones (settings : ProcessingSettings) : list Z :=
  [10]
  ++ (if Qlt_le_dec 0 (denoising settings) then [25] else [])
  ++ (if useAI settings then [50] else [])
  ++ (if Qeq_dec (brightness settings) 0
      then if Qeq_dec (contrast settings) 0 then [] else [65]
      else [65])
  ++ (if Qeq_dec (saturation settings) 0 then [] else [80])
  ++ (if Qlt_le_dec 0 (sharpening settings) then [95] else [])
  ++ [100].

(** A one-pixel image and a canvas that reads back the image it is given,
    sampled at the nearest source pixel. *)
Definition onePixel : ImageData := mkImageData 1 1 [10; 20; 30; 255].

Definition nearestSample (img : ImageData) (w h : Z) : buffer :=
  flat_map (fun y =>
    flat_map (fun x =>
      let sx := x * width img / w in
      let sy := y * height img / h in
      map (fun c => get (data img) ((sy * width img + sx) * 4 + c)) [0; 1; 2; 3])
      (range 0 w)) (range 0 h).

Definition nearestCanvas : Canvas := mkCanvas true nearestSample.

Definition neutralSettings : ProcessingSettings := mkSettings 0 0 0 0 0 false.
Definition saturateSettings : ProcessingSettings := mkSettings 0 0 0 0 10 false.

Definition sumQ (l : list Q) : Q := fold_right Qplus 0%Q l.

Definition twoPixels : buffer := [200; 20; 30; 255; 7; 100; 250; 0].

Definition sumR (l : list R) : R := fold_right Rplus 0%R l.

(** The least odd integer that is at least [n]. *)
Definition next_odd (n : Z) : Z := if Z.even n then n + 1 else n.

(** [x] is a whole number or exceeds the whole number below it by at least
    1e-6, and lies between 0 and 2^31 - 1: the double nearest to [x] (it is
    within 2.4e-7 of [x]) then has the ceiling of [x]. *)
Definition ceils_as_computed (x : R) : Prop :=
  (0 <= x <= 2147483647)%R /\
  (x = IZR (Zfloor x) \/ (1 / 1000000 <= x - IZR (Zfloor x))%R).

(** [x] is a tie n + 1/2 or at least 1e-6 away from every tie, and between 0
    and 16384: [Math.round] of the double nearest to [x] is then [Math.round]
    of [x], and a raster of two such sizes has at most 2^30 samples. *)
Definition rounds_as_computed (x : Q) : Prop :=
  (0 <= x <= 16384)%Q /\
  let f := (x + (1 # 2) - inject_Z (Qfloor (x + (1 # 2))))%Q in
  (f == 0 \/ (1 # 1000000) <= f <= 1 - (1 # 1000000))%Q.

(** The weight the generator computes for tap [i], before normalisation. *)
Definition rawWeight (radius : R) (i : Z) : R :=
  let sigma := (radius / 3)%R in
  let x := IZR (i - kernel_size radius / 2) in
  JsR.Math_exp (- (x * x) / (2 * sigma * sigma))%R.

(** [d] has the length of [src] and its first [k] samples. *)
Definition agree_upto (src : buffer) (k : Z) (d : buffer) : Prop :=
  length d = length src /\ forall j : nat, Z.of_nat j < k -> d !! j = src !! j.

(** The samples the saturation adjuster leaves in a pixel of samples
    [r0 g0 b0]. *)
Definition saturatedSamples (saturation : Q) (r0 g0 b0 : Z) : Z * Z * Z :=
  let factor := ((saturation + 100) / 100)%Q in
  let r := (inject_Z r0 / 255)%Q in
  let g := (inject_Z g0 / 255)%Q in
  let b := (inject_Z b0 / 255)%Q in
  if Qeq_dec (JsQ.Math_max (JsQ.Math_max r g) b - JsQ.Math_min (JsQ.Math_min r g) b) 0
  then (r0, g0, b0)
  else
    let '(r', g', b') := saturatePixel factor r g b in
    (JsQ.ToUint8Clamp r', JsQ.ToUint8Clamp g', JsQ.ToUint8Clamp b').

Definition channel (c : Z) (rgb : Z * Z * Z) : Z :=
  let '(r, g, b) := rgb in
  if c =? 0 then r else if c =? 1 then g else b.

Definition twoPixelImage : ImageData := mkImageData 2 1 twoPixels.
Definition grayPixel : ImageData := mkImageData 1 1 [128; 128; 128; 255].

(** ** The bilateral filter in the words of the specification *)








Definition ninePixels : ImageData :=
  mkImageData 3 3
    [ 10; 10; 10; 255;   20; 20; 20; 255;   30; 30; 30; 255;
      40; 40; 40; 255;  200; 90; 50; 255;   60; 60; 60; 255;
      70; 70; 70; 255;   80; 80; 80; 255;   90; 90; 90; 255 ].

(** [n] pixels of colour [(v, v, v)] and alpha [a]. *)
Definition flatBuffer (n : nat) (v a : Z) : buffer := concat (replicate n [v; v; v; a]).

(** The uniform opaque image of [w] by [h] pixels of value [v]. *)
Definition flatImage (w h v : Z) : ImageData :=
  mkImageData w h (flatBuffer (Z.to_nat (w * h)) v 255).

Definition brightSettings : ProcessingSettings := mkSettings 0 0 50 0 0 false.

(** A canvas with a context that draws a uniform opaque image, at any size,
    as the uniform image of that size. *)
Definition draws_flat (canvas : Canvas) : Prop :=
  contextAvailable canvas = true /\
  forall w0 h0 v w h, 0 < w0 -> 0 < h0 -> 0 < w -> 0 < h -> is_byte v ->
    drawImage canvas (flatImage w0 h0 v) w h = data (flatImage w h v).

(** ** Vocabulary of the further properties *)

(** Every sample of channel [c] in [d] lies in [lo, hi]. *)
Definition channel_within (d : buffer) (c lo hi : Z) : Prop :=
  forall j, 0 <= j < len d -> j mod 4 = c -> lo <= get d j <= hi.

(** Every pixel of the image has the four samples of the first pixel. *)
Definition uniform (img : ImageData) : Prop :=
  forall p c, 0 <= p < width img * height img -> 0 <= c < 4 ->
    get (data img) (4 * p + c) = get (data img) c.

Definition uniformFour : ImageData :=
  mkImageData 2 2
    [ 200; 20; 30; 255;  200; 20; 30; 255;
      200; 20; 30; 255;  200; 20; 30; 255 ].

Definition uniformNine : ImageData :=
  mkImageData 3 3
    [ 200; 20; 30; 255;  200; 20; 30; 255;  200; 20; 30; 255;
      200; 20; 30; 255;  200; 20; 30; 255;  200; 20; 30; 255;
      200; 20; 30; 255;  200; 20; 30; 255;  200; 20; 30; 255 ].

(** ** The application around the processor *)

(** [hasChanges] of the application: some stage is switched on. *)
Definition hasChanges (settings : ProcessingSettings) : bool :=
  positive (sharpening settings) || positive (denoising settings)
  || nonzero (brightness settings) || nonzero (contrast settings)
  || nonzero (saturation settings) || useAI settings.

(** [getEnhancementStrength] of the application. *)
Definition getEnhancementStrength (settings : ProcessingSettings) : Z :=
  let total :=
    (JsQ.Math_abs (sharpening settings) + JsQ.Math_abs (denoising settings)
     + JsQ.Math_abs (brightness settings) + JsQ.Math_abs (contrast settings)
     + JsQ.Math_abs (saturation settings)
     + (if useAI settings then 50 else 0))%Q in
  Z.min 100 (JsQ.Math_round (total / 3)).

(** The step shown by the processing dialog for a progress value. *)
Inductive StepIcon := ImageIcon | Cpu | Zap | Sparkles.

Record ProcessingStep := mkStep { icon : StepIcon; text : string; step : Z }.

Definition getProcessingStep (progress : Q) : ProcessingStep :=
  if Qlt_le_dec progress 25 then mkStep ImageIcon "Loading and analyzing image..." 1
  else if Qlt_le_dec progress 50 then mkStep Cpu "Applying enhancement filters..." 2
  else if Qlt_le_dec progress 80 then mkStep Zap "Processing advanced algorithms..." 3
  else mkStep Sparkles "Finalizing improvements..." 4.

(** A canvas whose read-back is always a buffer of w*h*4 byte samples. *)
Definition canvas_wf (canvas : Canvas) : Prop :=
  forall img w h, 0 < w -> 0 < h -> wf_image (mkImageData w h (drawImage canvas img w h)).

(** The canvas size of the real-time pipeline and of the full-quality
    pipeline for a source image, as the two functions compute it. *)
Definition previewSize (img : ImageData) : Z * Z :=
  let scale :=
    JsQ.Math_min (JsQ.Math_min (800 / inject_Z (width img))
                               (800 / inject_Z (height img))) 1 in
  (JsQ.Math_floor (inject_Z (width img) * scale),
   JsQ.Math_floor (inject_Z (height img) * scale)).

Definition finalSize (img : ImageData) : Z * Z :=
  let scale :=
    if (width img * height img <? 1000000)%Z
    then JsQ.Math_min 2 (1500 / inject_Z (Z.max (width img) (height img)))
    else 1%Q in
  (JsQ.Math_floor (inject_Z (width img) * scale),
   JsQ.Math_floor (inject_Z (height img) * scale)).

(** [framed w h d r]: raster [r] is w by h and, when [d] holds bytes, keeps
    the length and the alpha samples of buffer [d]. *)
Definition framed (w h : Z) (d : buffer) (r : ImageData) : Prop :=
  width r = w /\ height r = h /\ (Forall is_byte d -> kept d (data r)).
(** * Properties *)

(** ** Reasoning about loops *)

Section LoopRules.
Context {S : Type}.
Implicit Types (body : Z -> S -> S) (s : S).

Lemma range_bounds lo hi : Forall (fun i => lo <= i < hi) (range lo hi).
Proof.
  unfold range. apply Forall_forall. intros i Hi.
  apply list_elem_of_In, in_map_iff in Hi. destruct Hi as (k & <- & Hk).
  apply in_seq in Hk. lia.
Qed.

Lemma for_range_empty lo hi body s : hi <= lo -> for_range lo hi body s = s.
Proof.
  intros H. unfold for_range, range.
  replace (Z.to_nat (hi - lo)) with 0%nat by lia. reflexivity.
Qed.

(** An invariant that every iteration keeps holds after the loop. *)
Lemma for_range_inv (P : S -> Prop) lo hi body s :
  P s ->
  (forall i s', lo <= i < hi -> P s' -> P (body i s')) ->
  P (for_range lo hi body s).
Proof.
  intros Hs Hstep. unfold for_range.
  pose proof (range_bounds lo hi) as Hb.
  revert s Hs. induction Hb as [|i l Hi _ IH]; intros s Hs; simpl; auto.
Qed.

(** The same with an invariant that follows the loop counter. *)
Lemma for_range_ind (P : Z -> S -> Prop) lo hi body s :
  lo <= hi ->
  P lo s ->
  (forall i s', lo <= i < hi -> P i s' -> P (i + 1) (body i s')) ->
  P hi (for_range lo hi body s).
Proof.
  intros Hle Hs Hstep. unfold for_range, range.
  remember (Z.to_nat (hi - lo)) as n eqn:Hn.
  assert (Hhi : hi = lo + Z.of_nat n) by lia. clear Hn. subst hi.
  induction n as [|n IH].
  - simpl. now rewrite Z.add_0_r.
  - rewrite seq_S, map_app, fold_left_app. simpl.
    replace (lo + Z.of_nat (Datatypes.S n)) with (lo + Z.of_nat n + 1) by lia.
    apply Hstep; [lia|].
    apply IH; [lia|]. intros i s' Hi. apply Hstep. lia.
Qed.


Lemma for_step_inv (P : S -> Prop) lo hi step body s :
  0 < step ->
  P s ->
  (forall i s', lo <= i < hi -> (step | i - lo) -> P s' -> P (body i s')) ->
  P (for_step lo hi step body s).
Proof.
  intros Hstep Hs Hbody. unfold for_step. apply for_range_inv; [exact Hs|].
  intros k s' Hk Hs'. apply Hbody; [| exists k; lia | exact Hs'].
  assert (step * k < hi - lo); [|lia].
  destruct Hk as [Hk0 Hk].
  apply Z.lt_le_pred in Hk.
  assert (step * ((hi - lo + step - 1) / step) <= hi - lo + step - 1)
    by (apply Z.mul_div_le; lia).
  nia.
Qed.

End LoopRules.

(** ** Reading and writing samples *)

Lemma length_put d i v : length (put d i v) = length d.
Proof. unfold put. destruct (0 <=? i); [apply length_insert | reflexivity]. Qed.

Lemma lookup_put_ne d i v (j : nat) : Z.of_nat j <> i -> put d i v !! j = d !! j.
Proof.
  intros H. unfold put. destruct (0 <=? i) eqn:E; [|reflexivity].
  apply list_lookup_insert_ne. apply Z.leb_le in E. lia.
Qed.

Lemma lookup_put_eq d i v :
  0 <= i < len d -> put d i v !! Z.to_nat i = Some v.
Proof.
  intros [H0 H1]. unfold put. destruct (0 <=? i) eqn:E; [|apply Z.leb_gt in E; lia].
  apply list_lookup_insert_eq. unfold len in H1. lia.
Qed.

Lemma get_put_ne d i v j : j <> i -> get (put d i v) j = get d j.
Proof.
  intros H. unfold get. destruct (0 <=? j) eqn:E; [|reflexivity].
  apply Z.leb_le in E. rewrite lookup_put_ne by lia. reflexivity.
Qed.

Lemma get_put_eq d i v : 0 <= i < len d -> get (put d i v) i = v.
Proof.
  intros H. unfold get. destruct (0 <=? i) eqn:E; [|apply Z.leb_gt in E; lia].
  now rewrite lookup_put_eq.
Qed.

Lemma len_put d i v : len (put d i v) = len d.
Proof. unfold len. now rewrite length_put. Qed.

Lemma get_lookup d (j : nat) v : d !! j = Some v -> get d (Z.of_nat j) = v.
Proof.
  intros H. unfold get. destruct (0 <=? Z.of_nat j) eqn:E; [|apply Z.leb_gt in E; lia].
  now rewrite Nat2Z.id, H.
Qed.

Lemma get_is_byte d i : Forall is_byte d -> is_byte (get d i).
Proof.
  intros H. unfold get. destruct (0 <=? i); [|unfold is_byte; lia].
  destruct (d !! Z.to_nat i) as [v|] eqn:E; simpl; [|unfold is_byte; lia].
  eapply Forall_lookup_1; eauto.
Qed.

Lemma put_is_byte d i v : is_byte v -> Forall is_byte d -> Forall is_byte (put d i v).
Proof.
  intros Hv Hd. unfold put. destruct (0 <=? i); [|exact Hd].
  now apply Forall_insert.
Qed.

Lemma put_out_of_range d i v : ~ (0 <= i < len d) -> put d i v = d.
Proof.
  intros H. unfold put. destruct (0 <=? i) eqn:E; [|reflexivity].
  apply Z.leb_le in E. apply list_insert_ge. unfold len in H. lia.
Qed.

Lemma get_put d i v j :
  get (put d i v) j = if (j =? i) && (0 <=? i) && (i <? len d) then v else get d j.
Proof.
  destruct (Z.eqb_spec j i) as [->|Hne]; simpl.
  - destruct (Z.leb_spec 0 i), (Z.ltb_spec i (len d)); simpl;
      first [ apply get_put_eq; lia | rewrite put_out_of_range by lia; reflexivity ].
  - now apply get_put_ne.
Qed.

(** ** The conversion on store *)

Lemma ToUint8ClampR_byte x : is_byte (JsR.ToUint8Clamp x).
Proof.
  unfold JsR.ToUint8Clamp, is_byte.
  destruct (Rlt_dec 0 x) as [H0|]; [|lia].
  destruct (Rlt_dec x 255) as [H1|]; [|lia].
  pose proof (Zfloor_bound x) as [Hf1 Hf2].
  assert (0 <= Zfloor x) by (apply Zfloor_lub; lra).
  assert (Zfloor x < 255) by (apply lt_IZR; lra).
  repeat destruct (Rlt_dec _ _); try destruct (Z.even _); lia.
Qed.

Lemma ToUint8ClampR_IZR v : is_byte v -> JsR.ToUint8Clamp (IZR v) = v.
Proof.
  intros [H0 H1]. unfold JsR.ToUint8Clamp.
  destruct (Rlt_dec 0 (IZR v)) as [Hp|Hp].
  - destruct (Rlt_dec (IZR v) 255) as [Hq|Hq].
    + rewrite ZfloorZ. destruct (Rlt_dec (IZR v - IZR v) (1 / 2)); [reflexivity|lra].
    + assert (255 <= v) by (apply le_IZR; lra). lia.
  - assert (v <= 0) by (apply le_IZR; lra). lia.
Qed.

Lemma ToUint8ClampQ_byte x : is_byte (JsQ.ToUint8Clamp x).
Proof.
  unfold JsQ.ToUint8Clamp, is_byte.
  destruct (Qlt_le_dec 0 x) as [H0|]; [|lia].
  destruct (Qlt_le_dec x 255) as [H1|]; [|lia].
  assert (0 <= Qfloor x).
  { change 0 with (Qfloor 0). apply Qfloor_resp_le. now apply Qlt_le_weak. }
  assert (Qfloor x < 255).
  { pose proof (Qfloor_le x) as Hf. rewrite Zlt_Qlt. eapply Qle_lt_trans; eauto. }
  repeat destruct (Qlt_le_dec _ _); try destruct (Z.even _); lia.
Qed.

Lemma ToUint8ClampQ_inject v x :
  is_byte v -> (x == inject_Z v)%Q -> JsQ.ToUint8Clamp x = v.
Proof.
  intros [H0 H1] Hx. unfold JsQ.ToUint8Clamp.
  assert (Hf : Qfloor x = v) by (rewrite Hx; apply Qfloor_Z).
  destruct (Qlt_le_dec 0 x) as [Hp|Hp].
  - destruct (Qlt_le_dec x 255) as [Hq|Hq].
    + rewrite Hf. destruct (Qlt_le_dec (x - inject_Z v) (1 # 2)) as [|Hd]; [reflexivity|].
      exfalso. rewrite Hx in Hd. lra.
    + rewrite Hx in Hq. change 255%Q with (inject_Z 255) in Hq.
      rewrite <- Zle_Qle in Hq. lia.
  - rewrite Hx in Hp. change 0%Q with (inject_Z 0) in Hp.
    rewrite <- Zle_Qle in Hp. lia.
Qed.

(** ** Stages keep the alpha samples and the buffer length *)

Lemma kept_refl d : Forall is_byte d -> kept d d.
Proof. unfold kept; auto. Qed.

Lemma kept_trans d t u : kept d t -> kept t u -> kept d u.
Proof.
  intros (L1 & A1 & _) (L2 & A2 & B2). repeat split; auto; try congruence.
  intros j Hj. rewrite A2, A1; auto.
Qed.

Lemma kept_put_rgb d t i v :
  i mod 4 <> 3 -> is_byte v -> kept d t -> kept d (put t i v).
Proof.
  intros Hi Hv (L & A & B). repeat split.
  - now rewrite length_put.
  - intros j Hj. rewrite get_put_ne by congruence. auto.
  - now apply put_is_byte.
Qed.

Lemma kept_put_alpha d t i v :
  v = get d i -> Forall is_byte d -> kept d t -> kept d (put t i v).
Proof.
  intros -> Hd (L & A & B). repeat split.
  - now rewrite length_put.
  - intros j Hj. rewrite get_put.
    destruct ((j =? i) && (0 <=? i) && (i <? len t)) eqn:E; auto.
    apply andb_prop in E as [E _]. apply andb_prop in E as [E _].
    apply Z.eqb_eq in E. now subst.
  - apply put_is_byte; auto. now apply get_is_byte.
Qed.

Lemma kept_storeR_rgb d t i v : i mod 4 <> 3 -> kept d t -> kept d (JsR.store t i v).
Proof. intros. apply kept_put_rgb; auto using ToUint8ClampR_byte. Qed.

Lemma kept_storeQ_rgb d t i v : i mod 4 <> 3 -> kept d t -> kept d (JsQ.store t i v).
Proof. intros. apply kept_put_rgb; auto using ToUint8ClampQ_byte. Qed.

Lemma kept_storeR_alpha d t src i :
  i mod 4 = 3 -> get src i = get d i -> Forall is_byte d -> kept d t ->
  kept d (JsR.store t i (JsR.load src i)).
Proof.
  intros Hi Hsrc Hd Hk. unfold JsR.store, JsR.load. apply kept_put_alpha; auto.
  rewrite Hsrc. apply ToUint8ClampR_IZR. now apply get_is_byte.
Qed.

Lemma rgb_index p c : 0 <= c < 3 -> (p * 4 + c) mod 4 <> 3.
Proof. intros H. rewrite Z.add_comm, Z_mod_plus_full, Z.mod_small; lia. Qed.

Lemma alpha_index p : (p * 4 + 3) mod 4 = 3.
Proof. rewrite Z.add_comm, Z_mod_plus_full. reflexivity. Qed.

Lemma rgb_index_step i c : (4 | i - 0) -> 0 <= c < 3 -> (i + c) mod 4 <> 3.
Proof.
  intros [k Hk] H. replace (i + c) with (k * 4 + c) by lia. now apply rgb_index.
Qed.

Lemma rgb_index_step0 i : (4 | i - 0) -> i mod 4 <> 3.
Proof. intros H. replace i with (i + 0) by lia. apply rgb_index_step; auto; lia. Qed.

Lemma alpha_index_step i : (4 | i - 0) -> (i + 3) mod 4 = 3.
Proof. intros [k Hk]. replace (i + 3) with (k * 4 + 3) by lia. apply alpha_index. Qed.

Create HintDb frame.

#[local] Hint Resolve rgb_index alpha_index rgb_index_step alpha_index_step
  kept_storeR_rgb kept_storeQ_rgb kept_refl : frame.

Lemma gaussianBlur_kept img w h radius :
  Forall is_byte (data img) -> kept (data img) (data (gaussianBlur img w h radius)).
Proof.
  intros Hb. unfold gaussianBlur. cbv zeta. simpl.
  match goal with
  | |- context [JsR.load (for_range 0 h ?pass (data img)) _] =>
      set (temp := for_range 0 h pass (data img))
  end.
  assert (Ht : kept (data img) temp).
  { subst temp. apply for_range_inv; [auto with frame|]. intros y t _ Ht.
    apply for_range_inv; [exact Ht|]. clear t Ht. intros x t _ Ht.
    apply kept_storeR_alpha; [auto with frame | reflexivity | assumption |].
    apply for_range_inv; [exact Ht|]. intros c t' Hc Ht'. auto with frame. }
  apply for_range_inv; [auto with frame|]. intros y t _ Hk.
  apply for_range_inv; [exact Hk|]. clear t Hk. intros x t _ Hk.
  apply kept_storeR_alpha; [auto with frame | | assumption |].
  - destruct Ht as (_ & A & _). apply A. auto with frame.
  - apply for_range_inv; [exact Hk|]. intros c t' Hc Ht'. auto with frame.
Qed.

Lemma applyUnsharpMask_kept img w h amount radius threshold :
  Forall is_byte (data img) ->
  kept (data img) (data (applyUnsharpMask img w h amount radius threshold)).
Proof.
  intros Hb. unfold applyUnsharpMask. cbv zeta. simpl.
  apply for_step_inv; [lia | auto with frame |]. intros i t _ Hi Ht.
  apply kept_storeR_alpha; [auto with frame | reflexivity | assumption |].
  apply for_range_inv; [exact Ht|]. intros c t' Hc Ht'.
  destruct (Rlt_dec _ _); auto with frame.
Qed.

Lemma applyBilateralFilter_kept img w h spatialSigma intensitySigma :
  Forall is_byte (data img) ->
  kept (data img) (data (applyBilateralFilter img w h spatialSigma intensitySigma)).
Proof.
  intros Hb. unfold applyBilateralFilter. cbv zeta. simpl.
  apply for_range_inv; [auto with frame|]. intros y t _ Ht.
  apply for_range_inv; [exact Ht|]. clear t Ht. intros x t _ Ht.
  apply kept_storeR_alpha; [auto with frame | reflexivity | assumption |].
  apply for_range_inv; [exact Ht|]. intros c t' Hc Ht'. auto with frame.
Qed.

Lemma applyAdvancedToneMapping_kept img brightness contrast :
  Forall is_byte (data img) ->
  kept (data img) (data (applyAdvancedToneMapping img brightness contrast)).
Proof.
  intros Hb. unfold applyAdvancedToneMapping. cbv zeta. simpl.
  apply for_step_inv; [lia | auto with frame |]. intros i t _ Hi Ht.
  apply for_range_inv; [exact Ht|]. intros c t' Hc Ht'. auto with frame.
Qed.

Lemma applyAdvancedSaturation_kept img saturation :
  Forall is_byte (data img) ->
  kept (data img) (data (applyAdvancedSaturation img saturation)).
Proof.
  intros Hb. unfold applyAdvancedSaturation. cbv zeta. simpl.
  apply for_step_inv; [lia | auto with frame |]. intros i t _ Hi Ht.
  destruct (Qeq_dec _ _); [exact Ht|].
  destruct (saturatePixel _ _ _ _) as [[r' g'] b'].
  repeat apply kept_storeQ_rgb; auto using rgb_index_step0; apply rgb_index_step; auto; lia.
Qed.

Lemma equalizeBlock_kept d t w bx by' endX endY cdf pixelCount :
  kept d t -> kept d (equalizeBlock t w bx by' endX endY cdf pixelCount).
Proof.
  intros Ht. unfold equalizeBlock.
  apply for_range_inv; [exact Ht|]. clear t Ht. intros y t _ Ht.
  apply for_range_inv; [exact Ht|]. clear t Ht. intros x t _ Ht.
  apply for_range_inv; [exact Ht|]. intros c t' Hc Ht'. auto with frame.
Qed.

Lemma applyCLAHE_kept img w h :
  Forall is_byte (data img) -> kept (data img) (data (applyCLAHE img w h)).
Proof.
  intros Hb. unfold applyCLAHE. cbv zeta. simpl.
  apply for_step_inv; [reflexivity | auto with frame |]. intros y t _ _ Ht.
  apply for_step_inv; [reflexivity | exact Ht |]. clear t Ht. intros x t _ _ Ht.
  destruct (blockEqualization _ _ _ _ _ _) as [[hist cdf] pixelCount].
  now apply equalizeBlock_kept.
Qed.

Lemma enhanceDetails_kept img w h :
  Forall is_byte (data img) -> kept (data img) (data (enhanceDetails img w h)).
Proof.
  intros Hb. unfold enhanceDetails. cbv zeta. simpl.
  apply for_step_inv; [lia | auto with frame |]. intros i t _ Hi Ht.
  apply for_range_inv; [exact Ht|]. intros c t' Hc Ht'. auto with frame.
Qed.

Lemma enhanceColors_kept img :
  Forall is_byte (data img) -> kept (data img) (data (enhanceColors img)).
Proof.
  intros Hb. unfold enhanceColors. cbv zeta. simpl.
  apply for_step_inv; [lia | auto with frame |]. intros i t _ Hi Ht.
  destruct (enhancePixel _ _ _) as [[r g] b].
  repeat apply kept_storeR_rgb; auto using rgb_index_step0; apply rgb_index_step; auto; lia.
Qed.

Lemma kept_alpha_preserved img out :
  wf_image img -> kept (data img) (data out) -> alpha_preserved img out.
Proof.
  intros (Hw & Hh & Hlen & Hb) (L & A & _). split.
  - unfold len in *. now rewrite L.
  - intros p Hp. apply A. apply alpha_index.
Qed.

(** C6: on an image of width*height*4 byte samples, each colour or spatial
    filter stage (Gaussian blur, unsharp mask, bilateral filter, tone
    mapping, saturation, local-contrast equalization, detail enhancement,
    colour enhancement), for every parameter setting, returns a buffer of the
    same length width*height*4 in which the alpha sample of every pixel is
    the input's. *)
Theorem filters_preserve_alpha_and_length
    (img : ImageData)
    (radius amount threshold spatialSigma intensitySigma bright contr : R)
    (satur : Q) :
  wf_image img ->
  alpha_preserved img (gaussianBlur img (width img) (height img) radius) /\
  alpha_preserved img
    (applyUnsharpMask img (width img) (height img) amount radius threshold) /\
  alpha_preserved img
    (applyBilateralFilter img (width img) (height img) spatialSigma intensitySigma) /\
  alpha_preserved img (applyAdvancedToneMapping img bright contr) /\
  alpha_preserved img (applyAdvancedSaturation img satur) /\
  alpha_preserved img (applyCLAHE img (width img) (height img)) /\
  alpha_preserved img (enhanceDetails img (width img) (height img)) /\
  alpha_preserved img (enhanceColors img).
Proof.
  intros Hwf. assert (Hb : Forall is_byte (data img)) by apply Hwf.
  repeat split; apply kept_alpha_preserved; auto;
    auto using gaussianBlur_kept, applyUnsharpMask_kept, applyBilateralFilter_kept,
      applyAdvancedToneMapping_kept, applyAdvancedSaturation_kept, applyCLAHE_kept,
      enhanceDetails_kept, enhanceColors_kept.
Qed.

Lemma onePixel_wf : wf_image onePixel.
Proof.
  unfold wf_image, onePixel, len; simpl. repeat split; try lia.
  repeat constructor; unfold is_byte; lia.
Qed.

Lemma filters_preserve_alpha_and_length_witness :
  wf_image onePixel /\
  alpha_preserved onePixel (applyBilateralFilter onePixel 1 1 3 25) /\
  alpha_preserved onePixel (enhanceColors onePixel).
Proof.
  split; [exact onePixel_wf|].
  pose proof (filters_preserve_alpha_and_length onePixel 2 1 2 3 25 0 0 0 onePixel_wf)
    as H.
  split; apply H.
Defined.

(** ** The bilateral filter on an image without interior *)





(** ** Progress reports of the full-quality pipeline *)

Lemma nonzero_dec x : nonzero x = if Qeq_dec x 0 then false else true.
Proof.
  unfold nonzero. destruct (Qeq_dec x 0) as [E|E].
  - apply Qeq_bool_iff in E. now rewrite E.
  - destruct (Qeq_bool x 0) eqn:B; [|reflexivity].
    apply Qeq_bool_iff in B. contradiction.
Qed.

Lemma milestones_sorted settings : Sorted Z.le (milestones settings).
Proof.
  unfold milestones.
  destruct (Qlt_le_dec 0 (denoising settings)), (useAI settings),
    (Qeq_dec (brightness settings) 0), (Qeq_dec (contrast settings) 0),
    (Qeq_dec (saturation settings) 0), (Qlt_le_dec 0 (sharpening settings));
    simpl; repeat constructor; lia.
Qed.

(** C7: in full-quality mode the values passed to the progress callback are,
    for every settings record and whenever the run succeeds, exactly 10, then
    25 iff denoising > 0, 50 iff aiEnhance, 65 iff brightness <> 0 or
    contrast <> 0, 80 iff saturation <> 0, 95 iff sharpening > 0, in that
    order, then 100; the sequence is non-decreasing (also on a failed run)
    and a successful one ends at 100. *)
Theorem final_mode_progress_sequence canvas file settings :
  Sorted Z.le (fst (processImage canvas file settings)) /\
  (forall raster,
     snd (processImage canvas file settings) = Resolved raster ->
     fst (processImage canvas file settings) = milestones settings /\
     hd_error (milestones settings) = Some 10 /\
     List.last (milestones settings) 0 = 100).
Proof.
  split.
  - unfold processImage. destruct file as [img|]; [|constructor].
    destruct (contextAvailable canvas); simpl; [|constructor].
    destruct (_ || _); simpl; [repeat constructor|].
    rewrite !nonzero_dec. unfold positive.
    destruct (Qlt_le_dec 0 (denoising settings)), (useAI settings),
      (Qeq_dec (brightness settings) 0), (Qeq_dec (contrast settings) 0),
      (Qeq_dec (saturation settings) 0), (Qlt_le_dec 0 (sharpening settings));
      simpl; repeat constructor; lia.
  - intros raster. unfold processImage. destruct file as [img|]; [|discriminate].
    destruct (contextAvailable canvas); simpl; [|discriminate].
    destruct (_ || _); simpl; [discriminate|].
    rewrite !nonzero_dec. unfold positive, milestones.
    destruct (Qlt_le_dec 0 (denoising settings)), (useAI settings),
      (Qeq_dec (brightness settings) 0), (Qeq_dec (contrast settings) 0),
      (Qeq_dec (saturation settings) 0), (Qlt_le_dec 0 (sharpening settings));
      simpl; intros _; repeat split; reflexivity.
Qed.

Lemma final_mode_progress_sequence_witness :
  fst (processImage nearestCanvas (Some onePixel) saturateSettings) = [10; 80; 100].
Proof.
  edestruct (proj2 (final_mode_progress_sequence nearestCanvas (Some onePixel)
                      saturateSettings)) as [E _];
    [vm_compute; reflexivity | exact E].
Defined.

(** ** Local contrast: the histogram keeps its mass *)

Section HistogramMass.
Import JsQ.
Local Open Scope Q_scope.

Lemma sumQ_insert (l : list Q) (n : nat) (v : Q) :
  (n < length l)%nat -> sumQ (<[n := v]> l) == sumQ l - default 0 (l !! n) + v.
Proof.
  revert n. induction l as [|a l IH]; intros n Hn; simpl in *; [lia|].
  destruct n as [|n]; simpl.
  - ring.
  - rewrite IH by lia. ring.
Qed.

Lemma sumQ_take_S (l : list Q) (n : nat) :
  sumQ (take (S n) l) == sumQ (take n l) + default 0 (l !! n).
Proof.
  revert n. induction l as [|a l IH]; intros n; simpl.
  - destruct n; simpl; ring.
  - destruct n as [|n]; [simpl; ring|].
    change (take (S n) (a :: l)) with (a :: take n l).
    simpl sumQ at 2. simpl lookup. rewrite IH. simpl. ring.
Qed.

Lemma sumQ_replicate_0 n : sumQ (replicate n 0) == 0.
Proof. induction n; simpl; [reflexivity | rewrite IHn; ring]. Qed.

Lemma length_set_bin h i v : length (set_bin h i v) = length h.
Proof. unfold set_bin. destruct (0 <=? i)%Z; [apply length_insert | reflexivity]. Qed.

Lemma sumQ_set_bin h i v :
  (0 <= i < Z.of_nat (length h))%Z -> sumQ (set_bin h i v) == sumQ h - bin h i + v.
Proof.
  intros [H0 H1]. unfold set_bin, bin.
  destruct (0 <=? i)%Z eqn:E; [|apply Z.leb_gt in E; lia].
  apply sumQ_insert. lia.
Qed.

Lemma bin_set_bin_eq h i v :
  (0 <= i < Z.of_nat (length h))%Z -> bin (set_bin h i v) i = v.
Proof.
  intros [H0 H1]. unfold set_bin, bin.
  destruct (0 <=? i)%Z eqn:E; [|apply Z.leb_gt in E; lia].
  rewrite list_lookup_insert_eq by lia. reflexivity.
Qed.

Lemma luminanceQ_range d i :
  Forall is_byte d -> (0 <= luminanceQ d i < 256)%Z.
Proof.
  intros Hb. unfold luminanceQ, Math_round, load.
  pose proof (get_is_byte d i Hb) as [r0 r1].
  pose proof (get_is_byte d (i + 1) Hb) as [g0 g1].
  pose proof (get_is_byte d (i + 2) Hb) as [b0 b1].
  rewrite Zle_Qle in r0, r1, g0, g1, b0, b1.
  set (r := inject_Z (get d i)) in *.
  set (g := inject_Z (get d (i + 1))) in *.
  set (b := inject_Z (get d (i + 2))) in *.
  change (inject_Z 0) with 0 in *. change (inject_Z 255) with 255 in *.
  split.
  - change 0%Z with (Qfloor 0). apply Qfloor_resp_le. lra.
  - assert (H : (Qfloor (0.299 * r + 0.587 * g + 0.114 * b + (1 # 2)) <= Qfloor (255 + (1 # 2)))%Z)
      by (apply Qfloor_resp_le; lra).
    change (Qfloor (255 + (1 # 2))) with 255%Z in H. lia.
Qed.

Lemma blockHistogram_mass data w bx by' endX endY :
  Forall is_byte data ->
  let '(histogram, pixelCount) := blockHistogram data w bx by' endX endY in
  length histogram = 256%nat /\ sumQ histogram == inject_Z pixelCount.
Proof.
  intros Hb. unfold blockHistogram.
  apply (for_range_inv
    (fun acc : list Q * Z => let '(histogram, pixelCount) := acc in
       length histogram = 256%nat /\ sumQ histogram == inject_Z pixelCount)).
  { split; [reflexivity | apply sumQ_replicate_0]. }
  intros y acc _ Hacc. apply for_range_inv; [exact Hacc|].
  clear acc Hacc. intros x [h n] _ [Hl Hs].
  pose proof (luminanceQ_range data ((y * w + x) * 4) Hb) as Hr.
  split.
  - now rewrite length_set_bin.
  - rewrite sumQ_set_bin by lia. rewrite Hs, inject_Z_plus. ring.
Qed.

Lemma clipHistogram_mass histogram clipValue :
  length histogram = 256%nat ->
  let '(clipped, excess) := clipHistogram histogram clipValue in
  length clipped = 256%nat /\ sumQ clipped + excess == sumQ histogram.
Proof.
  intros Hl. unfold clipHistogram.
  apply (for_range_inv
    (fun acc : list Q * Q => let '(clipped, excess) := acc in
       length clipped = 256%nat /\ sumQ clipped + excess == sumQ histogram)).
  { split; [exact Hl | ring]. }
  intros i [h e] Hi [Hl' Hs].
  destruct (Qlt_le_dec clipValue (bin h i)); [|now split].
  split.
  - now rewrite length_set_bin.
  - rewrite sumQ_set_bin by lia. rewrite <- Hs. ring.
Qed.

Lemma redistributeExcess_mass histogram excess :
  length histogram = 256%nat ->
  length (redistributeExcess histogram excess) = 256%nat /\
  sumQ (redistributeExcess histogram excess) == sumQ histogram + excess.
Proof.
  intros Hl. unfold redistributeExcess.
  assert (H : length (for_range 0 256 (fun i h => set_bin h i (bin h i + excess / 256))
                        histogram) = 256%nat /\
              sumQ (for_range 0 256 (fun i h => set_bin h i (bin h i + excess / 256))
                      histogram)
              == sumQ histogram + inject_Z 256 * (excess / 256)).
  { apply (for_range_ind
      (fun i (h : list Q) => length h = 256%nat /\
         sumQ h == sumQ histogram + inject_Z i * (excess / 256))); [lia | |].
    - split; [exact Hl|]. change (inject_Z 0) with 0. ring.
    - intros i h Hi [Hl' Hs]. split.
      + now rewrite length_set_bin.
      + rewrite sumQ_set_bin by lia. rewrite Hs, inject_Z_plus.
        change (inject_Z 1) with 1. ring. }
  destruct H as [H1 H2]. split; [exact H1|].
  rewrite H2. change (inject_Z 256) with 256. field.
Qed.

Lemma buildCdf_last histogram :
  length histogram = 256%nat -> bin (buildCdf histogram) 255 == sumQ histogram.
Proof.
  intros Hl. unfold buildCdf.
  assert (H : let cdf := for_range 1 256
                (fun i cdf => set_bin cdf i (bin cdf (i - 1) + bin histogram i))
                (set_bin (replicate 256 0) 0 (bin histogram 0)) in
              length cdf = 256%nat /\
              bin cdf (256 - 1) == sumQ (take (Z.to_nat 256) histogram)).
  { apply (for_range_ind
      (fun i (cdf : list Q) => length cdf = 256%nat /\
         bin cdf (i - 1) == sumQ (take (Z.to_nat i) histogram))); [lia | |].
    - split; [reflexivity|].
      change (1 - 1)%Z with 0%Z. rewrite bin_set_bin_eq by (simpl; lia).
      destruct histogram; [discriminate|]. simpl. unfold bin. simpl. ring.
    - intros i cdf Hi [Hl' Hs]. split.
      + now rewrite length_set_bin.
      + replace (i + 1 - 1)%Z with i by lia.
        rewrite bin_set_bin_eq by lia. rewrite Hs.
        replace (Z.to_nat (i + 1)) with (S (Z.to_nat i)) by lia.
        rewrite sumQ_take_S. unfold bin.
        destruct (0 <=? i)%Z eqn:E; [reflexivity | apply Z.leb_gt in E; lia]. }
  destruct H as [_ H]. change (256 - 1)%Z with 255%Z in H. rewrite H.
  rewrite firstn_all2; [reflexivity | rewrite Hl; simpl; lia].
Qed.

End HistogramMass.

Lemma blockHistogram_count data w bx by' endX endY :
  snd (blockHistogram data w bx by' endX endY)
  = Z.max 0 (endY - by') * Z.max 0 (endX - bx).
Proof.
  unfold blockHistogram.
  destruct (Z.le_gt_cases by' endY) as [Hy|Hy];
    [|rewrite for_range_empty by lia; simpl; lia].
  replace (Z.max 0 (endY - by')) with (endY - by') by lia.
  apply (for_range_ind
    (fun y (acc : list Q * Z) => snd acc = (y - by') * Z.max 0 (endX - bx)));
    [exact Hy | simpl; lia |].
  intros y acc _ Hacc.
  destruct (Z.le_gt_cases bx endX) as [Hx|Hx];
    [|rewrite for_range_empty by lia; lia].
  replace (Z.max 0 (endX - bx)) with (endX - bx) in * by lia.
  replace ((y + 1 - by') * (endX - bx)) with (snd acc + (endX - bx)) by lia.
  apply (for_range_ind
    (fun x (acc' : list Q * Z) => snd acc' = snd acc + (x - bx)));
    [exact Hx | lia |].
  intros x [h n] _ Hn. simpl in *. lia.
Qed.

(** C4: for every block of the local-contrast enhancer, a rectangle of pixels
    of an image of width*height*4 byte samples: after each of the 256 bins is
    capped at clipValue = 3.0*pixelCount/256 and excess/256 is added to all
    256 bins, the bins sum to pixelCount (the number of pixels of the block)
    in exact rational arithmetic, and the last CDF entry cdf[255] equals
    pixelCount. *)
Theorem clahe_block_conserves_mass img bx by' endX endY histogram cdf pixelCount :
  wf_image img ->
  0 <= bx <= endX -> endX <= width img -> 0 <= by' <= endY -> endY <= height img ->
  blockEqualization (data img) (width img) bx by' endX endY
  = (histogram, cdf, pixelCount) ->
  (sumQ histogram == inject_Z pixelCount)%Q /\
  (bin cdf 255 == inject_Z pixelCount)%Q /\
  pixelCount = (endY - by') * (endX - bx).
Proof.
  intros (_ & _ & _ & Hb) Hx Hx' Hy Hy'. unfold blockEqualization.
  pose proof (blockHistogram_mass (data img) (width img) bx by' endX endY Hb) as H0.
  pose proof (blockHistogram_count (data img) (width img) bx by' endX endY) as Hc.
  destruct (blockHistogram (data img) (width img) bx by' endX endY) as [h0 n].
  destruct H0 as [L0 S0].
  pose proof (clipHistogram_mass h0 (clipLimit * inject_Z n / 256) L0) as H1.
  destruct (clipHistogram h0 (clipLimit * inject_Z n / 256)) as [h1 e].
  destruct H1 as [L1 S1].
  destruct (redistributeExcess_mass h1 e L1) as [L2 S2].
  intros E. injection E as <- <- <-.
  assert (Hsum : (sumQ (redistributeExcess h1 e) == inject_Z n)%Q)
    by (rewrite S2, S1; exact S0).
  repeat split; [exact Hsum | | simpl in Hc; rewrite !Z.max_r in Hc by lia; exact Hc].
  rewrite buildCdf_last by exact L2. exact Hsum.
Qed.

Lemma clahe_block_conserves_mass_witness :
  (sumQ (fst (fst (blockEqualization (data twoPixelImage) 2 0 0 2 1))) == 2)%Q.
Proof.
  refine (proj1 (clahe_block_conserves_mass twoPixelImage 0 0 2 1
                   (fst (fst (blockEqualization (data twoPixelImage) 2 0 0 2 1)))
                   (snd (fst (blockEqualization (data twoPixelImage) 2 0 0 2 1))) 2
                   _ _ _ _ _ _)).
  - unfold wf_image, twoPixelImage, twoPixels, len; simpl. repeat split; try lia.
    repeat constructor; unfold is_byte; lia.
  - lia.
  - simpl; lia.
  - lia.
  - simpl; lia.
  - vm_compute. reflexivity.
Defined.

(** ** The Gaussian kernel *)

Section Kernel.
Import JsR.
Local Open Scope R_scope.

Lemma sumR_cons (a : R) (k : list R) : sumR (a :: k) = a + sumR k.
Proof. reflexivity. Qed.

Lemma sumR_take_insert (k : list R) (i : nat) (w : R) :
  (i < length k)%nat -> sumR (take (S i) (<[i := w]> k)) = sumR (take i k) + w.
Proof.
  revert i. induction k as [|a k IH]; intros i Hi; [simpl in Hi; lia|].
  destruct i as [|i].
  - simpl. destruct k; simpl; ring.
  - change (<[S i := w]> (a :: k)) with (a :: <[i := w]> k).
    change (take (S (S i)) (a :: <[i := w]> k)) with (a :: take (S i) (<[i := w]> k)).
    change (take (S i) (a :: k)) with (a :: take i k).
    rewrite !sumR_cons, IH by (simpl in Hi; lia). ring.
Qed.

Lemma sumR_fmap_div (k : list R) (s : R) :
  sumR ((fun v => v / s) <$> k) = sumR k / s.
Proof.
  induction k as [|a k IH].
  - simpl. unfold Rdiv. ring.
  - rewrite fmap_cons, !sumR_cons, IH. unfold Rdiv. ring.
Qed.

Lemma sumR_pos (k : list R) : k <> [] -> Forall (fun w => 0 < w) k -> 0 < sumR k.
Proof.
  intros Hne Hk. induction Hk as [|a k Ha Hk IH]; [congruence|].
  rewrite sumR_cons.
  destruct k as [|b k]; [simpl; lra|].
  assert (0 < sumR (b :: k)) by (apply IH; discriminate). lra.
Qed.

Lemma rawWeight_pos radius i : 0 < rawWeight radius i.
Proof. unfold rawWeight, Math_exp. apply exp_pos. Qed.

Lemma kernel_size_ge_3 radius : (3 <= kernel_size radius)%Z.
Proof. unfold kernel_size. lia. Qed.

Lemma kernel_size_odd radius : Z.odd (kernel_size radius) = true.
Proof.
  unfold kernel_size.
  assert (H : Z.odd (Z.lor (ToInt32 (Math_ceil (radius * 6))) 1) = true).
  { rewrite <- Z.bit0_odd, Z.lor_spec. apply orb_true_r. }
  destruct (Z.max_spec 3 (Z.lor (ToInt32 (Math_ceil (radius * 6))) 1)) as [[_ ->]|[_ ->]];
    [exact H | reflexivity].
Qed.

Lemma kernel_size_center radius :
  (kernel_size radius = 2 * (kernel_size radius / 2) + 1)%Z.
Proof.
  pose proof (kernel_size_odd radius) as H.
  rewrite Z.odd_spec in H. destruct H as [q Hq]. rewrite Hq at 1.
  f_equal. f_equal. rewrite Hq. rewrite Z.add_comm, Z.mul_comm, Z.div_add by lia.
  reflexivity.
Qed.

(** The first loop: the weights and their sum. *)
Lemma kernel_first_loop radius :
  let size := kernel_size radius in
  let '(kernel, sum) :=
    for_range 0 size (fun i '(kernel, sum) =>
      let x := IZR (i - size / 2) in
      let w := Math_exp (- (x * x) / (2 * (radius / 3) * (radius / 3))) in
      (<[Z.to_nat i := w]> kernel, sum + w)) (replicate (Z.to_nat size) 0, 0) in
  length kernel = Z.to_nat size /\
  (forall j : nat, (j < Z.to_nat size)%nat ->
     kernel !! j = Some (rawWeight radius (Z.of_nat j))) /\
  sum = sumR kernel.
Proof.
  intros size.
  pose proof (kernel_size_ge_3 radius) as Hsz. fold size in Hsz.
  match goal with |- context [for_range 0 size ?b ?s] =>
    pose proof (for_range_ind
      (fun i (acc : list R * R) => let '(kernel, sum) := acc in
         length kernel = Z.to_nat size /\
         (forall j : nat, (Z.of_nat j < i)%Z ->
            kernel !! j = Some (rawWeight radius (Z.of_nat j))) /\
         sum = sumR (take (Z.to_nat i) kernel)) 0%Z size b s) as H
  end.
  match type of H with ?A -> ?B -> ?C -> ?D =>
    assert (HD : D); [apply H; clear H|] end.
  - lia.
  - split; [apply length_replicate|]. split; [intros j Hj; lia | reflexivity].
  - intros i [k s] Hi (Hl & Hw & Hs). split; [|split].
    + now rewrite length_insert.
    + intros j Hj. destruct (Nat.eq_dec j (Z.to_nat i)) as [->|Hne].
      * rewrite list_lookup_insert_eq by lia. rewrite Z2Nat.id by lia. reflexivity.
      * rewrite list_lookup_insert_ne by lia. apply Hw. lia.
    + replace (Z.to_nat (i + 1)) with (S (Z.to_nat i)) by lia.
      rewrite sumR_take_insert by lia. now rewrite Hs.
  - destruct (for_range 0 size _ _) as [k s]. destruct HD as (Hl & Hw & Hs).
    split; [exact Hl|]. split.
    + intros j Hj. apply Hw. lia.
    + rewrite Hs. rewrite firstn_all2; [reflexivity | lia].
Qed.

(** The second loop divides every weight by the sum. *)
Lemma kernel_normalize_loop (kernel : list R) (sum : R) (size : Z) :
  length kernel = Z.to_nat size -> (0 <= size)%Z ->
  for_range 0 size (fun i kernel =>
    <[Z.to_nat i := kernel_at kernel i / sum]> kernel) kernel
  = (fun v => v / sum) <$> kernel.
Proof.
  intros Hl Hsz.
  match goal with |- for_range 0 size ?b ?s = _ =>
    pose proof (for_range_ind
      (fun i (k : list R) =>
         forall j : nat,
           k !! j = if (Z.of_nat j <? i)%Z
                    then (fun v => v / sum) <$> kernel !! j else kernel !! j)
      0%Z size b s Hsz) as H
  end.
  apply list_eq. intros j. rewrite list_lookup_fmap.
  rewrite H.
  - destruct (Z.of_nat j <? size)%Z eqn:E; [reflexivity|].
    apply Z.ltb_ge in E. rewrite lookup_ge_None_2 by lia. reflexivity.
  - intros j'. destruct (Z.of_nat j' <? 0)%Z eqn:E; [apply Z.ltb_lt in E; lia|reflexivity].
  - intros i k Hi Hk j'.
    destruct (Nat.eq_dec j' (Z.to_nat i)) as [->|Hne].
    + assert (Hlen : (Z.to_nat i < length k)%nat).
      { apply lookup_lt_is_Some. rewrite Hk.
        destruct (Z.of_nat (Z.to_nat i) <? i)%Z;
          [apply fmap_is_Some|]; apply lookup_lt_is_Some; lia. }
      rewrite list_lookup_insert_eq by exact Hlen.
      replace (Z.of_nat (Z.to_nat i) <? i + 1)%Z with true by (symmetry; apply Z.ltb_lt; lia).
      unfold kernel_at. destruct (0 <=? i)%Z eqn:E0; [|apply Z.leb_gt in E0; lia].
      rewrite Hk. replace (Z.of_nat (Z.to_nat i) <? i)%Z with false
        by (symmetry; apply Z.ltb_ge; lia).
      destruct (kernel !! Z.to_nat i) as [v|] eqn:Ev; [reflexivity|].
      apply lookup_ge_None_1 in Ev. lia.
    + rewrite list_lookup_insert_ne by lia. rewrite Hk.
      destruct (Z.ltb_spec (Z.of_nat j') i), (Z.ltb_spec (Z.of_nat j') (i + 1));
        try reflexivity; lia.
Qed.

(** What the generator returns: the raw weights, each divided by their sum. *)
Lemma generateGaussianKernel_spec radius :
  exists raw : list R,
    length raw = Z.to_nat (kernel_size radius) /\
    (forall j : nat, (j < Z.to_nat (kernel_size radius))%nat ->
       raw !! j = Some (rawWeight radius (Z.of_nat j))) /\
    generateGaussianKernel radius = (fun v => v / sumR raw) <$> raw.
Proof.
  unfold generateGaussianKernel. cbv zeta.
  pose proof (kernel_first_loop radius) as H. cbv zeta in H.
  destruct (for_range 0 (kernel_size radius) _ _) as [k s].
  destruct H as (Hl & Hw & Hs). exists k. repeat split; auto.
  subst s. apply kernel_normalize_loop; [exact Hl|].
  pose proof (kernel_size_ge_3 radius). lia.
Qed.

End Kernel.

Section KernelClaims.
Import JsR.
Local Open Scope R_scope.

Lemma ToInt32_small n : (0 <= n < 2 ^ 31)%Z -> ToInt32 n = n.
Proof. intros H. unfold ToInt32. rewrite Z.mod_small; lia. Qed.

Lemma lor_1_next_odd n : (0 <= n)%Z -> Z.lor n 1 = next_odd n.
Proof.
  intros H. destruct n as [|p|p]; [reflexivity | | lia].
  destruct p; reflexivity.
Qed.

Lemma kernel_size_small radius :
  0 < radius -> radius * 6 <= 2147483647 ->
  kernel_size radius = Z.max 3 (next_odd (Math_ceil (radius * 6))).
Proof.
  intros Hr Hb. unfold kernel_size, Math_ceil.
  pose proof (Zceil_bound (radius * 6)) as [Hc1 Hc2].
  assert (0 < Zceil (radius * 6))%Z by (apply lt_IZR; lra).
  assert (Zceil (radius * 6) < 2147483647 + 1)%Z.
  { apply lt_IZR. rewrite plus_IZR. lra. }
  rewrite ToInt32_small by lia. rewrite lor_1_next_odd by lia. reflexivity.
Qed.

Lemma rawWeight_mirror radius i :
  rawWeight radius (kernel_size radius - 1 - i) = rawWeight radius i.
Proof.
  unfold rawWeight. cbv zeta. f_equal.
  pose proof (kernel_size_center radius) as Hc.
  replace (kernel_size radius - 1 - i - kernel_size radius / 2)%Z
    with (- (i - kernel_size radius / 2))%Z by lia.
  rewrite opp_IZR. f_equal. ring.
Qed.

Lemma kernel_at_lookup (k : list R) (j : nat) v :
  k !! j = Some v -> kernel_at k (Z.of_nat j) = v.
Proof.
  intros H. unfold kernel_at.
  destruct (0 <=? Z.of_nat j)%Z eqn:E; [|apply Z.leb_gt in E; lia].
  now rewrite Nat2Z.id, H.
Qed.

(** The kernel for every radius: odd length, non-negative weights that sum
    to 1, symmetric. *)
Lemma kernel_shape radius :
  let kernel := generateGaussianKernel radius in
  let size := Z.of_nat (length kernel) in
  size = kernel_size radius /\
  Forall (fun w => 0 <= w) kernel /\
  sumR kernel = 1 /\
  (forall i, (0 <= i < size)%Z -> kernel_at kernel i = kernel_at kernel (size - 1 - i)).
Proof.
  cbv zeta.
  destruct (generateGaussianKernel_spec radius) as (raw & Hl & Hw & ->).
  pose proof (kernel_size_ge_3 radius) as Hsz.
  assert (Hpos : Forall (fun w => 0 < w) raw).
  { apply Forall_lookup_2. intros j w Hj.
    assert (j < Z.to_nat (kernel_size radius))%nat
      by (rewrite <- Hl; apply lookup_lt_is_Some; eauto).
    rewrite Hw in Hj by assumption. injection Hj as <-. apply rawWeight_pos. }
  assert (HS : 0 < sumR raw).
  { apply sumR_pos; [|exact Hpos]. intros ->. simpl in Hl. lia. }
  rewrite length_fmap. split; [lia|]. split; [|split].
  - apply Forall_fmap. eapply Forall_impl; [exact Hpos|].
    intros w Hw0. simpl. apply Rlt_le. now apply Rdiv_lt_0_compat.
  - rewrite sumR_fmap_div. field. lra.
  - intros i Hi.
    assert (E : forall j, (0 <= j < Z.of_nat (length raw))%Z ->
              kernel_at ((fun v => v / sumR raw) <$> raw) j
              = rawWeight radius j / sumR raw).
    { intros j Hj. rewrite <- (Z2Nat.id j) by lia.
      apply kernel_at_lookup. rewrite list_lookup_fmap, Hw by lia. reflexivity. }
    rewrite !E by lia. f_equal.
    replace (Z.of_nat (length raw)) with (kernel_size radius) by lia.
    symmetry. apply rawWeight_mirror.
Qed.

(** C2, as amended: for every radius of at least 1/1000 whose product
    radius*6 is at most 2^31 - 1 and is a whole number or at least 1e-6 above
    one, the kernel has odd length max(3, next-odd(ceil(radius*6))),
    non-negative weights, weights that sum to 1 within 1e-9, and
    weight[i] = weight[size-1-i] for every index i.  (Below the first bound
    2*sigma*sigma can underflow to 0 in doubles, and without the last one the
    rounded product can have another ceiling.) *)
Theorem gaussian_kernel_properties radius :
  1 / 1000 <= radius -> ceils_as_computed (radius * 6) ->
  let kernel := generateGaussianKernel radius in
  let size := Z.of_nat (length kernel) in
  size = Z.max 3 (next_odd (Math_ceil (radius * 6))) /\
  Z.odd size = true /\
  Forall (fun w => 0 <= w) kernel /\
  Rabs (sumR kernel - 1) <= 1 / 1000000000 /\
  (forall i, (0 <= i < size)%Z -> kernel_at kernel i = kernel_at kernel (size - 1 - i)).
Proof.
  intros Hr [[_ Hb] _]. cbv zeta.
  destruct (kernel_shape radius) as (Hsz & Hnn & Hsum & Hsym).
  split; [rewrite Hsz; apply kernel_size_small; [lra | exact Hb]|].
  split; [rewrite Hsz; apply kernel_size_odd|].
  split; [exact Hnn|]. split; [|exact Hsym].
  rewrite Hsum. replace (1 - 1) with 0 by ring. rewrite Rabs_R0. lra.
Qed.

Lemma gaussian_kernel_properties_witness :
  Z.of_nat (length (generateGaussianKernel (7 / 4)))
  = Z.max 3 (next_odd (Math_ceil (7 / 4 * 6))) /\
  Rabs (sumR (generateGaussianKernel (7 / 4)) - 1) <= 1 / 1000000000.
Proof.
  assert (H0 : 1 / 1000 <= 7 / 4) by lra.
  assert (H1 : ceils_as_computed (7 / 4 * 6)).
  { split; [lra|]. right.
    assert (E : Zfloor (7 / 4 * 6) = 10%Z) by (apply Zfloor_eq; lra).
    rewrite E. lra. }
  pose proof (gaussian_kernel_properties (7 / 4) H0 H1) as H. cbv zeta in H.
  split; apply H.
Defined.

(** C2 as stated fails for a large radius: [| 1] wraps ceil(radius*6) to 32
    bits, and the kernel for radius 400000000 has 3 weights, not 2400000001. *)
Lemma gaussian_kernel_length_wraps :
  0 < 400000000 /\
  Z.of_nat (length (generateGaussianKernel 400000000)) = 3%Z /\
  Z.max 3 (next_odd (Math_ceil (400000000 * 6))) = 2400000001%Z.
Proof.
  assert (Hc : Math_ceil (400000000 * 6) = 2400000000%Z).
  { unfold Math_ceil. apply Zceil_eq. lra. }
  split; [lra|]. split.
  - destruct (kernel_shape 400000000) as (-> & _).
    unfold kernel_size. rewrite Hc. reflexivity.
  - rewrite Hc. reflexivity.
Qed.

End KernelClaims.

(** ** Bicubic resampling *)

Section Bicubic.
Import JsQ.
Local Open Scope Q_scope.

Lemma Qfloor_unique (q : Q) (z : Z) :
  inject_Z z <= q -> q < inject_Z z + 1 -> Qfloor q = z.
Proof.
  intros H1 H2.
  pose proof (Qfloor_le q) as F1. pose proof (Qlt_floor q) as F2.
  rewrite inject_Z_plus in F2. change (inject_Z 1) with 1 in F2.
  assert (Qfloor q < z + 1)%Z.
  { rewrite Zlt_Qlt, inject_Z_plus. change (inject_Z 1) with 1. lra. }
  assert (z < Qfloor q + 1)%Z.
  { rewrite Zlt_Qlt, inject_Z_plus. change (inject_Z 1) with 1. lra. }
  lia.
Qed.

(** [Math.round] returns the nearest integer, a tie going up. *)
Lemma Math_round_spec (q : Q) :
  inject_Z (Math_round q) - (1 # 2) <= q /\ q < inject_Z (Math_round q) + (1 # 2).
Proof.
  unfold Math_round.
  pose proof (Qfloor_le (q + (1 # 2))) as F1. pose proof (Qlt_floor (q + (1 # 2))) as F2.
  rewrite inject_Z_plus in F2. change (inject_Z 1) with 1 in F2. split; lra.
Qed.

Lemma Math_round_unit (z : Z) : Math_round (inject_Z z * 1) = z.
Proof. unfold Math_round. apply Qfloor_unique; lra. Qed.

Lemma Math_abs_proper t t' : t == t' -> Math_abs t == Math_abs t'.
Proof. intros H. unfold Math_abs. destruct (Qlt_le_dec t 0), (Qlt_le_dec t' 0); lra. Qed.

Lemma cubic_proper t t' : t == t' -> cubic t == cubic t'.
Proof.
  intros H. apply Math_abs_proper in H. unfold cubic. cbv zeta.
  destruct (Qlt_le_dec 1 (Math_abs t)), (Qlt_le_dec 1 (Math_abs t'));
    try (exfalso; lra);
    [destruct (Qlt_le_dec 2 (Math_abs t)), (Qlt_le_dec 2 (Math_abs t'));
       try (exfalso; lra); [reflexivity|] |];
    rewrite H; reflexivity.
Qed.

(** At a whole coordinate the sixteen weights are 1 at the pixel itself and 0
    elsewhere. *)
Lemma cubic_whole d :
  d == 0 ->
  cubic (d - inject_Z (-1)) == 0 /\ cubic (d - inject_Z 0) == 1 /\
  cubic (d - inject_Z 1) == 0 /\ cubic (d - inject_Z 2) == 0.
Proof.
  intros H.
  assert (E : forall n, cubic (d - inject_Z n) == cubic (- inject_Z n))
    by (intros n; apply cubic_proper; lra).
  rewrite !E. repeat split; vm_compute; reflexivity.
Qed.

Lemma getValue_inside d w h c x y :
  (0 <= x < w)%Z -> (0 <= y < h)%Z ->
  getValue d w h c x y = load d ((y * w + x) * 4 + c).
Proof.
  intros Hx Hy. unfold getValue.
  replace (Z.min (w - 1) (Z.max 0 x)) with x by lia.
  replace (Z.min (h - 1) (Z.max 0 y)) with y by lia. reflexivity.
Qed.

Lemma bicubicInterpolate_whole d w h x y c :
  (0 <= x < w)%Z -> (0 <= y < h)%Z ->
  bicubicInterpolate d w h (inject_Z x / 1) (inject_Z y / 1) c
  == load d ((y * w + x) * 4 + c).
Proof.
  intros Hx Hy. unfold bicubicInterpolate. cbv zeta.
  assert (Fx : Math_floor (inject_Z x / 1) = x)
    by (unfold Math_floor; apply Qfloor_unique; field_simplify; lra).
  assert (Fy : Math_floor (inject_Z y / 1) = y)
    by (unfold Math_floor; apply Qfloor_unique; field_simplify; lra).
  rewrite Fx, Fy.
  destruct (cubic_whole (inject_Z x / 1 - inject_Z x)) as (X1 & X2 & X3 & X4);
    [field|].
  destruct (cubic_whole (inject_Z y / 1 - inject_Z y)) as (Y1 & Y2 & Y3 & Y4);
    [field|].
  unfold for_range. change (range (-1) 3) with [-1; 0; 1; 2]%Z.
  cbn [fold_left].
  rewrite X1, X2, X3, X4, Y1, Y2, Y3, Y4.
  replace (x + 0)%Z with x by lia. replace (y + 0)%Z with y by lia.
  rewrite (getValue_inside d w h c x y) by lia. ring.
Qed.

End Bicubic.

Lemma lookup_get d i : 0 <= i < len d -> d !! Z.to_nat i = Some (get d i).
Proof.
  intros [H0 H1]. unfold get, len in *.
  destruct (0 <=? i) eqn:E; [|apply Z.leb_gt in E; lia].
  destruct (d !! Z.to_nat i) as [v|] eqn:Ev; [reflexivity|].
  apply lookup_ge_None_1 in Ev. lia.
Qed.

Lemma agree_upto_all src d : agree_upto src (len src) d -> d = src.
Proof.
  intros [Hl Ha]. apply list_eq. intros j.
  destruct (Nat.lt_ge_cases j (length src)) as [Hj|Hj].
  - apply Ha. unfold len. lia.
  - rewrite !lookup_ge_None_2 by lia. reflexivity.
Qed.

Lemma agree_upto_put src k d v :
  0 <= k < len src -> v = get src k ->
  agree_upto src k d -> agree_upto src (k + 1) (put d k v).
Proof.
  intros Hk -> [Hl Ha]. split; [now rewrite length_put|].
  intros j Hj. destruct (Z.eq_dec (Z.of_nat j) k) as [E|E].
  - subst k. rewrite <- (Nat2Z.id j) at 1.
    rewrite lookup_put_eq by (unfold len in *; lia).
    rewrite <- (Nat2Z.id j) at 2. symmetry. now apply lookup_get.
  - rewrite lookup_put_ne by exact E. apply Ha. lia.
Qed.

Section BicubicClaims.
Import JsQ.
Local Open Scope Q_scope.

Lemma clamp_byte (q : Q) (v : Z) :
  is_byte v -> q == inject_Z v -> ToUint8Clamp (Math_min 255 (Math_max 0 q)) = v.
Proof.
  intros Hv Hq. apply ToUint8ClampQ_inject; [exact Hv|].
  destruct Hv as [H0 H1]. rewrite Zle_Qle in H0, H1.
  change (inject_Z 0) with 0 in H0. change (inject_Z 255) with 255 in H1.
  unfold Math_min, Math_max.
  destruct (Qlt_le_dec 0 q); destruct (Qlt_le_dec _ 255); lra.
Qed.

Lemma pixel_index_bound w h x y c :
  (0 <= x < w)%Z -> (0 <= y < h)%Z -> (0 <= c < 4)%Z ->
  (0 <= (y * w + x) * 4 + c < w * h * 4)%Z.
Proof. intros Hx Hy Hc. nia. Qed.

Lemma newImageData_Some d sw sh out :
  newImageData d sw sh = Some out <->
  ((0 < sw)%Z /\ (0 < sh)%Z /\ len d = (sw * sh * 4)%Z) /\ out = mkImageData sw sh d.
Proof.
  unfold newImageData.
  destruct (Z.ltb_spec 0 sw), (Z.ltb_spec 0 sh), (Z.eqb_spec (len d) (sw * sh * 4));
    cbn [andb]; split.
  all: try (intros E; discriminate E).
  all: try (intros [(? & ? & ?) _]; lia).
  - intros E. injection E as <-. auto.
  - intros [_ ->]. reflexivity.
Qed.

(** The loops of [bicubicUpscale] fill a buffer of dstWidth*dstHeight*4
    samples. *)
Lemma bicubicUpscale_fill_length (body : Z -> Z -> Z -> Q) (dw dh : Z) :
  length (for_range 0 dh (fun y dstData =>
            for_range 0 dw (fun x dstData =>
              for_range 0 4 (fun c dstData =>
                store dstData ((y * dw + x) * 4 + c) (body x y c)) dstData) dstData)
            (replicate (Z.to_nat (dw * dh * 4)) 0%Z))
  = Z.to_nat (dw * dh * 4).
Proof.
  apply (for_range_inv (fun d : buffer => length d = _)); [apply length_replicate|].
  intros y d _ Hd. apply for_range_inv; [exact Hd|]. clear d Hd. intros x d _ Hd.
  apply for_range_inv; [exact Hd|]. clear d Hd. intros c d _ Hd.
  unfold store. now rewrite length_put.
Qed.

Lemma bicubicUpscale_Some img scaleFactor out :
  bicubicUpscale img scaleFactor = Some out ->
  width out = Math_round (inject_Z (width img) * scaleFactor) /\
  height out = Math_round (inject_Z (height img) * scaleFactor) /\
  (0 < width out)%Z /\ (0 < height out)%Z /\
  len (data out) = (width out * height out * 4)%Z.
Proof.
  unfold bicubicUpscale. cbv zeta. intros E.
  apply newImageData_Some in E. destruct E as [(Hw & Hh & Hl) ->].
  cbn [width height data]. auto.
Qed.

Lemma bicubicUpscale_returns img scaleFactor :
  (exists out, bicubicUpscale img scaleFactor = Some out) <->
  (0 < Math_round (inject_Z (width img) * scaleFactor))%Z /\
  (0 < Math_round (inject_Z (height img) * scaleFactor))%Z.
Proof.
  split.
  - intros [out E]. destruct (bicubicUpscale_Some _ _ _ E) as (Ew & Eh & Hw & Hh & _).
    rewrite <- Ew, <- Eh. auto.
  - intros [Hw Hh]. unfold bicubicUpscale. cbv zeta.
    eexists. apply newImageData_Some. split; [|reflexivity].
    split; [exact Hw|]. split; [exact Hh|].
    unfold len.
    rewrite (bicubicUpscale_fill_length
               (fun x y c => Math_min 255 (Math_max 0
                  (bicubicInterpolate (data img) (width img) (height img)
                     (inject_Z x / scaleFactor) (inject_Z y / scaleFactor) c)))).
    rewrite Z2Nat.id; [reflexivity | nia].
Qed.

Lemma bicubicUpscale_unit img :
  wf_image img -> (0 < width img)%Z -> (0 < height img)%Z ->
  bicubicUpscale img 1 = Some img.
Proof.
  intros (Hw & Hh & Hlen & Hb) Pw Ph. unfold bicubicUpscale. cbv zeta.
  rewrite !Math_round_unit.
  set (w := width img) in *. set (h := height img) in *. set (src := data img) in *.
  match goal with |- newImageData ?d _ _ = _ => assert (Hd : d = src) end.
  { apply agree_upto_all. rewrite Hlen.
    replace (w * h * 4)%Z with (h * w * 4)%Z by ring.
    apply (for_range_ind (fun y d => agree_upto src (y * w * 4) d)); [exact Hh | |].
    { split; [|intros j Hj; lia].
      rewrite length_replicate. unfold len in Hlen. lia. }
    intros y d Hy Hd.
    replace ((y + 1) * w * 4)%Z with ((y * w + w) * 4)%Z by ring.
    apply (for_range_ind (fun x d => agree_upto src ((y * w + x) * 4) d)); [exact Hw | |].
    { replace ((y * w + 0) * 4)%Z with (y * w * 4)%Z by ring. exact Hd. }
    clear d Hd. intros x d Hx Hd.
    replace ((y * w + (x + 1)) * 4)%Z with ((y * w + x) * 4 + 4)%Z by ring.
    apply (for_range_ind (fun c d => agree_upto src ((y * w + x) * 4 + c) d)); [lia | |].
    { now rewrite Z.add_0_r. }
    clear d Hd. intros c d Hc Hd.
    rewrite Z.add_assoc. unfold store.
    pose proof (pixel_index_bound w h x y c Hx Hy Hc) as Hi.
    apply agree_upto_put; [lia | | exact Hd].
    apply clamp_byte; [now apply get_is_byte|].
    now apply bicubicInterpolate_whole. }
  rewrite Hd. apply newImageData_Some. split; [auto|].
  subst w h src. destruct img; reflexivity.
Qed.

(** C5, as amended: bicubic resampling with scaleFactor = 1 reproduces a
    source image of at least 1 by 1 pixels exactly, every channel of every
    pixel.  For a scaleFactor > 0 whose products with the source width and
    height round as computed (each at most 16384, and a tie or at least 1e-6
    away from one), the function returns an image exactly when
    round(srcWidth*scaleFactor) and round(srcHeight*scaleFactor) are both at
    least 1, and the image is then that many pixels wide and high, with four
    samples each. *)
Theorem bicubic_unit_scale_and_dimensions :
  (forall img, wf_image img -> (0 < width img)%Z -> (0 < height img)%Z ->
     bicubicUpscale img 1 = Some img) /\
  (forall img scaleFactor, 0 < scaleFactor ->
     rounds_as_computed (inject_Z (width img) * scaleFactor) ->
     rounds_as_computed (inject_Z (height img) * scaleFactor) ->
     let dstWidth := Math_round (inject_Z (width img) * scaleFactor) in
     let dstHeight := Math_round (inject_Z (height img) * scaleFactor) in
     ((exists out, bicubicUpscale img scaleFactor = Some out)
      <-> (0 < dstWidth)%Z /\ (0 < dstHeight)%Z) /\
     (forall out, bicubicUpscale img scaleFactor = Some out ->
        width out = dstWidth /\ height out = dstHeight /\
        len (data out) = (dstWidth * dstHeight * 4)%Z)).
Proof.
  split; [exact bicubicUpscale_unit|].
  intros img s _ _ _. cbv zeta. split; [apply bicubicUpscale_returns|].
  intros out E. destruct (bicubicUpscale_Some _ _ _ E) as (Ew & Eh & _ & _ & Hl).
  rewrite <- Ew, <- Eh. auto.
Qed.

Lemma bicubic_unit_scale_and_dimensions_witness :
  bicubicUpscale twoPixelImage 1 = Some twoPixelImage /\
  exists out, bicubicUpscale twoPixelImage (3 # 2) = Some out.
Proof.
  split.
  - apply (proj1 bicubic_unit_scale_and_dimensions).
    + unfold wf_image, twoPixelImage, twoPixels, len; simpl. repeat split; try lia.
      repeat constructor; unfold is_byte; lia.
    + reflexivity.
    + reflexivity.
  - assert (Rw : rounds_as_computed (inject_Z (width twoPixelImage) * (3 # 2))).
    { split; [split; discriminate|]. right. split; discriminate. }
    assert (Rh : rounds_as_computed (inject_Z (height twoPixelImage) * (3 # 2))).
    { split; [split; discriminate|]. left. reflexivity. }
    apply (proj1 (proj2 bicubic_unit_scale_and_dimensions twoPixelImage (3 # 2)
                    eq_refl Rw Rh)).
    split; reflexivity.
Defined.

(** C5 as stated fails for a small scale factor: at scaleFactor = 1/128 a
    2 by 1 image rounds to 0 by 0 pixels, the constructor of the result
    throws, and there is no output. *)
Lemma bicubic_small_scale_throws :
  0 < (1 # 128) /\
  Math_round (inject_Z (width twoPixelImage) * (1 # 128)) = 0%Z /\
  Math_round (inject_Z (height twoPixelImage) * (1 # 128)) = 0%Z /\
  bicubicUpscale twoPixelImage (1 # 128) = None.
Proof. repeat split. Qed.

End BicubicClaims.

(** ** In-place loops over the pixels *)

(** A loop that visits the pixels in order, whose iteration on pixel [p]
    writes only the colour samples of [p] and reads only samples not yet
    written, leaves in every pixel what its iteration computes from the
    original buffer. *)
Lemma pixel_loop (d : buffer) (body : Z -> buffer -> buffer) (G : Z -> Z -> Z) :
  len d mod 4 = 0 ->
  (forall p cur, 0 <= p -> 4 * p + 4 <= len d -> length cur = length d ->
     (forall j, 4 * p <= j -> get cur j = get d j) ->
     length (body (4 * p) cur) = length d /\
     (forall j, j < 4 * p \/ 4 * p + 3 <= j -> get (body (4 * p) cur) j = get cur j) /\
     (forall c, 0 <= c < 3 -> get (body (4 * p) cur) (4 * p + c) = G p c)) ->
  let out := for_step 0 (len d) 4 body d in
  length out = length d /\
  (forall p c, 0 <= p -> 4 * p + 4 <= len d -> 0 <= c < 3 ->
     get out (4 * p + c) = G p c) /\
  (forall p, get out (4 * p + 3) = get d (4 * p + 3)).
Proof.
  intros Hmod Hbody out. subst out. unfold for_step.
  set (n := (len d - 0 + 4 - 1) / 4).
  assert (Hn : len d = 4 * n).
  { subst n. pose proof (Z.div_mod (len d) 4 ltac:(lia)) as Hdm.
    rewrite Hmod in Hdm.
    replace (len d - 0 + 4 - 1) with (3 + len d `div` 4 * 4) by lia.
    rewrite Z.div_add by lia. change (3 `div` 4) with 0. lia. }
  assert (Hn0 : 0 <= n) by (unfold len in Hn; lia).
  clearbody n.
  assert (H : let cur := for_range 0 n (fun k => body (0 + 4 * k)) d in
              length cur = length d /\
              (forall j, 4 * n <= j -> get cur j = get d j) /\
              (forall p c, 0 <= p < n -> 0 <= c < 3 -> get cur (4 * p + c) = G p c) /\
              (forall p, get cur (4 * p + 3) = get d (4 * p + 3))).
  { apply (for_range_ind (fun k cur =>
      length cur = length d /\
      (forall j, 4 * k <= j -> get cur j = get d j) /\
      (forall p c, 0 <= p < k -> 0 <= c < 3 -> get cur (4 * p + c) = G p c) /\
      (forall p, get cur (4 * p + 3) = get d (4 * p + 3)))); [exact Hn0 | |].
    - repeat split; auto. intros p c Hp. lia.
    - intros k cur Hk (Hl & Hrest & Hdone & Halpha). simpl.
      destruct (Hbody k cur) as (Bl & Bf & Bv); [lia | lia | exact Hl | exact Hrest |].
      repeat split.
      + exact Bl.
      + intros j Hj. rewrite Bf by lia. apply Hrest. lia.
      + intros p c Hp Hc. destruct (Z.eq_dec p k) as [->|Hne]; [now apply Bv|].
        rewrite Bf by lia. apply Hdone; lia.
      + intros p. rewrite Bf by lia. apply Halpha. }
  destruct H as (Hl & _ & Hdone & Halpha). repeat split; auto.
  intros p c Hp Hp' Hc. apply Hdone; lia.
Qed.

(** ** Saturation: the unit factor and achromatic pixels *)

Section SaturationUnit.
Import JsQ.
Local Open Scope Q_scope.

Lemma Math_max3 r g b :
  let mx := Math_max (Math_max r g) b in
  (mx = r \/ mx = g \/ mx = b) /\ r <= mx /\ g <= mx /\ b <= mx.
Proof.
  unfold Math_max.
  destruct (Qlt_le_dec r g); destruct (Qlt_le_dec _ b); simpl; repeat split; auto; lra.
Qed.

Lemma Math_min3 r g b :
  let mn := Math_min (Math_min r g) b in
  (mn = r \/ mn = g \/ mn = b) /\ mn <= r /\ mn <= g /\ mn <= b.
Proof.
  unfold Math_min.
  destruct (Qlt_le_dec g r); destruct (Qlt_le_dec b _); simpl; repeat split; auto; lra.
Qed.

(** The sector of a hue and the weight of the middle channel. *)
Lemma hue_sector (H6 : Q) (k : Z) :
  (0 <= k <= 5)%Z -> inject_Z k <= H6 -> H6 < inject_Z k + 1 ->
  Math_floor H6 = k /\
  1 - Math_abs (rem H6 2 - 1)
  == (if Z.even k then H6 - inject_Z k else inject_Z k + 1 - H6).
Proof.
  intros Hk H1 H2. split; [now apply Qfloor_unique|].
  unfold rem, trunc, Qdiv. change (/ 2) with (1 # 2).
  assert (Hcases : (k = 0 \/ k = 1 \/ k = 2 \/ k = 3 \/ k = 4 \/ k = 5)%Z) by lia.
  assert (Hnn : 0 <= H6 * (1 # 2)).
  { assert (0 <= inject_Z k) by (change 0 with (inject_Z 0); rewrite <- Zle_Qle; lia).
    lra. }
  destruct (Qlt_le_dec (H6 * (1 # 2)) 0) as [Hneg|_]; [lra|].
  assert (Hf : Qfloor (H6 * (1 # 2)) = (k / 2)%Z).
  { destruct Hcases as [E|[E|[E|[E|[E|E]]]]]; subst k;
      apply Qfloor_unique; vm_compute inject_Z in *; lra. }
  rewrite Hf. unfold Math_abs.
  destruct Hcases as [E|[E|[E|[E|[E|E]]]]]; subst k; vm_compute inject_Z in *;
    simpl Z.even; cbv iota; destruct (Qlt_le_dec _ 0); lra.
Qed.

Lemma clamp_eq v w :
  v == w * 255 -> 0 <= w -> w <= 1 -> Math_min 255 (Math_max 0 v) == w * 255.
Proof.
  intros Hv H0 H1. unfold Math_min, Math_max.
  destruct (Qlt_le_dec 0 v); destruct (Qlt_le_dec _ 255); lra.
Qed.

(** With the saturation unchanged, chroma is max - min. *)
Lemma chroma_unit factor mx mn :
  factor == 1 -> 0 <= mn -> mn < mx -> mx <= 1 ->
  let diff := mx - mn in
  let sum := mx + mn in
  let l := sum / 2 in
  let s := if Qlt_le_dec (1 # 2) l then diff / (2 - sum) else diff / sum in
  (1 - Math_abs (2 * l - 1)) * Math_min 1 (Math_max 0 (s * factor)) == diff.
Proof.
  intros Hf H0 Hlt H1. cbv zeta.
  unfold Math_abs, Math_min, Math_max, Qdiv. change (/ 2) with (1 # 2).
  destruct (Qlt_le_dec (1 # 2) ((mx + mn) * (1 # 2))).
  - set (t := (mx - mn) * / (2 - (mx + mn))).
    assert (Ht : t * (2 - (mx + mn)) == mx - mn) by (unfold t; field; lra).
    assert (0 <= t) by (subst t; apply Qle_shift_div_l; lra).
    assert (t <= 1) by (subst t; apply Qle_shift_div_r; lra).
    clearbody t.
    destruct (Qlt_le_dec (2 * ((mx + mn) * (1 # 2)) - 1) 0); [lra|].
    destruct (Qlt_le_dec 0 (t * factor)); destruct (Qlt_le_dec _ 1);
      rewrite ?Hf in *; nra.
  - set (t := (mx - mn) * / (mx + mn)).
    assert (Ht : t * (mx + mn) == mx - mn) by (unfold t; field; lra).
    assert (0 <= t) by (subst t; apply Qle_shift_div_l; lra).
    assert (t <= 1) by (subst t; apply Qle_shift_div_r; lra).
    clearbody t.
    destruct (Qlt_le_dec (2 * ((mx + mn) * (1 # 2)) - 1) 0);
    destruct (Qlt_le_dec 0 (t * factor)); destruct (Qlt_le_dec _ 1);
      rewrite ?Hf in *; nra.
Qed.


(** The back conversion in sector [k], at fraction [f] of the sector. *)
Lemma hslToRgb_sector h l newS k rr gg bb :
  (0 <= k <= 5)%Z -> inject_Z k <= h * 6 -> h * 6 < inject_Z k + 1 ->
  0 <= rr <= 1 -> 0 <= gg <= 1 -> 0 <= bb <= 1 ->
  (let c := (1 - Math_abs (2 * l - 1)) * newS in
   let m := l - c / 2 in
   let f := if Z.even k then h * 6 - inject_Z k else inject_Z k + 1 - h * 6 in
   match k with
   | 0%Z => c + m == rr /\ c * f + m == gg /\ 0 + m == bb
   | 1%Z => c * f + m == rr /\ c + m == gg /\ 0 + m == bb
   | 2%Z => 0 + m == rr /\ c + m == gg /\ c * f + m == bb
   | 3%Z => 0 + m == rr /\ c * f + m == gg /\ c + m == bb
   | 4%Z => c * f + m == rr /\ 0 + m == gg /\ c + m == bb
   | _ => c + m == rr /\ 0 + m == gg /\ c * f + m == bb
   end) ->
  let '(r', g', b') := hslToRgb h l newS in
  r' == rr * 255 /\ g' == gg * 255 /\ b' == bb * 255.
Proof.
  intros Hk H1 H2 Hr Hg Hb. cbv zeta. unfold hslToRgb. cbv zeta.
  destruct (hue_sector (h * 6) k Hk H1 H2) as [Hfl Hx]. rewrite Hfl. clear Hfl.
  assert (Hcases : (k = 0 \/ k = 1 \/ k = 2 \/ k = 3 \/ k = 4 \/ k = 5)%Z) by lia.
  destruct Hcases as [E|[E|[E|[E|[E|E]]]]]; subst k; cbv iota; simpl Z.even in *;
    cbv iota in *; intros (Ea & Eb & Ec); simpl; repeat split; apply clamp_eq;
      rewrite ?Hx, ?Ea, ?Eb, ?Ec; try reflexivity; lra.
Qed.

Lemma Qle_neq_lt x y : x <= y -> ~ y == x -> x < y.
Proof.
  intros Hle Hne. apply Qle_lteq in Hle. destruct Hle as [H|H]; [exact H|].
  symmetry in H. contradiction.
Qed.

Ltac finish_sector k Hm Hc :=
  apply (hslToRgb_sector _ _ _ k); try assumption; try lia;
  [unfold Qdiv; change (/ 6) with (1 # 6); vm_compute inject_Z; lra ..|];
  cbv zeta; simpl Z.even; cbv iota; rewrite !Hm, !Hc;
  unfold Qdiv; change (/ 6) with (1 # 6); vm_compute inject_Z;
  repeat split; try lra; nra.

Lemma saturatePixel_unit factor r g b :
  factor == 1 -> 0 <= r <= 1 -> 0 <= g <= 1 -> 0 <= b <= 1 ->
  ~ Math_max (Math_max r g) b - Math_min (Math_min r g) b == 0 ->
  let '(r', g', b') := saturatePixel factor r g b in
  r' == r * 255 /\ g' == g * 255 /\ b' == b * 255.
Proof.
  intros Hf Hr Hg Hb Hd. unfold saturatePixel. cbv zeta.
  destruct (Math_max3 r g b) as (Hmx & Mr & Mg & Mb).
  destruct (Math_min3 r g b) as (Hmn & mr & mg & mb).
  set (mx := Math_max (Math_max r g) b) in *.
  set (mn := Math_min (Math_min r g) b) in *.
  assert (Hmx1 : mx <= 1) by (destruct Hmx as [E|[E|E]]; rewrite E; lra).
  assert (Hmn0 : 0 <= mn) by (destruct Hmn as [E|[E|E]]; rewrite E; lra).
  assert (Hmx' : mx == r \/ mx == g \/ mx == b)
    by (destruct Hmx as [E|[E|E]]; rewrite E; auto using Qeq_refl).
  assert (Hmn' : mn == r \/ mn == g \/ mn == b)
    by (destruct Hmn as [E|[E|E]]; rewrite E; auto using Qeq_refl).
  clearbody mx mn. clear Hmx Hmn.
  assert (Hlt : mn < mx) by lra.
  pose proof (chroma_unit factor mx mn Hf Hmn0 Hlt Hmx1) as Hc. cbv zeta in Hc.
  set (newS := Math_min 1 (Math_max 0 (_ * factor))) in *.
  set (l := (mx + mn) / 2) in *.
  assert (Hl : l == (mx + mn) * (1 # 2)) by reflexivity.
  clearbody newS l.
  assert (Hm : l - (1 - Math_abs (2 * l - 1)) * newS / 2 == mn).
  { rewrite Hc. unfold Qdiv. change (/ 2) with (1 # 2). lra. }
  destruct (Qeq_dec mx r) as [Er|Er].
  - (* red is the maximum *)
    set (t := (g - b) / (mx - mn)).
    assert (Ht : t * (mx - mn) == g - b) by (unfold t; field; lra).
    destruct (Qlt_le_dec g b) as [Hgb|Hgb].
    + assert (mn == g) by (destruct Hmn' as [E|[E|E]]; lra).
      assert (-1 <= t) by (subst t; apply Qle_shift_div_l; lra).
      assert (t < 0) by (subst t; apply Qlt_shift_div_r; lra).
      clearbody t. finish_sector 5%Z Hm Hc.
    + assert (mn == b) by (destruct Hmn' as [E|[E|E]]; lra).
      assert (0 <= t) by (subst t; apply Qle_shift_div_l; lra).
      assert (t <= 1) by (subst t; apply Qle_shift_div_r; lra).
      clearbody t.
      destruct (Qlt_le_dec t 1); [finish_sector 0%Z Hm Hc | finish_sector 1%Z Hm Hc].
  - assert (Hr' : r < mx) by (now apply Qle_neq_lt).
    destruct (Qeq_dec mx g) as [Eg|Eg].
    + (* green is the maximum *)
      set (t := (b - r) / (mx - mn)).
      assert (Ht : t * (mx - mn) == b - r) by (unfold t; field; lra).
      destruct (Qlt_le_dec b r) as [Hbr|Hbr].
      * assert (mn == b) by (destruct Hmn' as [E|[E|E]]; lra).
        assert (-1 < t) by (subst t; apply Qlt_shift_div_l; lra).
        assert (t < 0) by (subst t; apply Qlt_shift_div_r; lra).
        clearbody t. finish_sector 1%Z Hm Hc.
      * assert (mn == r) by (destruct Hmn' as [E|[E|E]]; lra).
        assert (0 <= t) by (subst t; apply Qle_shift_div_l; lra).
        assert (t <= 1) by (subst t; apply Qle_shift_div_r; lra).
        clearbody t.
        destruct (Qlt_le_dec t 1); [finish_sector 2%Z Hm Hc | finish_sector 3%Z Hm Hc].
    + (* blue is the maximum *)
      assert (Hg' : g < mx) by (now apply Qle_neq_lt).
      assert (Eb : mx == b) by (destruct Hmx' as [E|[E|E]]; [contradiction..|exact E]).
      destruct (Qeq_dec mx b) as [_|Eb']; [|contradiction].
      set (t := (r - g) / (mx - mn)).
      assert (Ht : t * (mx - mn) == r - g) by (unfold t; field; lra).
      destruct (Qlt_le_dec r g) as [Hrg|Hrg].
      * assert (mn == r) by (destruct Hmn' as [E|[E|E]]; lra).
        assert (-1 < t) by (subst t; apply Qlt_shift_div_l; lra).
        assert (t < 0) by (subst t; apply Qlt_shift_div_r; lra).
        clearbody t. finish_sector 3%Z Hm Hc.
      * assert (mn == g) by (destruct Hmn' as [E|[E|E]]; lra).
        assert (0 <= t) by (subst t; apply Qle_shift_div_l; lra).
        assert (t < 1) by (subst t; apply Qlt_shift_div_r; lra).
        clearbody t. finish_sector 4%Z Hm Hc.
Qed.
End SaturationUnit.

Lemma buffer_ext (a b : buffer) :
  length a = length b -> (forall j, 0 <= j < len b -> get a j = get b j) -> a = b.
Proof.
  intros Hl H. apply list_eq. intros j.
  destruct (Nat.lt_ge_cases j (length b)) as [Hj|Hj].
  - assert (Hr : 0 <= Z.of_nat j < len b) by (unfold len; lia).
    pose proof (H _ Hr) as E.
    pose proof (lookup_get a (Z.of_nat j)) as Ea.
    pose proof (lookup_get b (Z.of_nat j)) as Eb.
    rewrite Nat2Z.id in Ea, Eb. rewrite Ea, Eb by (unfold len in *; lia).
    now rewrite E.
  - rewrite !lookup_ge_None_2 by lia. reflexivity.
Qed.

Section SaturationClaims.
Import JsQ.
Local Open Scope Q_scope.

Lemma applyAdvancedSaturation_spec img saturation :
  (len (data img) mod 4 = 0)%Z ->
  let d := data img in
  let out := data (applyAdvancedSaturation img saturation) in
  length out = length d /\
  (forall p c, (0 <= p)%Z -> (4 * p + 4 <= len d)%Z -> (0 <= c < 3)%Z ->
     get out (4 * p + c)
     = channel c (saturatedSamples saturation
                    (get d (4 * p)) (get d (4 * p + 1)) (get d (4 * p + 2)))) /\
  (forall p, get out (4 * p + 3) = get d (4 * p + 3)).
Proof.
  intros Hmod d out. subst out. unfold applyAdvancedSaturation. cbv zeta. simpl data.
  apply (pixel_loop d _
    (fun p c => channel c (saturatedSamples saturation
                  (get d (4 * p)) (get d (4 * p + 1)) (get d (4 * p + 2)))));
    [exact Hmod|].
  intros p cur Hp Hin Hl Hcur. unfold load, saturatedSamples. cbv zeta.
  rewrite !Hcur by lia.
  destruct (Qeq_dec _ 0) as [Ed|Ed].
  - repeat split; auto.
    intros c Hc. rewrite Hcur by lia. unfold channel.
    assert (Hcc : (c = 0 \/ c = 1 \/ c = 2)%Z) by lia.
    destruct Hcc as [E|[E|E]]; subst c; simpl; f_equal; lia.
  - destruct (saturatePixel _ _ _ _) as [[r' g'] b']. unfold store.
    assert (Hlen : len cur = len d) by (unfold len; now rewrite Hl).
    repeat split.
    + now rewrite !length_put.
    + intros j Hj. rewrite !get_put_ne by lia. reflexivity.
    + intros c Hc. unfold channel.
      assert (Hcc : (c = 0 \/ c = 1 \/ c = 2)%Z) by lia.
      destruct Hcc as [E|[E|E]]; subst c; simpl.
      * rewrite !get_put_ne by lia. rewrite Z.add_0_r. apply get_put_eq. lia.
      * rewrite get_put_ne by lia. apply get_put_eq. rewrite len_put. lia.
      * apply get_put_eq. rewrite !len_put. lia.
Qed.

Lemma byte_unit (v : Z) :
  is_byte v -> 0 <= inject_Z v / 255 <= 1 /\ inject_Z v / 255 * 255 == inject_Z v.
Proof.
  intros [H0 H1]. rewrite Zle_Qle in H0, H1.
  change (inject_Z 0) with 0 in H0. change (inject_Z 255) with 255 in H1.
  unfold Qdiv. change (/ 255) with (1 # 255). repeat split; lra.
Qed.

Lemma saturatedSamples_unit r0 g0 b0 :
  is_byte r0 -> is_byte g0 -> is_byte b0 -> saturatedSamples 0 r0 g0 b0 = (r0, g0, b0).
Proof.
  intros Hr Hg Hb. unfold saturatedSamples. cbv zeta.
  destruct (Qeq_dec _ 0) as [Ed|Ed]; [reflexivity|].
  destruct (byte_unit r0 Hr) as [Br Er].
  destruct (byte_unit g0 Hg) as [Bg Eg].
  destruct (byte_unit b0 Hb) as [Bb Eb].
  pose proof (saturatePixel_unit ((0 + 100) / 100) _ _ _ ltac:(reflexivity) Br Bg Bb Ed)
    as H.
  destruct (saturatePixel _ _ _ _) as [[r' g'] b']. destruct H as (H1 & H2 & H3).
  rewrite Er in H1. rewrite Eg in H2. rewrite Eb in H3.
  now rewrite (ToUint8ClampQ_inject r0 r'), (ToUint8ClampQ_inject g0 g'),
    (ToUint8ClampQ_inject b0 b').
Qed.

Lemma saturatedSamples_gray saturation v : saturatedSamples saturation v v v = (v, v, v).
Proof.
  unfold saturatedSamples. cbv zeta.
  destruct (Qeq_dec _ 0) as [Ed|Ed]; [reflexivity|].
  exfalso. apply Ed. unfold Math_max, Math_min.
  repeat destruct (Qlt_le_dec _ _); ring.
Qed.

Lemma sample_index (j : Z) :
  (0 <= j)%Z -> exists p c, (0 <= p)%Z /\ (0 <= c < 4)%Z /\ j = (4 * p + c)%Z.
Proof.
  intros Hj. exists (j / 4)%Z, (j mod 4)%Z.
  pose proof (Z.mod_pos_bound j 4 ltac:(lia)). pose proof (Z.div_mod j 4 ltac:(lia)).
  assert (0 <= j / 4)%Z by (apply Z.div_pos; lia). lia.
Qed.

Lemma applyAdvancedSaturation_unit img :
  wf_image img -> data (applyAdvancedSaturation img 0) = data img.
Proof.
  intros (Hw & Hh & Hlen & Hb).
  assert (Hmod : (len (data img) mod 4 = 0)%Z) by (rewrite Hlen; apply Z_mod_mult).
  destruct (applyAdvancedSaturation_spec img 0 Hmod) as (Hl & Hrgb & Halpha).
  apply buffer_ext; [exact Hl|]. intros j Hj.
  destruct (sample_index j) as (p & c & Hp & Hc & ->); [lia|].
  destruct (Z.eq_dec c 3%Z) as [->|Hc3]; [apply Halpha|].
  assert (Hin : (4 * p + 4 <= len (data img))%Z).
  { rewrite Hlen in *. lia. }
  rewrite Hrgb by lia.
  rewrite saturatedSamples_unit by (apply get_is_byte; exact Hb).
  unfold channel.
  assert (Hcc : (c = 0 \/ c = 1 \/ c = 2)%Z) by lia.
  destruct Hcc as [E|[E|E]]; subst c; simpl; f_equal; lia.
Qed.

(** C9: with saturation = 0 (factor 1) every sample of the output is within
    1 of the input's (in exact arithmetic it is the input's); and for every
    saturation value a pixel with R = G = B keeps its four samples. *)
Theorem saturation_unit_and_gray_pixels :
  (forall img, wf_image img ->
     len (data (applyAdvancedSaturation img 0)) = len (data img) /\
     forall i, (0 <= i < len (data img))%Z ->
       (Z.abs (get (data (applyAdvancedSaturation img 0)) i - get (data img) i) <= 1)%Z) /\
  (forall img saturation p, wf_image img ->
     (0 <= p < width img * height img)%Z ->
     get (data img) (4 * p) = get (data img) (4 * p + 1) ->
     get (data img) (4 * p + 1) = get (data img) (4 * p + 2) ->
     forall c, (0 <= c < 4)%Z ->
       get (data (applyAdvancedSaturation img saturation)) (4 * p + c)
       = get (data img) (4 * p + c)).
Proof.
  split.
  - intros img Hwf. rewrite (applyAdvancedSaturation_unit img Hwf).
    split; [reflexivity|]. intros i _. rewrite Z.sub_diag. simpl. lia.
  - intros img saturation p (Hw & Hh & Hlen & Hb) Hp E1 E2 c Hc.
    assert (Hmod : (len (data img) mod 4 = 0)%Z) by (rewrite Hlen; apply Z_mod_mult).
    destruct (applyAdvancedSaturation_spec img saturation Hmod) as (Hl & Hrgb & Halpha).
    destruct (Z.eq_dec c 3%Z) as [->|Hc3]; [apply Halpha|].
    rewrite Hrgb by lia. rewrite E1, E2, saturatedSamples_gray. unfold channel.
    assert (Hcc : (c = 0 \/ c = 1 \/ c = 2)%Z) by lia.
    destruct Hcc as [E|[E|E]]; subst c; simpl; try rewrite Z.add_0_r; congruence.
Qed.

End SaturationClaims.

Lemma twoPixelImage_wf : wf_image twoPixelImage.
Proof.
  unfold wf_image, twoPixelImage, twoPixels, len; simpl. repeat split; try lia.
  repeat constructor; unfold is_byte; lia.
Qed.

Lemma grayPixel_wf : wf_image grayPixel.
Proof.
  unfold wf_image, grayPixel, len; simpl. repeat split; try lia.
  repeat constructor; unfold is_byte; lia.
Qed.

Lemma saturation_unit_and_gray_pixels_witness :
  len (data (applyAdvancedSaturation twoPixelImage 0)) = len (data twoPixelImage) /\
  get (data (applyAdvancedSaturation grayPixel 50)) (4 * 0 + 0)
  = get (data grayPixel) (4 * 0 + 0).
Proof.
  split.
  - apply (proj1 saturation_unit_and_gray_pixels twoPixelImage twoPixelImage_wf).
  - apply (proj2 saturation_unit_and_gray_pixels grayPixel 50%Q 0 grayPixel_wf);
      [simpl; lia | reflexivity | reflexivity | lia].
Defined.

(** ** The bilateral filter on the pixels it visits *)


Lemma length_range lo hi : length (range lo hi) = Z.to_nat (hi - lo).
Proof. unfold range. now rewrite length_map, length_seq. Qed.



Section Painting.
Variables (d : buffer) (w h : Z) (V : Z -> Z -> Z -> Z).
Hypothesis Hlen : len d = w * h * 4.





End Painting.

Section BilateralLoop.
Import JsR.
Variables (img : ImageData) (spatialSigma intensitySigma : R).
Hypothesis Hwf : wf_image img.

Let d := data img.
Let w := width img.
Let h := height img.
Let radius := Math_ceil (spatialSigma * 2).
Let V := fun x y c =>
  ToUint8Clamp (bilateralSample d w spatialSigma intensitySigma radius x y c).

Hypothesis Hradius : 0 <= radius.


End BilateralLoop.

(** ** The bilateral sample is the normalised weighted average *)



Section WeightedAverage.
Import JsR.
Local Open Scope R_scope.








End WeightedAverage.

Section BilateralClaims.
Import JsR.
Local Open Scope R_scope.


Lemma ninePixels_wf : wf_image ninePixels.
Proof.
  unfold wf_image, ninePixels, len; simpl. repeat split; try lia.
  repeat constructor; unfold is_byte; lia.
Qed.


End BilateralClaims.

(** ** Uniform images *)

Lemma get_cons a (l : buffer) j : 0 < j -> get (a :: l) j = get l (j - 1).
Proof.
  intros Hj. unfold get.
  destruct (0 <=? j) eqn:E; [|apply Z.leb_gt in E; lia].
  destruct (0 <=? j - 1) eqn:E'; [|apply Z.leb_gt in E'; lia].
  replace (Z.to_nat j) with (S (Z.to_nat (j - 1))) by lia. reflexivity.
Qed.

Lemma length_flatBuffer n v a : length (flatBuffer n v a) = (4 * n)%nat.
Proof.
  unfold flatBuffer. induction n as [|n IH]; simpl; [reflexivity|].
  simpl in IH. rewrite IH. lia.
Qed.

Lemma flatBuffer_bytes n v a : is_byte v -> is_byte a -> Forall is_byte (flatBuffer n v a).
Proof.
  intros Hv Ha. unfold flatBuffer. induction n as [|n IH]; simpl; [constructor|].
  repeat (constructor; [assumption|]). exact IH.
Qed.

Lemma get_flatBuffer n v a j :
  0 <= j < 4 * Z.of_nat n ->
  get (flatBuffer n v a) j = if j mod 4 =? 3 then a else v.
Proof.
  revert j. induction n as [|n IH]; intros j Hj; [lia|].
  change (flatBuffer (S n) v a) with (v :: v :: v :: a :: flatBuffer n v a).
  destruct (Z.eq_dec j 0) as [->|H0]; [reflexivity|].
  destruct (Z.eq_dec j 1) as [->|H1]; [reflexivity|].
  destruct (Z.eq_dec j 2) as [->|H2]; [reflexivity|].
  destruct (Z.eq_dec j 3) as [->|H3]; [reflexivity|].
  rewrite !get_cons by lia.
  replace (j - 1 - 1 - 1 - 1) with (j - 4) by lia.
  rewrite IH by lia.
  replace j with (j - 4 + 1 * 4) at 2 by lia. now rewrite Z_mod_plus_full.
Qed.

Lemma flatImage_wf w h v : 0 <= w -> 0 <= h -> is_byte v -> wf_image (flatImage w h v).
Proof.
  intros Hw Hh Hv. unfold wf_image, flatImage, len. simpl.
  repeat split; try assumption.
  - rewrite length_flatBuffer. nia.
  - apply flatBuffer_bytes; [assumption | unfold is_byte; lia].
Qed.

Lemma flat_map_ext_range {A : Type} (f g : Z -> list A) lo hi :
  (forall i, lo <= i < hi -> f i = g i) ->
  flat_map f (range lo hi) = flat_map g (range lo hi).
Proof.
  intros H. pose proof (range_bounds lo hi) as Hb.
  induction Hb as [|i l Hi _ IH]; simpl; [reflexivity|]. now rewrite H, IH.
Qed.

Lemma flat_map_const {A B : Type} (p : list B) (l : list A) :
  flat_map (fun _ => p) l = concat (replicate (length l) p).
Proof. induction l as [|a l IH]; simpl; [reflexivity | now rewrite IH]. Qed.

Lemma concat_replicate_mul {B : Type} (p : list B) (n m : nat) :
  concat (replicate n (concat (replicate m p))) = concat (replicate (n * m) p).
Proof.
  induction n as [|n IH]; simpl; [reflexivity|].
  rewrite IH, replicate_add, concat_app. reflexivity.
Qed.

(** The nearest-neighbour canvas draws a uniform image as a uniform image. *)
Lemma nearestCanvas_draws_flat : draws_flat nearestCanvas.
Proof.
  split; [reflexivity|]. intros w0 h0 v w h Hw0 Hh0 Hw Hh Hv.
  unfold nearestCanvas, flatImage. simpl. unfold nearestSample. simpl.
  rewrite (flat_map_ext_range _ (fun _ => concat (replicate (length (range 0 w)) [v; v; v; 255]))).
  - rewrite flat_map_const, concat_replicate_mul, !length_range.
    unfold flatBuffer. f_equal. f_equal. nia.
  - intros y Hy. rewrite <- flat_map_const. apply flat_map_ext_range. intros x Hx.
    assert (Hsx : 0 <= x * w0 / w < w0).
    { split; [apply Z.div_pos; nia | apply Z.div_lt_upper_bound; nia]. }
    assert (Hsy : 0 <= y * h0 / h < h0).
    { split; [apply Z.div_pos; nia | apply Z.div_lt_upper_bound; nia]. }
    set (sx := x * w0 / w) in *. set (sy := y * h0 / h) in *.
    assert (Hq : 0 <= sy * w0 + sx < w0 * h0) by nia.
    simpl. rewrite !get_flatBuffer by lia.
    rewrite Z.add_0_r, Z_mod_mult.
    rewrite !(Z.add_comm (_ * 4)), !Z_mod_plus_full. reflexivity.
Qed.

(** ** Tone mapping, sample by sample *)

Section ToneMappingClaims.
Import JsR.
Local Open Scope R_scope.

Lemma applyAdvancedToneMapping_spec img bright contr :
  (len (data img) mod 4 = 0)%Z ->
  let d := data img in
  let out := data (applyAdvancedToneMapping img bright contr) in
  length out = length d /\
  (forall p c, (0 <= p)%Z -> (4 * p + 4 <= len d)%Z -> (0 <= c < 3)%Z ->
     get out (4 * p + c) = ToUint8Clamp (toneMapSample bright contr (get d (4 * p + c)))) /\
  (forall p, get out (4 * p + 3) = get d (4 * p + 3)).
Proof.
  intros Hmod d out. subst out. unfold applyAdvancedToneMapping. cbv zeta. simpl data.
  apply (pixel_loop d _
    (fun p c => ToUint8Clamp (toneMapSample bright contr (get d (4 * p + c)))));
    [exact Hmod|].
  intros p cur Hp Hin Hl Hcur.
  assert (Hlen : len cur = len d) by (unfold len; now rewrite Hl).
  unfold for_range. change (range 0 3) with [0; 1; 2]%Z. cbn [fold_left].
  unfold store. rewrite !get_put_ne by lia. rewrite !Hcur by lia.
  repeat split.
  - now rewrite !length_put.
  - intros j Hj. rewrite !get_put_ne by lia. reflexivity.
  - intros c Hc.
    assert (Hcc : (c = 0 \/ c = 1 \/ c = 2)%Z) by lia.
    destruct Hcc as [E|[E|E]]; subst c.
    + rewrite !get_put_ne by lia. apply get_put_eq. lia.
    + rewrite get_put_ne by lia. apply get_put_eq. rewrite len_put. lia.
    + apply get_put_eq. rewrite !len_put. lia.
Qed.

Lemma ToUint8ClampR_nearest (n : Z) (v : R) :
  (0 < n < 255)%Z -> IZR n - 1 / 2 < v < IZR n + 1 / 2 -> ToUint8Clamp v = n.
Proof.
  intros Hn [H1 H2]. unfold ToUint8Clamp.
  assert (1 <= IZR n) by (apply (IZR_le 1); lia).
  assert (IZR n <= 254) by (apply (IZR_le n 254); lia).
  destruct (Rlt_dec 0 v) as [_|Hc]; [|lra].
  destruct (Rlt_dec v 255) as [_|Hc]; [|lra].
  destruct (Rlt_dec v (IZR n)) as [Hlt|Hge].
  - assert (Hf : Zfloor v = (n - 1)%Z) by (apply Zfloor_eq; rewrite minus_IZR; lra).
    rewrite Hf, minus_IZR.
    destruct (Rlt_dec _ (1 / 2)) as [Hc|_]; [lra|].
    destruct (Rlt_dec (1 / 2) _) as [_|Hc]; [lia | lra].
  - assert (Hf : Zfloor v = n) by (apply Zfloor_eq; lra).
    rewrite Hf. destruct (Rlt_dec _ (1 / 2)) as [_|Hc]; [reflexivity | lra].
Qed.

Lemma Q2R_50 : Q2R 50 = 50.
Proof. unfold Q2R. simpl. lra. Qed.

Lemma Q2R_0 : Q2R 0 = 0.
Proof. unfold Q2R. simpl. lra. Qed.

(** Brightness 50 raises the normalised sample to the power 1.5: 128 becomes
    128 * sqrt(128/255), about 90.7. *)
Lemma toneMapSample_bright_128 :
  toneMapSample (Q2R 50) (Q2R 0) 128 = 128 * sqrt (128 / 255).
Proof.
  unfold toneMapSample. cbv zeta. rewrite Q2R_50, Q2R_0.
  unfold applySCurve. destruct (Req_dec_T (0 / 100) 0) as [_|Hn]; [|exfalso; lra].
  unfold Math_pow.
  destruct (Req_dec_T (1 + 50 / 100) 0) as [Hc|_]; [exfalso; lra|].
  destruct (Req_dec_T (128 / 255) 0) as [Hc|_]; [exfalso; lra|].
  replace (1 + 50 / 100) with (1 + / 2) by lra.
  rewrite Rpower_plus, Rpower_1, Rpower_sqrt by lra.
  assert (Hlo : 181 / 256 < sqrt (128 / 255)).
  { rewrite <- (sqrt_square (181 / 256)) by lra. apply sqrt_lt_1_alt. lra. }
  assert (Hhi : sqrt (128 / 255) < 183 / 256).
  { rewrite <- (sqrt_square (183 / 256)) by lra. apply sqrt_lt_1_alt. lra. }
  replace (128 / 255 * sqrt (128 / 255) * 255) with (128 * sqrt (128 / 255)) by field.
  unfold Rmin, Rmax.
  destruct (Rle_dec 0 _); destruct (Rle_dec 255 _); lra.
Qed.

Lemma toneMap_bright_128 : ToUint8Clamp (toneMapSample (Q2R 50) (Q2R 0) 128) = 91%Z.
Proof.
  rewrite toneMapSample_bright_128.
  assert (Hlo : 181 / 256 < sqrt (128 / 255)).
  { rewrite <- (sqrt_square (181 / 256)) by lra. apply sqrt_lt_1_alt. lra. }
  assert (Hhi : sqrt (128 / 255) < 183 / 256).
  { rewrite <- (sqrt_square (183 / 256)) by lra. apply sqrt_lt_1_alt. lra. }
  apply ToUint8ClampR_nearest; [lia | lra].
Qed.

Lemma applyAdvancedToneMapping_flat w h :
  (0 <= w)%Z -> (0 <= h)%Z ->
  applyAdvancedToneMapping (flatImage w h 128) (Q2R 50) (Q2R 0) = flatImage w h 91.
Proof.
  intros Hw Hh.
  assert (Hwf : wf_image (flatImage w h 128))
    by (apply flatImage_wf; unfold is_byte; lia).
  destruct Hwf as (_ & _ & Hlen & _).
  assert (Hmod : (len (data (flatImage w h 128)) mod 4 = 0)%Z)
    by (rewrite Hlen; apply Z_mod_mult).
  destruct (applyAdvancedToneMapping_spec (flatImage w h 128) (Q2R 50) (Q2R 0) Hmod)
    as (Hl & Hrgb & Halpha).
  assert (Hd : data (applyAdvancedToneMapping (flatImage w h 128) (Q2R 50) (Q2R 0))
               = data (flatImage w h 91)).
  { assert (Hlen4 : len (data (flatImage w h 128)) = (4 * Z.of_nat (Z.to_nat (w * h)))%Z)
      by (unfold len; simpl; rewrite length_flatBuffer; lia).
    apply buffer_ext; [simpl; simpl in Hl; now rewrite Hl, !length_flatBuffer|].
    intros j Hj.
    assert (Hj' : (0 <= j < 4 * Z.of_nat (Z.to_nat (w * h)))%Z)
      by (unfold len in Hj; simpl in Hj; rewrite length_flatBuffer in Hj; lia).
    destruct (sample_index j) as (p & c & Hp & Hc & ->); [lia|].
    assert (Hm : ((4 * p + c) mod 4 = c)%Z).
    { rewrite Z.add_comm, Z.mul_comm, Z_mod_plus_full. apply Z.mod_small. lia. }
    assert (Hsrc : get (data (flatImage w h 128)) (4 * p + c)
                   = if (c =? 3)%Z then 255%Z else 128%Z).
    { simpl. rewrite get_flatBuffer by exact Hj'. now rewrite Hm. }
    assert (Hdst : get (data (flatImage w h 91)) (4 * p + c)
                   = if (c =? 3)%Z then 255%Z else 91%Z).
    { simpl. rewrite get_flatBuffer by exact Hj'. now rewrite Hm. }
    rewrite Hdst.
    destruct (Z.eq_dec c 3%Z) as [->|Hc3].
    - rewrite Halpha. exact Hsrc.
    - replace (c =? 3)%Z with false in * by (symmetry; apply Z.eqb_neq; exact Hc3).
      rewrite Hrgb by lia. rewrite Hsrc. apply toneMap_bright_128. }
  unfold applyAdvancedToneMapping in *. cbv zeta in *. simpl in *. unfold flatImage.
  f_equal. exact Hd.
Qed.

End ToneMappingClaims.

(** ** The two pipelines on the uniform 100x100 image *)

Section EndToEnd.
Import JsQ.

(** What each mode runs on a 100x100 image: the preview keeps the size, the
    full-quality mode draws it at twice the size. *)
Lemma preview_bright canvas img :
  contextAvailable canvas = true -> width img = 100 -> height img = 100 ->
  processImageRealtime canvas (Some img) brightSettings
  = Resolved (applyAdvancedToneMapping
                (mkImageData 100 100 (drawImage canvas img 100 100)) (Q2R 50) (Q2R 0)).
Proof.
  intros Hctx Hw Hh. unfold processImageRealtime. cbv zeta. rewrite Hctx, Hw, Hh.
  reflexivity.
Qed.

Lemma final_bright canvas img :
  contextAvailable canvas = true -> width img = 100 -> height img = 100 ->
  processImage canvas (Some img) brightSettings
  = ([10; 65; 100],
     Resolved (applyAdvancedToneMapping
                 (mkImageData 200 200 (drawImage canvas img 200 200)) (Q2R 50) (Q2R 0))).
Proof.
  intros Hctx Hw Hh. unfold processImage. cbv zeta. rewrite Hctx, Hw, Hh.
  reflexivity.
Qed.

Lemma preview_neutral canvas img :
  contextAvailable canvas = true -> width img = 100 -> height img = 100 ->
  processImageRealtime canvas (Some img) neutralSettings
  = Resolved (mkImageData 100 100 (drawImage canvas img 100 100)).
Proof.
  intros Hctx Hw Hh. unfold processImageRealtime. cbv zeta. rewrite Hctx, Hw, Hh.
  reflexivity.
Qed.

Lemma final_neutral canvas img :
  contextAvailable canvas = true -> width img = 100 -> height img = 100 ->
  processImage canvas (Some img) neutralSettings
  = ([10; 100], Resolved (mkImageData 200 200 (drawImage canvas img 200 200))).
Proof.
  intros Hctx Hw Hh. unfold processImage. cbv zeta. rewrite Hctx, Hw, Hh.
  reflexivity.
Qed.

(** C1, what the code does: with brightness = 50 and everything else off, the
    uniform (128,128,128) image comes out uniform in both modes, 100x100 in
    preview and 200x200 in full quality, but every R, G, B sample is 91, not
    above 128: the exponent 1 + brightness/100 = 1.5 darkens. *)
Theorem brightness_50_darkens_flat_gray canvas :
  draws_flat canvas ->
  processImageRealtime canvas (Some (flatImage 100 100 128)) brightSettings
  = Resolved (flatImage 100 100 91) /\
  snd (processImage canvas (Some (flatImage 100 100 128)) brightSettings)
  = Resolved (flatImage 200 200 91).
Proof.
  intros [Hctx Hdraw]. split.
  - rewrite (preview_bright canvas (flatImage 100 100 128) Hctx eq_refl eq_refl).
    rewrite Hdraw by (unfold is_byte; lia).
    rewrite <- (applyAdvancedToneMapping_flat 100 100) by lia. reflexivity.
  - rewrite (final_bright canvas (flatImage 100 100 128) Hctx eq_refl eq_refl).
    rewrite Hdraw by (unfold is_byte; lia).
    rewrite <- (applyAdvancedToneMapping_flat 200 200) by lia. reflexivity.
Qed.

Lemma brightness_50_darkens_flat_gray_witness :
  processImageRealtime nearestCanvas (Some (flatImage 100 100 128)) brightSettings
  = Resolved (flatImage 100 100 91).
Proof.
  exact (proj1 (brightness_50_darkens_flat_gray nearestCanvas nearestCanvas_draws_flat)).
Defined.

(** C3, as amended: with every setting neutral, the preview returns the
    uniform 100x100 (128,128,128) image unchanged, same width and height;
    the full-quality mode first draws the image at twice its size (it has
    fewer than 1,000,000 pixels) and returns the uniform (128,128,128) image
    of 200x200 pixels. *)
Theorem neutral_settings_flat_gray canvas :
  draws_flat canvas ->
  processImageRealtime canvas (Some (flatImage 100 100 128)) neutralSettings
  = Resolved (flatImage 100 100 128) /\
  snd (processImage canvas (Some (flatImage 100 100 128)) neutralSettings)
  = Resolved (flatImage 200 200 128).
Proof.
  intros [Hctx Hdraw]. split.
  - rewrite (preview_neutral canvas (flatImage 100 100 128) Hctx eq_refl eq_refl).
    rewrite Hdraw by (unfold is_byte; lia). reflexivity.
  - rewrite (final_neutral canvas (flatImage 100 100 128) Hctx eq_refl eq_refl).
    rewrite Hdraw by (unfold is_byte; lia). reflexivity.
Qed.

Lemma neutral_settings_flat_gray_witness :
  processImageRealtime nearestCanvas (Some (flatImage 100 100 128)) neutralSettings
  = Resolved (flatImage 100 100 128).
Proof.
  exact (proj1 (neutral_settings_flat_gray nearestCanvas nearestCanvas_draws_flat)).
Defined.

(** C3 as stated fails in full-quality mode: the output of the 100x100 image
    is 200 pixels wide and high, so it is not the input. *)
Lemma neutral_final_mode_upscales :
  exists raster,
    snd (processImage nearestCanvas (Some (flatImage 100 100 128)) neutralSettings)
    = Resolved raster /\
    width raster = 200 /\ height raster = 200 /\
    raster <> flatImage 100 100 128.
Proof.
  exists (mkImageData 200 200 (drawImage nearestCanvas (flatImage 100 100 128) 200 200)).
  split.
  - now rewrite (final_neutral nearestCanvas (flatImage 100 100 128) eq_refl eq_refl eq_refl).
  - split; [reflexivity|]. split; [reflexivity|].
    intros E. apply (f_equal width) in E. discriminate E.
Qed.

End EndToEnd.

(** * Further properties of the stages *)

(** ** The conversion on store keeps the order *)

Lemma put_same d i : put d i (get d i) = d.
Proof.
  destruct (Z_lt_dec i 0) as [Hn|Hn]; [apply put_out_of_range; lia|].
  destruct (Z_lt_dec i (len d)) as [Hl|Hl]; [|apply put_out_of_range; lia].
  unfold put. destruct (0 <=? i) eqn:E; [|reflexivity].
  apply list_insert_id. apply lookup_get. lia.
Qed.

Section StoreOrder.
Import JsR.
Local Open Scope R_scope.

Lemma ToUint8ClampR_mono r r' : r <= r' -> (ToUint8Clamp r <= ToUint8Clamp r')%Z.
Proof.
  intros Hle.
  pose proof (ToUint8ClampR_byte r) as [B0 B1].
  pose proof (ToUint8ClampR_byte r') as [B0' B1'].
  unfold ToUint8Clamp in *.
  destruct (Rlt_dec 0 r) as [H0|H0]; [|exact B0'].
  destruct (Rlt_dec 0 r') as [H0'|H0']; [|lra].
  destruct (Rlt_dec r' 255) as [H1'|H1']; [|exact B1].
  destruct (Rlt_dec r 255) as [H1|H1]; [|lra].
  pose proof (Zfloor_bound r) as [F1 F2]. pose proof (Zfloor_bound r') as [F1' F2'].
  pose proof (Zfloor_le r r' Hle) as Hf.
  destruct (Z.eq_dec (Zfloor r) (Zfloor r')) as [E|E].
  - rewrite <- E in *.
    repeat destruct (Rlt_dec _ _); try destruct (Z.even (Zfloor r)); try lia; lra.
  - assert (Zfloor r + 1 <= Zfloor r')%Z by lia.
    repeat destruct (Rlt_dec _ _); try destruct (Z.even _); try destruct (Z.even _); lia.
Qed.

Lemma ToUint8ClampR_le r v : is_byte v -> r <= IZR v -> (ToUint8Clamp r <= v)%Z.
Proof.
  intros Hv Hr. pose proof (ToUint8ClampR_mono r (IZR v) Hr) as H.
  now rewrite ToUint8ClampR_IZR in H.
Qed.

Lemma ToUint8ClampR_ge r v : is_byte v -> IZR v <= r -> (v <= ToUint8Clamp r)%Z.
Proof.
  intros Hv Hr. pose proof (ToUint8ClampR_mono (IZR v) r Hr) as H.
  now rewrite ToUint8ClampR_IZR in H.
Qed.

Lemma clampR_byte v : is_byte v -> Rmin 255 (Rmax 0 (IZR v)) = IZR v.
Proof.
  intros [H0 H1]. apply IZR_le in H0, H1.
  unfold Rmin, Rmax. destruct (Rle_dec 0 (IZR v)); destruct (Rle_dec 255 _); lra.
Qed.

Lemma clampR_mono a b : a <= b -> Rmin 255 (Rmax 0 a) <= Rmin 255 (Rmax 0 b).
Proof.
  intros H. unfold Rmin, Rmax.
  destruct (Rle_dec 0 a); destruct (Rle_dec 0 b);
    repeat destruct (Rle_dec 255 _); lra.
Qed.

End StoreOrder.

(** ** Unsharp mask with amount 0 *)

Section UnsharpZero.
Import JsR.
Local Open Scope R_scope.



End UnsharpZero.

(** ** Tone mapping: identity, direction of brightness, order of samples *)

Section ToneMappingOrder.
Import JsR.
Local Open Scope R_scope.

Lemma tanh_exp x : tanh x = (exp (2 * x) - 1) / (exp (2 * x) + 1).
Proof.
  unfold tanh, sinh, cosh. rewrite exp_Ropp.
  replace (2 * x) with (x + x) by ring. rewrite exp_plus.
  pose proof (exp_pos x) as Hx. field. split; nra.
Qed.

Lemma exp_le x y : x <= y -> exp x <= exp y.
Proof.
  intros [H|E]; [left; now apply exp_increasing | right; now rewrite E].
Qed.

Lemma tanh_mono x y : x <= y -> tanh x <= tanh y.
Proof.
  intros H. rewrite !tanh_exp.
  pose proof (exp_pos (2 * x)) as Hx. pose proof (exp_pos (2 * y)) as Hy.
  assert (Hle : exp (2 * x) <= exp (2 * y)) by (apply exp_le; lra).
  apply Rmult_le_reg_r with ((exp (2 * x) + 1) * (exp (2 * y) + 1)); [nra|].
  field_simplify; nra.
Qed.

Lemma tanh_opp x : tanh (- x) = - tanh x.
Proof.
  unfold tanh, sinh, cosh. rewrite Ropp_involutive.
  pose proof (exp_pos x). pose proof (exp_pos (- x)). field. lra.
Qed.

Lemma tanh_pos x : 0 < x -> 0 < tanh x.
Proof.
  intros H. rewrite tanh_exp. pose proof (exp_pos (2 * x)).
  assert (exp 0 < exp (2 * x)) by (apply exp_increasing; lra). rewrite exp_0 in *.
  apply Rdiv_lt_0_compat; lra.
Qed.

(** The S-curve keeps [0,1] and the order of its arguments. *)
Lemma applySCurve_range x s : 0 <= x <= 1 -> 0 <= applySCurve x s <= 1.
Proof.
  intros Hx. unfold applySCurve, Math_tanh.
  destruct (Req_dec_T s 0); [exact Hx|].
  destruct (Rlt_dec 0 (s * 2)) as [Hf|Hf].
  - pose proof (tanh_pos (s * 2 / 2) ltac:(lra)) as HT.
    assert (H1 : - tanh (s * 2 / 2) <= tanh (s * 2 * (x - 0.5))).
    { rewrite <- tanh_opp. apply tanh_mono. nra. }
    assert (H2 : tanh (s * 2 * (x - 0.5)) <= tanh (s * 2 / 2)).
    { apply tanh_mono. nra. }
    set (T := tanh (s * 2 / 2)) in *. set (u := tanh (s * 2 * (x - 0.5))) in *.
    assert (-1 <= u / (2 * T) * 2 <= 1).
    { split.
      - apply Rmult_le_reg_r with T; [lra|]. field_simplify; lra.
      - apply Rmult_le_reg_r with T; [lra|]. field_simplify; lra. }
    lra.
  - assert (Ha : 0 <= Rabs (s * 2)) by apply Rabs_pos.
    set (a := Rabs (s * 2)) in *.
    assert (-0.5 <= (x - 0.5) / (1 + a) <= 0.5).
    { split.
      - apply Rmult_le_reg_r with (1 + a); [lra|]. field_simplify; nra.
      - apply Rmult_le_reg_r with (1 + a); [lra|]. field_simplify; nra. }
    lra.
Qed.

Lemma applySCurve_mono x x' s : x <= x' -> applySCurve x s <= applySCurve x' s.
Proof.
  intros Hx. unfold applySCurve, Math_tanh.
  destruct (Req_dec_T s 0); [exact Hx|].
  destruct (Rlt_dec 0 (s * 2)) as [Hf|Hf].
  - pose proof (tanh_pos (s * 2 / 2) ltac:(lra)) as HT.
    assert (H : tanh (s * 2 * (x - 0.5)) <= tanh (s * 2 * (x' - 0.5)))
      by (apply tanh_mono; nra).
    apply Rplus_le_compat_l. unfold Rdiv.
    apply Rmult_le_compat_r; [|exact H].
    left. apply Rinv_0_lt_compat. lra.
  - assert (Ha : 0 <= Rabs (s * 2)) by apply Rabs_pos.
    apply Rplus_le_compat_l. unfold Rdiv.
    apply Rmult_le_compat_r; [|lra].
    left. apply Rinv_0_lt_compat. lra.
Qed.

Lemma Math_pow_nonneg x y : 0 <= Math_pow x y.
Proof.
  unfold Math_pow. destruct (Req_dec_T y 0); [lra|].
  destruct (Req_dec_T x 0); [lra|]. left. apply exp_pos.
Qed.

Lemma Math_pow_mono x x' y : 0 <= x <= x' -> 0 < y -> Math_pow x y <= Math_pow x' y.
Proof.
  intros [H0 Hx] Hy. unfold Math_pow.
  destruct (Req_dec_T y 0); [lra|].
  destruct (Req_dec_T x 0) as [->|Hn].
  - destruct (Req_dec_T x' 0); [lra|]. left. apply exp_pos.
  - destruct (Req_dec_T x' 0); [lra|]. apply Rle_Rpower_l; lra.
Qed.

Lemma ln_nonpos x : 0 < x <= 1 -> ln x <= 0.
Proof.
  intros [H0 [H1|E]]; [|rewrite E, ln_1; lra].
  left. rewrite <- ln_1. now apply ln_increasing.
Qed.

(** An exponent of at least 1 lowers a base in [0,1]; an exponent in (0,1]
    raises it. *)
Lemma Math_pow_lowers x y : 0 <= x <= 1 -> 1 <= y -> Math_pow x y <= x.
Proof.
  intros [H0 H1] Hy. unfold Math_pow.
  destruct (Req_dec_T y 0); [lra|]. destruct (Req_dec_T x 0); [lra|].
  pose proof (ln_nonpos x ltac:(lra)) as Hl.
  rewrite <- (exp_ln x) at 2 by lra. unfold Rpower. apply exp_le. nra.
Qed.

Lemma Math_pow_raises x y : 0 <= x <= 1 -> 0 < y <= 1 -> x <= Math_pow x y.
Proof.
  intros [H0 H1] Hy. unfold Math_pow.
  destruct (Req_dec_T y 0); [lra|]. destruct (Req_dec_T x 0); [lra|].
  pose proof (ln_nonpos x ltac:(lra)) as Hl.
  rewrite <- (exp_ln x) at 1 by lra. unfold Rpower. apply exp_le. nra.
Qed.

Lemma unit_byte v : is_byte v -> 0 <= IZR v / 255 <= 1.
Proof. intros [H0 H1]. apply IZR_le in H0, H1. lra. Qed.

Lemma toneMapSample_mono b c v v' :
  -100 < b -> is_byte v -> is_byte v' -> (v <= v')%Z ->
  toneMapSample b c v <= toneMapSample b c v'.
Proof.
  intros Hb Hv Hv' Hle. unfold toneMapSample. cbv zeta.
  apply clampR_mono. apply Rmult_le_compat_r; [lra|].
  apply Math_pow_mono; [|lra]. split.
  - apply applySCurve_range. now apply unit_byte.
  - apply applySCurve_mono. apply IZR_le in Hle. lra.
Qed.

Lemma applySCurve_neutral x : applySCurve x (0 / 100) = x.
Proof. unfold applySCurve. destruct (Req_dec_T (0 / 100) 0) as [_|H]; [reflexivity|lra]. Qed.

Lemma toneMapSample_neutral v : is_byte v -> toneMapSample 0 0 v = IZR v.
Proof.
  intros Hv. unfold toneMapSample. cbv zeta. rewrite applySCurve_neutral.
  pose proof (unit_byte v Hv) as Hu.
  assert (E : Math_pow (IZR v / 255) (1 + 0 / 100) = IZR v / 255).
  { unfold Math_pow. destruct (Req_dec_T (1 + 0 / 100) 0); [lra|].
    destruct (Req_dec_T (IZR v / 255) 0) as [E|E]; [now rewrite E|].
    replace (1 + 0 / 100) with 1 by lra. apply Rpower_1. lra. }
  rewrite E. replace (IZR v / 255 * 255) with (IZR v) by field.
  now apply clampR_byte.
Qed.

Lemma toneMapSample_darker b v :
  0 <= b -> is_byte v -> toneMapSample b 0 v <= IZR v.
Proof.
  intros Hb Hv. unfold toneMapSample. cbv zeta. rewrite applySCurve_neutral.
  pose proof (unit_byte v Hv) as Hu.
  rewrite <- (clampR_byte v Hv) at 2. apply clampR_mono.
  pose proof (Math_pow_lowers (IZR v / 255) (1 + b / 100) Hu ltac:(lra)). lra.
Qed.

Lemma toneMapSample_lighter b v :
  -100 < b <= 0 -> is_byte v -> IZR v <= toneMapSample b 0 v.
Proof.
  intros Hb Hv. unfold toneMapSample. cbv zeta. rewrite applySCurve_neutral.
  pose proof (unit_byte v Hv) as Hu.
  rewrite <- (clampR_byte v Hv) at 1. apply clampR_mono.
  pose proof (Math_pow_raises (IZR v / 255) (1 + b / 100) Hu ltac:(lra)). lra.
Qed.

End ToneMappingOrder.

Section ToneMappingImage.
Import JsR.
Local Open Scope R_scope.

Lemma wf_len_mod4 img : wf_image img -> (len (data img) mod 4 = 0)%Z.
Proof. intros (_ & _ & Hlen & _). rewrite Hlen. apply Z_mod_mult. Qed.

(** X2: with brightness = 0 and contrast = 0 the tone mapper returns the
    image it is given: the pipeline's test that skips the stage for these
    settings changes no result. *)
Theorem tone_mapping_neutral img :
  wf_image img -> applyAdvancedToneMapping img 0 0 = img.
Proof.
  intros Hwf. pose proof (wf_len_mod4 img Hwf) as Hmod.
  destruct (applyAdvancedToneMapping_spec img 0 0 Hmod) as (Hl & Hrgb & Halpha).
  assert (Hd : data (applyAdvancedToneMapping img 0 0) = data img).
  { destruct Hwf as (_ & _ & Hlen & Hb).
    apply buffer_ext; [exact Hl|]. intros j Hj.
    destruct (sample_index j) as (p & c & Hp & Hc & ->); [lia|].
    destruct (Z.eq_dec c 3%Z) as [->|Hc3]; [apply Halpha|].
    assert (Hin : (4 * p + 4 <= len (data img))%Z) by (rewrite Hlen in *; lia).
    rewrite Hrgb by lia.
    rewrite toneMapSample_neutral by (now apply get_is_byte).
    apply ToUint8ClampR_IZR. now apply get_is_byte. }
  destruct img as [w h d]. unfold applyAdvancedToneMapping in *. cbv zeta in *.
  cbn [data width height] in *. now rewrite Hd.
Qed.

Lemma tone_mapping_neutral_witness : applyAdvancedToneMapping ninePixels 0 0 = ninePixels.
Proof. apply tone_mapping_neutral. apply ninePixels_wf. Defined.

(** X3: with contrast = 0, a brightness >= 0 never raises a sample and a
    brightness in (-100, 0] never lowers one: the stored sample is
    (v/255)^(1 + brightness/100) * 255. *)
Theorem brightness_direction img bright :
  wf_image img ->
  forall i, (0 <= i < len (data img))%Z ->
    (0 <= bright ->
     (get (data (applyAdvancedToneMapping img bright 0)) i <= get (data img) i)%Z) /\
    (-100 < bright <= 0 ->
     (get (data img) i <= get (data (applyAdvancedToneMapping img bright 0)) i)%Z).
Proof.
  intros Hwf i Hi. pose proof (wf_len_mod4 img Hwf) as Hmod.
  destruct (applyAdvancedToneMapping_spec img bright 0 Hmod) as (Hl & Hrgb & Halpha).
  destruct Hwf as (_ & _ & Hlen & Hb).
  destruct (sample_index i) as (p & c & Hp & Hc & ->); [lia|].
  destruct (Z.eq_dec c 3%Z) as [->|Hc3]; [rewrite Halpha; split; intros; lia|].
  assert (Hin : (4 * p + 4 <= len (data img))%Z) by (rewrite Hlen in *; lia).
  rewrite Hrgb by lia.
  pose proof (get_is_byte (data img) (4 * p + c) Hb) as Hv. split; intros Hbr.
  - apply ToUint8ClampR_le; [exact Hv|]. now apply toneMapSample_darker.
  - apply ToUint8ClampR_ge; [exact Hv|]. now apply toneMapSample_lighter.
Qed.

Lemma brightness_direction_witness :
  (get (data (applyAdvancedToneMapping ninePixels 50 0)) 16 <= get (data ninePixels) 16)%Z.
Proof.
  apply (brightness_direction ninePixels 50 ninePixels_wf 16%Z); [|lra].
  unfold len; simpl; lia.
Defined.

(** X4: for every brightness above -100 and every contrast, tone mapping
    keeps the order of samples: a sample that is not above another one in the
    input is not above it in the output. *)
Theorem tone_mapping_keeps_order img bright contr :
  wf_image img -> -100 < bright ->
  forall i j, (0 <= i < len (data img))%Z -> (0 <= j < len (data img))%Z ->
    (i mod 4 <> 3)%Z -> (j mod 4 <> 3)%Z ->
    (get (data img) i <= get (data img) j)%Z ->
    (get (data (applyAdvancedToneMapping img bright contr)) i
     <= get (data (applyAdvancedToneMapping img bright contr)) j)%Z.
Proof.
  intros Hwf Hbr i j Hi Hj Hci Hcj Hle. pose proof (wf_len_mod4 img Hwf) as Hmod.
  destruct (applyAdvancedToneMapping_spec img bright contr Hmod) as (Hl & Hrgb & Halpha).
  destruct Hwf as (_ & _ & Hlen & Hb).
  assert (Hsplit : forall k, (0 <= k < len (data img))%Z -> (k mod 4 <> 3)%Z ->
            get (data (applyAdvancedToneMapping img bright contr)) k
            = ToUint8Clamp (toneMapSample bright contr (get (data img) k))).
  { intros k Hk Hck.
    destruct (sample_index k) as (p & c & Hp & Hc & ->); [lia|].
    assert (Hm : ((4 * p + c) mod 4 = c)%Z).
    { rewrite Z.add_comm, Z.mul_comm, Z_mod_plus_full. apply Z.mod_small. lia. }
    apply Hrgb; rewrite ?Hlen in *; lia. }
  rewrite !Hsplit by assumption.
  apply ToUint8ClampR_mono. apply toneMapSample_mono; auto using get_is_byte.
Qed.

Lemma tone_mapping_keeps_order_witness :
  (get (data (applyAdvancedToneMapping ninePixels 5 15)) 0
   <= get (data (applyAdvancedToneMapping ninePixels 5 15)) 16)%Z.
Proof.
  apply (tone_mapping_keeps_order ninePixels 5 15 ninePixels_wf).
  - lra.
  - unfold len; simpl; lia.
  - unfold len; simpl; lia.
  - vm_compute; discriminate.
  - vm_compute; discriminate.
  - vm_compute; discriminate.
Defined.

End ToneMappingImage.

(** ** Gaussian blur: no sample leaves the range of its channel *)

Section BlurRange.
Import JsR.
Local Open Scope R_scope.

Lemma kernel_at_pos radius k :
  (0 <= k < kernel_size radius)%Z -> 0 < kernel_at (generateGaussianKernel radius) k.
Proof.
  intros Hk. destruct (generateGaussianKernel_spec radius) as (raw & Hl & Hw & ->).
  assert (Hpos : Forall (fun w => 0 < w) raw).
  { apply Forall_lookup_2. intros j w Hj.
    assert (j < Z.to_nat (kernel_size radius))%nat
      by (rewrite <- Hl; apply lookup_lt_is_Some; eauto).
    rewrite Hw in Hj by assumption. injection Hj as <-. apply rawWeight_pos. }
  assert (HS : 0 < sumR raw).
  { apply sumR_pos; [|exact Hpos]. intros ->. simpl in Hl. lia. }
  rewrite <- (Z2Nat.id k) by lia.
  rewrite (kernel_at_lookup _ _ (rawWeight radius (Z.of_nat (Z.to_nat k)) / sumR raw)).
  - apply Rdiv_lt_0_compat; [apply rawWeight_pos | exact HS].
  - rewrite list_lookup_fmap, Hw by lia. reflexivity.
Qed.

(** A renormalised sum of taps lies between the bounds of the taps it uses. *)
Lemma convolve_between radius (inside : Z -> bool) (tap : Z -> R) (lo hi : R) :
  let kernel := generateGaussianKernel radius in
  let kernelSize := Z.of_nat (length kernel) in
  inside 0%Z = true ->
  (forall p, inside p = true -> lo <= tap p <= hi) ->
  lo <= convolve kernel kernelSize (kernelSize / 2) inside tap <= hi.
Proof.
  intros kernel kernelSize Hc Htap. unfold convolve.
  assert (Hsz : kernelSize = kernel_size radius) by apply kernel_shape.
  pose proof (kernel_size_ge_3 radius) as H3.
  assert (Hhalf : (0 <= kernelSize / 2 < kernelSize)%Z).
  { split; [apply Z.div_pos; lia | apply Z.div_lt_upper_bound; lia]. }
  set (half := (kernelSize / 2)%Z) in *.
  match goal with |- context [for_range 0 kernelSize ?body ?init] =>
    pose proof (for_range_ind
      (fun k (acc : R * R) =>
         lo * snd acc <= fst acc <= hi * snd acc /\ 0 <= snd acc /\
         ((half < k)%Z -> 0 < snd acc))
      0%Z kernelSize body init ltac:(lia)) as H
  end.
  match type of H with ?A -> ?B -> ?C =>
    assert (HC : C); [apply H; clear H|] end.
  - simpl. split; [lra|]. split; [lra | intros; lia].
  - intros k [s ws] Hk (Hs & Hws & Hpos). simpl in Hs, Hws, Hpos.
    pose proof (kernel_at_pos radius k ltac:(lia)) as Hwk. fold kernel in Hwk.
    destruct (inside (k - half)%Z) eqn:Ein.
    + destruct (Htap _ Ein) as [T1 T2]. simpl. split; [nra|]. split; [lra | intros; lra].
    + simpl. split; [exact Hs|]. split; [exact Hws|]. intros Hlt.
      apply Hpos. destruct (Z.eq_dec k half) as [->|]; [|lia].
      rewrite Z.sub_diag in Ein. congruence.
  - destruct (for_range 0 kernelSize _ _) as [s ws].
    destruct HC as (Hs & Hws & Hpos). simpl in Hs, Hws, Hpos.
    specialize (Hpos ltac:(lia)). split.
    + apply Rmult_le_reg_r with ws; [exact Hpos|]. field_simplify; lra.
    + apply Rmult_le_reg_r with ws; [exact Hpos|]. field_simplify; lra.
Qed.

Lemma channel_within_put_other t c lo hi j0 v :
  (j0 mod 4 <> c)%Z -> channel_within t c lo hi -> channel_within (put t j0 v) c lo hi.
Proof.
  intros Hne Ht j Hj Hc. rewrite len_put in Hj.
  rewrite get_put_ne by congruence. now apply Ht.
Qed.

Lemma channel_within_put t c lo hi j0 v :
  (lo <= v <= hi)%Z -> channel_within t c lo hi -> channel_within (put t j0 v) c lo hi.
Proof.
  intros Hv Ht j Hj Hc. rewrite len_put in Hj. rewrite get_put.
  destruct (_ && _); [exact Hv | now apply Ht].
Qed.

Lemma ToUint8ClampR_between r lo hi :
  is_byte lo -> is_byte hi -> IZR lo <= r <= IZR hi ->
  (lo <= ToUint8Clamp r <= hi)%Z.
Proof.
  intros Hlo Hhi [H1 H2]. split;
    [now apply ToUint8ClampR_ge | now apply ToUint8ClampR_le].
Qed.

Lemma load_within d c lo hi j :
  channel_within d c lo hi -> (0 <= j < len d)%Z -> (j mod 4 = c)%Z ->
  IZR lo <= load d j <= IZR hi.
Proof.
  intros Hd Hj Hc. destruct (Hd j Hj Hc) as [H1 H2]. unfold load.
  split; now apply IZR_le.
Qed.

Lemma sample_mod w x y c : (0 <= c < 4)%Z -> (((y * w + x) * 4 + c) mod 4 = c)%Z.
Proof. intros Hc. rewrite Z.add_comm, Z_mod_plus_full. now apply Z.mod_small. Qed.

(** One pass of the blur keeps channel [c] within its bounds. *)
Lemma blur_pass_within (src : buffer) w h c lo hi radius (horizontal : bool) t0 :
  (0 <= w)%Z -> (0 <= h)%Z -> len src = (w * h * 4)%Z ->
  (0 <= c < 3)%Z -> is_byte lo -> is_byte hi ->
  channel_within src c lo hi ->
  length t0 = length src -> channel_within t0 c lo hi ->
  let kernel := generateGaussianKernel radius in
  let kernelSize := Z.of_nat (length kernel) in
  let out :=
    for_range 0 h (fun y t =>
      for_range 0 w (fun x t =>
        store
          (for_range 0 3 (fun c' t =>
             store t ((y * w + x) * 4 + c')
               (convolve kernel kernelSize (kernelSize / 2)
                  (if horizontal
                   then fun p => (0 <=? x + p)%Z && (x + p <? w)%Z
                   else fun p => (0 <=? y + p)%Z && (y + p <? h)%Z)
                  (if horizontal
                   then fun p => load src ((y * w + (x + p)) * 4 + c')
                   else fun p => load src (((y + p) * w + x) * 4 + c')))) t)
          ((y * w + x) * 4 + 3) (load src ((y * w + x) * 4 + 3))) t) t0 in
  length out = length src /\ channel_within out c lo hi.
Proof.
  intros Hw Hh Hlen Hc Hlo Hhi Hsrc Hl0 Ht0 kernel kernelSize out. subst out.
  apply (for_range_inv (fun t => length t = length src /\ channel_within t c lo hi));
    [now split|].
  intros y t Hy Ht. apply for_range_inv; [exact Ht|]. clear t Ht.
  intros x t Hx [Hl Ht]. unfold store at 1. split.
  { rewrite length_put.
    apply (for_range_inv (fun t => length t = length src)); [exact Hl|].
    intros c' t' _ Hl'. unfold store. now rewrite length_put. }
  apply channel_within_put_other; [rewrite sample_mod; lia|].
  apply (for_range_inv (fun t => channel_within t c lo hi)); [exact Ht|].
  intros c' t' Hc' Ht'. unfold store.
  destruct (Z.eq_dec c' c) as [->|Hne];
    [|apply channel_within_put_other; [rewrite sample_mod; lia | exact Ht']].
  apply channel_within_put; [|exact Ht'].
  apply ToUint8ClampR_between; [exact Hlo | exact Hhi |].
  apply convolve_between.
  - destruct horizontal; rewrite Z.add_0_r; apply andb_true_intro;
      split; [apply Z.leb_le | apply Z.ltb_lt | apply Z.leb_le | apply Z.ltb_lt]; lia.
  - intros p Hp. destruct horizontal;
      apply andb_prop in Hp as [Hp1 Hp2];
      apply Z.leb_le in Hp1; apply Z.ltb_lt in Hp2;
      (apply (load_within src c lo hi); [exact Hsrc | | apply sample_mod; lia]);
      rewrite Hlen; nia.
Qed.

End BlurRange.

Section BlurClaims.
Import JsR.
Local Open Scope R_scope.

Lemma gaussianBlur_within img radius c lo hi :
  wf_image img -> (0 <= c < 3)%Z -> is_byte lo -> is_byte hi ->
  channel_within (data img) c lo hi ->
  channel_within (data (gaussianBlur img (width img) (height img) radius)) c lo hi.
Proof.
  intros (Hw & Hh & Hlen & Hb) Hc Hlo Hhi Hsrc.
  unfold gaussianBlur. cbv zeta. cbn [data].
  pose proof (blur_pass_within (data img) (width img) (height img) c lo hi radius true
                (data img) Hw Hh Hlen Hc Hlo Hhi Hsrc eq_refl Hsrc) as P1.
  cbv zeta iota beta in P1. destruct P1 as [Hl1 Hc1].
  match type of Hc1 with channel_within ?T _ _ _ =>
    pose proof (blur_pass_within T (width img) (height img) c lo hi radius false
                  (data img) Hw Hh) as P2
  end.
  cbv zeta iota beta in P2. apply P2; auto.
  unfold len in *. now rewrite Hl1.
Qed.

(** X5: the Gaussian blur never takes a sample out of the range of its
    channel: if every sample of colour channel c of the input lies in
    [lo, hi], so does every sample of that channel of the output, for every
    radius of at least 1/1000 (at radius 0, and where 2*sigma*sigma
    underflows to 0 in doubles, the kernel of the source is NaN). *)
Theorem gaussian_blur_keeps_range img radius c lo hi :
  1 / 1000 <= radius ->
  wf_image img -> (0 <= c < 3)%Z -> is_byte lo -> is_byte hi ->
  channel_within (data img) c lo hi ->
  channel_within (data (gaussianBlur img (width img) (height img) radius)) c lo hi.
Proof. intros _. exact (gaussianBlur_within img radius c lo hi). Qed.

Lemma gaussian_blur_keeps_range_witness :
  channel_within (data (gaussianBlur ninePixels 3 3 2)) 0 0 255.
Proof.
  apply (gaussian_blur_keeps_range ninePixels 2 0 0 255 ltac:(lra) ninePixels_wf);
    try (unfold is_byte; lia).
  intros j _ _. apply get_is_byte. apply ninePixels_wf.
Defined.

Lemma uniform_channel img c :
  wf_image img -> uniform img -> (0 <= c < 4)%Z ->
  channel_within (data img) c (get (data img) c) (get (data img) c).
Proof.
  intros (Hw & Hh & Hlen & Hb) Hu Hc j Hj Hm.
  destruct (sample_index j) as (p & c' & Hp & Hc' & ->); [lia|].
  assert (c' = c).
  { rewrite Z.add_comm, Z.mul_comm, Z_mod_plus_full, Z.mod_small in Hm; lia. }
  subst c'. rewrite Hu; [lia | rewrite Hlen in Hj; lia | lia].
Qed.

(** A buffer that keeps the alpha samples and the range of every colour
    channel of a uniform image is that image. *)
Lemma uniform_fixed img (out : buffer) :
  wf_image img -> uniform img -> kept (data img) out ->
  (forall c lo hi, (0 <= c < 3)%Z -> is_byte lo -> is_byte hi ->
     channel_within (data img) c lo hi -> channel_within out c lo hi) ->
  out = data img.
Proof.
  intros Hwf Hu (Hl & Ha & _) Hr. pose proof Hwf as (Hw & Hh & Hlen & Hb).
  apply buffer_ext; [exact Hl|]. intros j Hj.
  destruct (Z.eq_dec (j mod 4) 3%Z) as [E|E]; [now apply Ha|].
  pose proof (Z.mod_pos_bound j 4 ltac:(lia)) as Hm.
  pose proof (Hr (j mod 4)%Z (get (data img) (j mod 4)) (get (data img) (j mod 4))
                ltac:(lia) (get_is_byte _ _ Hb) (get_is_byte _ _ Hb)
                (uniform_channel img (j mod 4) Hwf Hu ltac:(lia))) as Hc.
  assert (Hj' : (0 <= j < len out)%Z) by (unfold len in *; rewrite Hl; exact Hj).
  specialize (Hc j Hj' eq_refl).
  pose proof (uniform_channel img (j mod 4) Hwf Hu ltac:(lia) j Hj eq_refl). lia.
Qed.

Lemma gaussianBlur_uniform img radius :
  wf_image img -> uniform img ->
  data (gaussianBlur img (width img) (height img) radius) = data img.
Proof.
  intros Hwf Hu. apply uniform_fixed; [exact Hwf | exact Hu | |].
  - apply gaussianBlur_kept. apply Hwf.
  - intros c lo hi. now apply gaussianBlur_within.
Qed.

(** X6: blurring a uniform-colour image returns that image, alpha included,
    for every radius of at least 1/1000. *)
Theorem gaussian_blur_uniform img radius :
  1 / 1000 <= radius ->
  wf_image img -> uniform img ->
  data (gaussianBlur img (width img) (height img) radius) = data img.
Proof. intros _. exact (gaussianBlur_uniform img radius). Qed.

Lemma uniformFour_wf : wf_image uniformFour.
Proof.
  unfold wf_image, uniformFour, len; simpl. repeat split; try lia.
  repeat constructor; unfold is_byte; lia.
Qed.

Lemma uniformFour_uniform : uniform uniformFour.
Proof.
  intros p c Hp Hc. simpl in Hp.
  assert (Hpp : (p = 0 \/ p = 1 \/ p = 2 \/ p = 3)%Z) by lia.
  assert (Hcc : (c = 0 \/ c = 1 \/ c = 2 \/ c = 3)%Z) by lia.
  destruct Hpp as [E|[E|[E|E]]]; subst p;
    destruct Hcc as [E|[E|[E|E]]]; subst c; reflexivity.
Qed.

Lemma gaussian_blur_uniform_witness :
  data (gaussianBlur uniformFour 2 2 2) = data uniformFour.
Proof.
  exact (gaussian_blur_uniform uniformFour 2 ltac:(lra)
           uniformFour_wf uniformFour_uniform).
Defined.

Lemma applyUnsharpMask_uniform img amount radius threshold :
  wf_image img -> uniform img ->
  data (applyUnsharpMask img (width img) (height img) amount radius threshold)
  = data img.
Proof.
  intros Hwf Hu. pose proof Hwf as (_ & _ & _ & Hb).
  unfold applyUnsharpMask. cbv zeta. cbn [data].
  rewrite (gaussianBlur_uniform img radius Hwf Hu).
  apply (for_step_inv (fun out => out = data img)); [lia | reflexivity |].
  intros i out _ _ ->.
  assert (Hsame : forall j, store (data img) j (load (data img) j) = data img).
  { intros j. unfold store, load.
    rewrite ToUint8ClampR_IZR by (now apply get_is_byte). apply put_same. }
  match goal with |- store ?inner _ _ = _ => assert (Hrgb : inner = data img) end.
  { apply (for_range_inv (fun out => out = data img)); [reflexivity|].
    intros c out Hc ->.
    set (o := load (data img) (i + c)).
    assert (Ho : Rmin 255 (Rmax 0 (o + (o - o) * amount)) = o).
    { replace (o + (o - o) * amount) with o by ring. unfold o, load.
      apply clampR_byte. now apply get_is_byte. }
    rewrite Ho. destruct (Rlt_dec _ _); apply Hsame. }
  rewrite Hrgb. apply Hsame.
Qed.

(** X7: the unsharp mask returns a uniform-colour image unchanged, for every
    amount and threshold and every radius of at least 1/1000: the difference
    to the blurred image is 0. *)
Theorem unsharp_mask_uniform img amount radius threshold :
  1 / 1000 <= radius ->
  wf_image img -> uniform img ->
  data (applyUnsharpMask img (width img) (height img) amount radius threshold)
  = data img.
Proof. intros _. exact (applyUnsharpMask_uniform img amount radius threshold). Qed.

Lemma unsharp_mask_uniform_witness :
  data (applyUnsharpMask uniformFour 2 2 3 2 2) = data uniformFour.
Proof.
  exact (unsharp_mask_uniform uniformFour 3 2 2 ltac:(lra)
           uniformFour_wf uniformFour_uniform).
Defined.

(** X8: the detail enhancer returns a uniform-colour image unchanged. *)
Theorem enhance_details_uniform img :
  wf_image img -> uniform img ->
  data (enhanceDetails img (width img) (height img)) = data img.
Proof.
  intros Hwf Hu. pose proof Hwf as (_ & _ & _ & Hb).
  unfold enhanceDetails. cbv zeta. cbn [data].
  rewrite (gaussianBlur_uniform img 2 Hwf Hu).
  apply (for_step_inv (fun out => out = data img)); [lia | reflexivity |].
  intros i out _ _ ->.
  apply (for_range_inv (fun out => out = data img)); [reflexivity|].
  intros c out Hc ->.
  set (o := load (data img) (i + c)).
  assert (Ho : Rmin 255 (Rmax 0 (o + (o - o) * 0.8)) = o).
  { replace (o + (o - o) * 0.8) with o by ring. unfold o, load.
    apply clampR_byte. now apply get_is_byte. }
  rewrite Ho. unfold store, o, load.
  rewrite ToUint8ClampR_IZR by (now apply get_is_byte). apply put_same.
Qed.

Lemma enhance_details_uniform_witness :
  data (enhanceDetails uniformFour 2 2) = data uniformFour.
Proof.
  exact (enhance_details_uniform uniformFour uniformFour_wf uniformFour_uniform).
Defined.

End BlurClaims.

(** ** Bilateral filter: no sample leaves the range of its channel *)

Section BilateralRange.
Import JsR.
Local Open Scope R_scope.

Lemma bilateralWeight_pos spatialSigma intensitySigma dx dy cv pv :
  0 < bilateralWeight spatialSigma intensitySigma dx dy cv pv.
Proof.
  unfold bilateralWeight, Math_exp. cbv zeta. apply Rmult_lt_0_compat; apply exp_pos.
Qed.

Lemma channel_within_put_inside t c lo hi j0 v :
  ((0 <= j0 < len t)%Z -> (lo <= v <= hi)%Z) ->
  channel_within t c lo hi -> channel_within (put t j0 v) c lo hi.
Proof.
  intros Hv Ht. destruct (Z_le_dec 0 j0) as [H0|H0];
    [|rewrite put_out_of_range by lia; exact Ht].
  destruct (Z_lt_dec j0 (len t)) as [H1|H1];
    [|rewrite put_out_of_range by lia; exact Ht].
  apply channel_within_put; auto.
Qed.

Lemma bilateralSample_between d w h spatialSigma intensitySigma radius x y c lo hi :
  len d = (w * h * 4)%Z -> (0 <= c < 3)%Z ->
  channel_within d c lo hi ->
  (0 <= (y * w + x) * 4 + c < len d)%Z ->
  (radius <= x < w - radius)%Z -> (radius <= y < h - radius)%Z ->
  IZR lo <= bilateralSample d w spatialSigma intensitySigma radius x y c <= IZR hi.
Proof.
  intros Hlen Hc Hd Hidx Hx Hy. unfold bilateralSample. cbv zeta.
  pose proof (load_within d c lo hi _ Hd Hidx (sample_mod w x y c ltac:(lia))) as Hcv.
  match goal with |- context [for_range (- radius) (radius + 1) ?body ?init] =>
    assert (Hacc : IZR lo * snd (for_range (- radius) (radius + 1) body init)
                   <= fst (for_range (- radius) (radius + 1) body init)
                   <= IZR hi * snd (for_range (- radius) (radius + 1) body init)
                   /\ 0 <= snd (for_range (- radius) (radius + 1) body init))
  end.
  { apply (for_range_inv (fun acc : R * R =>
      IZR lo * snd acc <= fst acc <= IZR hi * snd acc /\ 0 <= snd acc)); [simpl; lra|].
    intros dy acc Hdy Hacc. apply for_range_inv; [exact Hacc|]. clear acc Hacc.
    intros dx [s ws] Hdx [Hs Hws]. simpl in Hs, Hws.
    pose proof (bilateralWeight_pos spatialSigma intensitySigma dx dy
                  (load d ((y * w + x) * 4 + c))
                  (load d (((y + dy) * w + (x + dx)) * 4 + c))) as Hwt.
    assert (Hin : (0 <= ((y + dy) * w + (x + dx)) * 4 + c < len d)%Z)
      by (rewrite Hlen; nia).
    pose proof (load_within d c lo hi _ Hd Hin
                  (sample_mod w (x + dx) (y + dy) c ltac:(lia))) as Hpv.
    simpl. split; [nra | lra]. }
  destruct (for_range (- radius) (radius + 1) _ _) as [s ws].
  simpl in Hacc. destruct Hacc as [Hs Hws].
  destruct (Rlt_dec 0 ws) as [Hpos|_]; [|exact Hcv]. split.
  - apply Rmult_le_reg_r with ws; [exact Hpos|]. field_simplify; lra.
  - apply Rmult_le_reg_r with ws; [exact Hpos|]. field_simplify; lra.
Qed.

Lemma applyBilateralFilter_within img spatialSigma intensitySigma c lo hi :
  wf_image img -> (0 <= c < 3)%Z -> is_byte lo -> is_byte hi ->
  channel_within (data img) c lo hi ->
  channel_within
    (data (applyBilateralFilter img (width img) (height img) spatialSigma intensitySigma))
    c lo hi.
Proof.
  intros (Hw & Hh & Hlen & Hb) Hc Hlo Hhi Hsrc.
  unfold applyBilateralFilter. cbv zeta. cbn [data].
  apply (for_range_inv (fun t => length t = length (data img) /\ channel_within t c lo hi));
    [now split|].
  intros y t Hy Ht. apply for_range_inv; [exact Ht|]. clear t Ht.
  intros x t Hx [Hl Ht]. unfold store at 1. split.
  { rewrite length_put.
    apply (for_range_inv (fun t => length t = length (data img))); [exact Hl|].
    intros c' t' _ Hl'. unfold store. now rewrite length_put. }
  apply channel_within_put_other; [rewrite sample_mod; lia|].
  assert (Hboth : length (for_range 0 3 (fun c' t =>
                     store t ((y * width img + x) * 4 + c')
                       (bilateralSample (data img) (width img) spatialSigma intensitySigma
                          (Math_ceil (spatialSigma * 2)) x y c')) t)
                  = length (data img) /\
                  channel_within (for_range 0 3 (fun c' t =>
                     store t ((y * width img + x) * 4 + c')
                       (bilateralSample (data img) (width img) spatialSigma intensitySigma
                          (Math_ceil (spatialSigma * 2)) x y c')) t) c lo hi).
  { apply (for_range_inv (fun t => length t = length (data img)
                                   /\ channel_within t c lo hi)); [now split|].
    intros c' t' Hc' [Hl' Ht']. unfold store. split; [now rewrite length_put|].
    destruct (Z.eq_dec c' c) as [->|Hne];
      [|apply channel_within_put_other; [rewrite sample_mod; lia | exact Ht']].
    apply channel_within_put_inside; [|exact Ht']. intros Hidx.
    apply ToUint8ClampR_between; [exact Hlo | exact Hhi |].
    apply (bilateralSample_between _ _ (height img)); auto.
    unfold len in *. rewrite <- Hl'. exact Hidx. }
  apply Hboth.
Qed.

(** X9: the bilateral filter never takes a sample out of the range of its
    channel: if every sample of colour channel c of the input lies in
    [lo, hi], so does every sample of that channel of the output, for every
    spatialSigma and intensitySigma. *)
Theorem bilateral_keeps_range img spatialSigma intensitySigma c lo hi :
  wf_image img -> (0 <= c < 3)%Z -> is_byte lo -> is_byte hi ->
  channel_within (data img) c lo hi ->
  channel_within
    (data (applyBilateralFilter img (width img) (height img) spatialSigma intensitySigma))
    c lo hi.
Proof. exact (applyBilateralFilter_within img spatialSigma intensitySigma c lo hi). Qed.

Lemma bilateral_keeps_range_witness :
  channel_within (data (applyBilateralFilter ninePixels 3 3 (1 / 2) 25)) 0 0 255.
Proof.
  apply (bilateral_keeps_range ninePixels (1 / 2) 25 0 0 255 ninePixels_wf);
    try (unfold is_byte; lia).
  intros j _ _. apply get_is_byte. apply ninePixels_wf.
Defined.

Lemma applyBilateralFilter_uniform img spatialSigma intensitySigma :
  wf_image img -> uniform img ->
  data (applyBilateralFilter img (width img) (height img) spatialSigma intensitySigma)
  = data img.
Proof.
  intros Hwf Hu. apply uniform_fixed; [exact Hwf | exact Hu | |].
  - apply applyBilateralFilter_kept. apply Hwf.
  - intros c lo hi. now apply applyBilateralFilter_within.
Qed.

(** X10: the bilateral filter returns a uniform-colour image unchanged, for
    every spatialSigma and intensitySigma. *)
Theorem bilateral_uniform img spatialSigma intensitySigma :
  wf_image img -> uniform img ->
  data (applyBilateralFilter img (width img) (height img) spatialSigma intensitySigma)
  = data img.
Proof. exact (applyBilateralFilter_uniform img spatialSigma intensitySigma). Qed.

Lemma uniformNine_wf : wf_image uniformNine.
Proof.
  unfold wf_image, uniformNine, len; simpl. repeat split; try lia.
  repeat constructor; unfold is_byte; lia.
Qed.

Lemma uniformNine_uniform : uniform uniformNine.
Proof.
  intros p c Hp Hc. simpl in Hp.
  assert (Hcc : (c = 0 \/ c = 1 \/ c = 2 \/ c = 3)%Z) by lia.
  assert (Hpp : (p = 0 \/ p = 1 \/ p = 2 \/ p = 3 \/ p = 4 \/ p = 5 \/ p = 6
                 \/ p = 7 \/ p = 8)%Z) by lia.
  destruct Hcc as [E|[E|[E|E]]]; subst c;
    repeat (destruct Hpp as [E|Hpp]; [subst p; reflexivity|]); subst p; reflexivity.
Qed.

(** The centre pixel of the 3 by 3 image is filtered at radius
    ceil(2 * 1/2) = 1. *)
Lemma bilateral_uniform_witness :
  data (applyBilateralFilter uniformNine 3 3 (1 / 2) 25) = data uniformNine.
Proof.
  exact (bilateral_uniform uniformNine (1 / 2) 25 uniformNine_wf uniformNine_uniform).
Defined.

End BilateralRange.

(** ** The pipelines: what a run reports and returns *)

Section PipelineOutcome.
Import JsQ.

(** X11: the full-quality pipeline reports 100 exactly when it resolves; a
    run that rejects has reported nothing (the image did not load, or there
    is no canvas context) or only 10 (the scaled size is zero). *)
Theorem progress_100_iff_resolved canvas file settings :
  (In 100 (fst (processImage canvas file settings))
   <-> exists raster, snd (processImage canvas file settings) = Resolved raster) /\
  (forall reason, snd (processImage canvas file settings) = Rejected reason ->
     fst (processImage canvas file settings) = []
     \/ fst (processImage canvas file settings) = [10]).
Proof.
  unfold processImage. destruct file as [img|].
  2:{ simpl. split; [split; [tauto | intros [r Hr]; discriminate] | auto]. }
  destruct (contextAvailable canvas); cbn [negb].
  2:{ simpl. split; [split; [tauto | intros [r Hr]; discriminate] | auto]. }
  cbv zeta. destruct (_ || _).
  { simpl. split; [split; [intros [H|[]]; discriminate | intros [r Hr]; discriminate]
                  | auto]. }
  destruct (positive (denoising settings)), (useAI settings),
    (nonzero (brightness settings) || nonzero (contrast settings)),
    (nonzero (saturation settings)), (positive (sharpening settings));
    cbn [fst snd app]; (split; [split; [intros _; eexists; reflexivity
                                       | intros _; simpl; tauto]
                               | intros reason Hr; discriminate]).
Qed.

Lemma progress_100_iff_resolved_witness :
  In 100 (fst (processImage nearestCanvas (Some onePixel) neutralSettings)).
Proof.
  apply (proj2 (proj1 (progress_100_iff_resolved nearestCanvas (Some onePixel)
                         neutralSettings))).
  eexists. reflexivity.
Defined.

End PipelineOutcome.

Section PipelineFrame.
Import JsQ.

Lemma framed_start w h d : framed w h d (mkImageData w h d).
Proof. repeat split; auto. Qed.

Lemma framed_bilateral w h d r a b :
  framed w h d r -> framed w h d (applyBilateralFilter r w h a b).
Proof.
  intros (Hw & Hh & Hk). split; [reflexivity | split; [reflexivity |]].
  intros Hb. specialize (Hk Hb).
  apply (kept_trans _ _ _ Hk), applyBilateralFilter_kept, Hk.
Qed.

Lemma framed_tone w h d r b c :
  framed w h d r -> framed w h d (applyAdvancedToneMapping r b c).
Proof.
  intros (Hw & Hh & Hk). split; [first [reflexivity | exact Hw] | split; [first [reflexivity | exact Hh] |]].
  intros Hb. specialize (Hk Hb). apply (kept_trans _ _ _ Hk), applyAdvancedToneMapping_kept, Hk.
Qed.

Lemma framed_saturation w h d r s :
  framed w h d r -> framed w h d (applyAdvancedSaturation r s).
Proof.
  intros (Hw & Hh & Hk). split; [first [reflexivity | exact Hw] | split; [first [reflexivity | exact Hh] |]].
  intros Hb. specialize (Hk Hb). apply (kept_trans _ _ _ Hk), applyAdvancedSaturation_kept, Hk.
Qed.

Lemma framed_unsharp w h d r a rad t :
  framed w h d r -> framed w h d (applyUnsharpMask r w h a rad t).
Proof.
  intros (Hw & Hh & Hk). split; [first [reflexivity | exact Hw] | split; [first [reflexivity | exact Hh] |]].
  intros Hb. specialize (Hk Hb). apply (kept_trans _ _ _ Hk), applyUnsharpMask_kept, Hk.
Qed.

Lemma framed_clahe w h d r : framed w h d r -> framed w h d (applyCLAHE r w h).
Proof.
  intros (Hw & Hh & Hk). split; [first [reflexivity | exact Hw] | split; [first [reflexivity | exact Hh] |]].
  intros Hb. specialize (Hk Hb). apply (kept_trans _ _ _ Hk), applyCLAHE_kept, Hk.
Qed.

Lemma framed_details w h d r : framed w h d r -> framed w h d (enhanceDetails r w h).
Proof.
  intros (Hw & Hh & Hk). split; [first [reflexivity | exact Hw] | split; [first [reflexivity | exact Hh] |]].
  intros Hb. specialize (Hk Hb). apply (kept_trans _ _ _ Hk), enhanceDetails_kept, Hk.
Qed.

Lemma framed_colors w h d r : framed w h d r -> framed w h d (enhanceColors r).
Proof.
  intros (Hw & Hh & Hk). split; [first [reflexivity | exact Hw] | split; [first [reflexivity | exact Hh] |]].
  intros Hb. specialize (Hk Hb). apply (kept_trans _ _ _ Hk), enhanceColors_kept, Hk.
Qed.

Lemma framed_ai w h d r :
  framed w h d r -> framed w h d (applyAdvancedAIEnhancement r w h).
Proof.
  intros H. unfold applyAdvancedAIEnhancement.
  now apply framed_colors, framed_details, framed_clahe, framed_bilateral.
Qed.

Ltac framed_stages :=
  repeat match goal with
  | |- framed _ _ _ (applyAdvancedAIEnhancement _ _ _) => apply framed_ai
  | |- framed _ _ _ (applyUnsharpMask _ _ _ _ _ _) => apply framed_unsharp
  | |- framed _ _ _ (applyAdvancedSaturation _ _) => apply framed_saturation
  | |- framed _ _ _ (applyAdvancedToneMapping _ _ _) => apply framed_tone
  | |- framed _ _ _ (applyBilateralFilter _ _ _ _ _) => apply framed_bilateral
  | |- framed _ _ _ (mkImageData _ _ _) => apply framed_start
  end.

Lemma processImageRealtime_framed canvas img settings r :
  processImageRealtime canvas (Some img) settings = Resolved r ->
  let w := fst (previewSize img) in
  let h := snd (previewSize img) in
  w <> 0 /\ h <> 0 /\ framed w h (drawImage canvas img w h) r.
Proof.
  unfold processImageRealtime, previewSize. cbv zeta. cbn [fst snd].
  set (w := Math_floor _). set (h := Math_floor _).
  destruct (contextAvailable canvas); cbn [negb]; [|discriminate].
  destruct (Z.eqb_spec w 0) as [|Hw]; [discriminate|].
  destruct (Z.eqb_spec h 0) as [|Hh]; [discriminate|]. cbn [orb].
  intros E. split; [exact Hw | split; [exact Hh |]].
  destruct (positive (denoising settings)), (useAI settings),
    (nonzero (brightness settings) || nonzero (contrast settings)),
    (nonzero (saturation settings)), (positive (sharpening settings));
    injection E as <-; framed_stages.
Qed.

Lemma processImage_framed canvas img settings r :
  snd (processImage canvas (Some img) settings) = Resolved r ->
  let w := fst (finalSize img) in
  let h := snd (finalSize img) in
  w <> 0 /\ h <> 0 /\ framed w h (drawImage canvas img w h) r.
Proof.
  unfold processImage, finalSize. cbv zeta. cbn [fst snd].
  set (w := Math_floor _). set (h := Math_floor _).
  destruct (contextAvailable canvas); cbn [negb]; [|discriminate].
  destruct (Z.eqb_spec w 0) as [|Hw]; [discriminate|].
  destruct (Z.eqb_spec h 0) as [|Hh]; [discriminate|]. cbn [orb].
  intros E. split; [exact Hw | split; [exact Hh |]].
  destruct (positive (denoising settings)), (useAI settings),
    (nonzero (brightness settings) || nonzero (contrast settings)),
    (nonzero (saturation settings)), (positive (sharpening settings));
    cbn [snd] in E; injection E as <-; framed_stages.
Qed.

End PipelineFrame.

Section PipelineSizes.
Import JsQ.

(** X12: whichever pipeline resolves, for every settings record: when the
    canvas read-back at the result's size is a buffer of width*height*4
    bytes, the result holds width*height*4 bytes and every pixel has the
    alpha sample the canvas returned for it. *)
Theorem pipelines_keep_frame canvas img settings r :
  processImageRealtime canvas (Some img) settings = Resolved r
  \/ snd (processImage canvas (Some img) settings) = Resolved r ->
  let drawn := mkImageData (width r) (height r)
                 (drawImage canvas img (width r) (height r)) in
  wf_image drawn ->
  wf_image r /\ alpha_preserved drawn r.
Proof.
  intros Hrun drawn Hwf.
  assert (Hk : kept (data drawn) (data r)).
  { destruct Hwf as (_ & _ & _ & Hb). cbn [data] in *. destruct Hrun as [E|E].
    - destruct (processImageRealtime_framed _ _ _ _ E) as (_ & _ & Ew & Eh & Hk).
      rewrite <- Ew, <- Eh in Hk. auto.
    - destruct (processImage_framed _ _ _ _ E) as (_ & _ & Ew & Eh & Hk).
      rewrite <- Ew, <- Eh in Hk. auto. }
  split.
  - destruct Hwf as (Hw & Hh & Hl & Hb). cbn [width height data] in *.
    destruct Hk as (L & A & B). repeat split; try assumption.
    unfold len in *. now rewrite L.
  - now apply kept_alpha_preserved.
Qed.

Lemma nearestNine_wf : wf_image (mkImageData 3 3 (drawImage nearestCanvas ninePixels 3 3)).
Proof.
  assert (E : drawImage nearestCanvas ninePixels 3 3 = data ninePixels)
    by (vm_compute; reflexivity).
  rewrite E. exact ninePixels_wf.
Qed.

(** The real-time pipeline with every stage on (the default settings of the
    controls) on the 3 by 3 image. *)
Lemma pipelines_keep_frame_witness :
  let drawn := mkImageData 3 3 (drawImage nearestCanvas ninePixels 3 3) in
  let denoised :=
    applyBilateralFilter drawn 3 3
      (Q2R (2 + (30 / 100) * 3)) (Q2R (15 + (30 / 100) * 35)) in
  let toned := applyAdvancedToneMapping denoised (Q2R 5) (Q2R 15) in
  let saturated := applyAdvancedSaturation toned 10 in
  let sharpened :=
    applyUnsharpMask saturated 3 3
      (Q2R ((1 # 2) + (40 / 100) * 2)) (Q2R (1 + (40 / 100) * (3 # 2))) 3%R in
  let r := applyAdvancedAIEnhancement sharpened 3 3 in
  wf_image r /\ alpha_preserved drawn r.
Proof.
  intros drawn denoised toned saturated sharpened r.
  exact (pipelines_keep_frame nearestCanvas ninePixels (mkSettings 40 30 5 15 10 true) r
           (or_introl eq_refl) nearestNine_wf).
Defined.

End PipelineSizes.

Section Sizes.
Import JsQ.
Local Open Scope Q_scope.

Lemma Math_min_l x y : Math_min x y <= x.
Proof. unfold Math_min. destruct (Qlt_le_dec y x); lra. Qed.

Lemma Math_min_r x y : Math_min x y <= y.
Proof. unfold Math_min. destruct (Qlt_le_dec y x); lra. Qed.

Lemma Math_min_glb x y z : z <= x -> z <= y -> z <= Math_min x y.
Proof. unfold Math_min. destruct (Qlt_le_dec y x); lra. Qed.

Lemma Math_floor_le q (n : Z) : q <= inject_Z n -> (Math_floor q <= n)%Z.
Proof.
  intros H. unfold Math_floor. rewrite <- (Qfloor_Z n). now apply Qfloor_resp_le.
Qed.

Lemma Math_floor_whole q (n : Z) : q == inject_Z n -> Math_floor q = n.
Proof. intros H. unfold Math_floor. rewrite H. apply Qfloor_Z. Qed.

Lemma ratio_le (a : Q) (n m : Z) :
  0 <= a -> (0 < n <= m)%Z -> inject_Z n * (a / inject_Z m) <= a.
Proof.
  intros Ha [Hn Hm].
  assert (Hn' : 0 < inject_Z n) by (change 0 with (inject_Z 0); now rewrite <- Zlt_Qlt).
  assert (Hm' : inject_Z n <= inject_Z m) by now rewrite <- Zle_Qle.
  assert (E : inject_Z n * (a / inject_Z m) == a * inject_Z n / inject_Z m)
    by (field; lra).
  rewrite E. apply Qle_shift_div_r; [lra | nra].
Qed.

Lemma ratio_ge (a : Q) (k : Q) (m : Z) :
  (0 < m)%Z -> k * inject_Z m <= a -> k <= a / inject_Z m.
Proof.
  intros Hm H.
  assert (Hm' : 0 < inject_Z m) by (change 0 with (inject_Z 0); now rewrite <- Zlt_Qlt).
  now apply Qle_shift_div_l.
Qed.

Local Open Scope Z_scope.

Lemma previewSize_bounds img :
  0 < width img -> 0 < height img ->
  let w := fst (previewSize img) in
  let h := snd (previewSize img) in
  0 <= w <= Z.min 800 (width img) /\
  0 <= h <= Z.min 800 (height img) /\
  (width img <= 800 -> height img <= 800 -> w = width img /\ h = height img).
Proof.
  intros Hw Hh. unfold previewSize. cbv zeta. cbn [fst snd].
  set (a := (800 / inject_Z (width img))%Q). set (b := (800 / inject_Z (height img))%Q).
  set (scale := Math_min (Math_min a b) 1).
  assert (Qw : (0 < inject_Z (width img))%Q)
    by (change 0%Q with (inject_Z 0); now rewrite <- Zlt_Qlt).
  assert (Qh : (0 < inject_Z (height img))%Q)
    by (change 0%Q with (inject_Z 0); now rewrite <- Zlt_Qlt).
  assert (S1 : (scale <= 1)%Q) by apply Math_min_r.
  assert (Sa : (scale <= a)%Q).
  { eapply Qle_trans; [apply Math_min_l|]. apply Math_min_l. }
  assert (Sb : (scale <= b)%Q).
  { eapply Qle_trans; [apply Math_min_l|]. apply Math_min_r. }
  assert (S0 : (0 <= scale)%Q).
  { apply Math_min_glb; [apply Math_min_glb|]; try lra.
    - apply ratio_ge; [assumption | lra].
    - apply ratio_ge; [assumption | lra]. }
  assert (Wa : (inject_Z (width img) * a <= 800)%Q).
  { apply (ratio_le 800); [lra | lia]. }
  assert (Hb' : (inject_Z (height img) * b <= 800)%Q).
  { apply (ratio_le 800); [lra | lia]. }
  assert (W0 : 0 <= Math_floor (inject_Z (width img) * scale)).
  { unfold Math_floor. rewrite <- (Qfloor_Z 0). apply Qfloor_resp_le.
    change (inject_Z 0) with 0%Q. nra. }
  assert (H0 : 0 <= Math_floor (inject_Z (height img) * scale)).
  { unfold Math_floor. rewrite <- (Qfloor_Z 0). apply Qfloor_resp_le.
    change (inject_Z 0) with 0%Q. nra. }
  assert (W1 : Math_floor (inject_Z (width img) * scale) <= width img).
  { apply Math_floor_le. nra. }
  assert (W2 : Math_floor (inject_Z (width img) * scale) <= 800).
  { apply Math_floor_le. change (inject_Z 800) with 800%Q. nra. }
  assert (H1 : Math_floor (inject_Z (height img) * scale) <= height img).
  { apply Math_floor_le. nra. }
  assert (H2 : Math_floor (inject_Z (height img) * scale) <= 800).
  { apply Math_floor_le. change (inject_Z 800) with 800%Q. nra. }
  split; [lia | split; [lia |]].
  intros Lw Lh.
  assert (Es : (scale == 1)%Q).
  { apply Qle_antisym; [exact S1|].
    apply Math_min_glb; [apply Math_min_glb|]; try lra.
    - apply ratio_ge; [assumption|].
      change 800%Q with (inject_Z 800). rewrite Qmult_1_l, <- Zle_Qle. lia.
    - apply ratio_ge; [assumption|].
      change 800%Q with (inject_Z 800). rewrite Qmult_1_l, <- Zle_Qle. lia. }
  split; apply Math_floor_whole; rewrite Es; ring.
Qed.


(** X13: the real-time pipeline never enlarges: for a source image with
    positive sides the result is at most 800 wide and high and at most as
    wide and high as the source, and a source with both sides at most 800
    keeps its size. *)
Theorem preview_size_bounds canvas img settings r :
  0 < width img -> 0 < height img ->
  processImageRealtime canvas (Some img) settings = Resolved r ->
  0 < width r <= Z.min 800 (width img) /\
  0 < height r <= Z.min 800 (height img) /\
  (width img <= 800 -> height img <= 800 ->
   width r = width img /\ height r = height img).
Proof.
  intros Hw Hh E.
  destruct (processImageRealtime_framed _ _ _ _ E) as (Nw & Nh & Ew & Eh & _).
  pose proof (previewSize_bounds img Hw Hh) as B. cbv zeta in B.
  rewrite Ew, Eh. lia.
Qed.

Lemma preview_size_bounds_witness :
  0 < width onePixel <= Z.min 800 (width onePixel) /\
  0 < height onePixel <= Z.min 800 (height onePixel) /\
  (width onePixel <= 800 -> height onePixel <= 800 ->
   width onePixel = width onePixel /\ height onePixel = height onePixel).
Proof.
  apply (preview_size_bounds nearestCanvas onePixel saturateSettings
           (mkImageData 1 1 (data (applyAdvancedSaturation onePixel 10)))).
  - simpl; lia.
  - simpl; lia.
  - reflexivity.
Defined.

Lemma finalSize_bounds img :
  0 < width img -> 0 < height img ->
  let w := fst (finalSize img) in
  let h := snd (finalSize img) in
  (1000000 <= width img * height img ->
   w = width img /\ h = height img) /\
  (width img * height img < 1000000 ->
   0 <= w <= Z.min (2 * width img) 1500 /\
   0 <= h <= Z.min (2 * height img) 1500 /\
   (Z.max (width img) (height img) <= 750 ->
    w = 2 * width img /\ h = 2 * height img)).
Proof.
  intros Hw Hh. unfold finalSize. cbv zeta.
  destruct (Z.ltb_spec (width img * height img) 1000000) as [Hlt|Hge]; cbn [fst snd].
  2:{ split; [|lia]. intros _.
      split; apply Math_floor_whole; ring. }
  split; [lia|]. intros _.
  set (m := Z.max (width img) (height img)) in *.
  set (b := (1500 / inject_Z m)%Q) in *. set (scale := Math_min 2 b) in *.
  assert (Hm : 0 < m) by lia.
  assert (Qw : (0 < inject_Z (width img))%Q)
    by (change 0%Q with (inject_Z 0); now rewrite <- Zlt_Qlt).
  assert (Qh : (0 < inject_Z (height img))%Q)
    by (change 0%Q with (inject_Z 0); now rewrite <- Zlt_Qlt).
  assert (S2 : (scale <= 2)%Q) by apply Math_min_l.
  assert (Sb : (scale <= b)%Q) by apply Math_min_r.
  assert (S0 : (0 <= scale)%Q).
  { apply Math_min_glb; [lra|]. apply ratio_ge; [assumption | lra]. }
  assert (Wb : (inject_Z (width img) * b <= 1500)%Q).
  { apply (ratio_le 1500); [lra | lia]. }
  assert (Hb' : (inject_Z (height img) * b <= 1500)%Q).
  { apply (ratio_le 1500); [lra | lia]. }
  assert (W0 : 0 <= Math_floor (inject_Z (width img) * scale)).
  { unfold Math_floor. rewrite <- (Qfloor_Z 0). apply Qfloor_resp_le.
    change (inject_Z 0) with 0%Q. nra. }
  assert (H0 : 0 <= Math_floor (inject_Z (height img) * scale)).
  { unfold Math_floor. rewrite <- (Qfloor_Z 0). apply Qfloor_resp_le.
    change (inject_Z 0) with 0%Q. nra. }
  assert (W1 : Math_floor (inject_Z (width img) * scale) <= 2 * width img).
  { apply Math_floor_le. rewrite inject_Z_mult. change (inject_Z 2) with 2%Q. nra. }
  assert (W2 : Math_floor (inject_Z (width img) * scale) <= 1500).
  { apply Math_floor_le. change (inject_Z 1500) with 1500%Q. nra. }
  assert (H1 : Math_floor (inject_Z (height img) * scale) <= 2 * height img).
  { apply Math_floor_le. rewrite inject_Z_mult. change (inject_Z 2) with 2%Q. nra. }
  assert (H2 : Math_floor (inject_Z (height img) * scale) <= 1500).
  { apply Math_floor_le. change (inject_Z 1500) with 1500%Q. nra. }
  split; [lia | split; [lia |]].
  intros Lm.
  assert (Es : (scale == 2)%Q).
  { apply Qle_antisym; [exact S2|].
    apply Math_min_glb; [lra|]. apply ratio_ge; [assumption|].
    change 1500%Q with (inject_Z 1500). change 2%Q with (inject_Z 2).
    rewrite <- inject_Z_mult, <- Zle_Qle. lia. }
  split; apply Math_floor_whole; rewrite Es, inject_Z_mult; change (inject_Z 2) with 2%Q; ring.
Qed.


(** X14: the full-quality pipeline keeps the size of a source image of at
    least 1000000 pixels; a smaller source with positive sides comes out at
    most twice as wide and high and at most 1500 on each side, and exactly
    doubled when its longer side is at most 750. *)
Theorem final_size_bounds canvas img settings r :
  0 < width img -> 0 < height img ->
  snd (processImage canvas (Some img) settings) = Resolved r ->
  (1000000 <= width img * height img ->
   width r = width img /\ height r = height img) /\
  (width img * height img < 1000000 ->
   0 < width r <= Z.min (2 * width img) 1500 /\
   0 < height r <= Z.min (2 * height img) 1500 /\
   (Z.max (width img) (height img) <= 750 ->
    width r = 2 * width img /\ height r = 2 * height img)).
Proof.
  intros Hw Hh E.
  destruct (processImage_framed _ _ _ _ E) as (Nw & Nh & Ew & Eh & _).
  pose proof (finalSize_bounds img Hw Hh) as B. cbv zeta in B.
  rewrite Ew, Eh. split; [tauto|]. intros Hlt.
  destruct B as [_ B]. specialize (B Hlt). lia.
Qed.

Lemma final_size_bounds_witness :
  (1000000 <= width onePixel * height onePixel ->
   2 = width onePixel /\ 2 = height onePixel) /\
  (width onePixel * height onePixel < 1000000 ->
   0 < 2 <= Z.min (2 * width onePixel) 1500 /\
   0 < 2 <= Z.min (2 * height onePixel) 1500 /\
   (Z.max (width onePixel) (height onePixel) <= 750 ->
    2 = 2 * width onePixel /\ 2 = 2 * height onePixel)).
Proof.
  apply (final_size_bounds nearestCanvas onePixel neutralSettings
           (mkImageData 2 2 (drawImage nearestCanvas onePixel 2 2))).
  - simpl; lia.
  - simpl; lia.
  - reflexivity.
Defined.

End Sizes.

Section Application.
Import JsQ.

Lemma hasChanges_false settings :
  hasChanges settings = false ->
  positive (sharpening settings) = false /\ positive (denoising settings) = false /\
  nonzero (brightness settings) = false /\ nonzero (contrast settings) = false /\
  nonzero (saturation settings) = false /\ useAI settings = false.
Proof.
  unfold hasChanges. intros H.
  repeat (apply orb_false_elim in H; destruct H as [H ?]). tauto.
Qed.

(** X15: when [hasChanges] is false no stage runs: the real-time pipeline and
    the full-quality pipeline return the canvas read-back unchanged, and the
    full-quality pipeline reports exactly 10 and 100. *)
Theorem no_changes_returns_drawing canvas img settings :
  hasChanges settings = false ->
  (forall r, processImageRealtime canvas (Some img) settings = Resolved r ->
     data r = drawImage canvas img (width r) (height r)) /\
  (forall r, snd (processImage canvas (Some img) settings) = Resolved r ->
     data r = drawImage canvas img (width r) (height r) /\
     fst (processImage canvas (Some img) settings) = [10; 100]).
Proof.
  intros H. apply hasChanges_false in H.
  destruct H as (Hs & Hd & Hb & Hc & Hsat & Hai). split.
  - intros r. unfold processImageRealtime. cbv zeta.
    rewrite Hs, Hd, Hb, Hc, Hsat, Hai. cbn [orb].
    destruct (negb _); [discriminate|]. destruct (_ || _); [discriminate|].
    intros E. injection E as <-. reflexivity.
  - intros r. unfold processImage. cbv zeta.
    rewrite Hs, Hd, Hb, Hc, Hsat, Hai. cbn [orb].
    destruct (negb _); [discriminate|]. destruct (_ || _); [discriminate|].
    cbn [fst snd app]. intros E. injection E as <-. split; reflexivity.
Qed.

Lemma no_changes_returns_drawing_witness :
  (forall r, processImageRealtime nearestCanvas (Some onePixel) neutralSettings = Resolved r ->
     data r = drawImage nearestCanvas onePixel (width r) (height r)) /\
  (forall r, snd (processImage nearestCanvas (Some onePixel) neutralSettings) = Resolved r ->
     data r = drawImage nearestCanvas onePixel (width r) (height r) /\
     fst (processImage nearestCanvas (Some onePixel) neutralSettings) = [10; 100]).
Proof.
  exact (no_changes_returns_drawing nearestCanvas onePixel neutralSettings eq_refl).
Defined.

(** X16: a full-quality run that resolves reports a stage milestone (a value
    other than 10 and 100) exactly when [hasChanges] is true. *)
Theorem has_changes_iff_stage_reported canvas file settings r :
  snd (processImage canvas file settings) = Resolved r ->
  (hasChanges settings = true
   <-> exists p, In p (fst (processImage canvas file settings)) /\ p <> 10 /\ p <> 100).
Proof.
  unfold processImage, hasChanges. destruct file as [img|]; [|discriminate].
  cbv zeta. destruct (negb _); [discriminate|]. destruct (_ || _); [discriminate|].
  intros _.
  destruct (positive (denoising settings)), (useAI settings),
    (nonzero (brightness settings)), (nonzero (contrast settings)),
    (nonzero (saturation settings)), (positive (sharpening settings));
    cbn [orb fst snd app];
    (split;
     [ intros E; first [discriminate E
       | (exists 25; simpl; split; [tauto | lia])
       | (exists 50; simpl; split; [tauto | lia])
       | (exists 65; simpl; split; [tauto | lia])
       | (exists 80; simpl; split; [tauto | lia])
       | (exists 95; simpl; split; [tauto | lia]) ]
     | intros (p & Hp & N1 & N2); first [reflexivity | simpl in Hp; exfalso; lia] ]).
Qed.

Lemma has_changes_iff_stage_reported_witness :
  hasChanges saturateSettings = true
  <-> exists p, In p (fst (processImage nearestCanvas (Some onePixel) saturateSettings))
                /\ p <> 10 /\ p <> 100.
Proof.
  exact (has_changes_iff_stage_reported nearestCanvas (Some onePixel) saturateSettings
           (mkImageData 2 2 (data (applyAdvancedSaturation
              (mkImageData 2 2 (drawImage nearestCanvas onePixel 2 2)) 10)))
           eq_refl).
Defined.

Lemma getProcessingStep_mono p q :
  (p <= q)%Q -> step (getProcessingStep p) <= step (getProcessingStep q).
Proof.
  intros H. unfold getProcessingStep.
  repeat destruct (Qlt_le_dec _ _); cbn [step]; try lia; exfalso; lra.
Qed.

(** X17: the step shown by the processing dialog never goes back: it is
    non-decreasing in the progress value, and along the values reported by a
    full-quality run that resolves the steps are in order, begin at step 1
    and end at step 4. *)
Theorem dialog_steps_advance canvas file settings r :
  snd (processImage canvas file settings) = Resolved r ->
  let steps := map (fun p => step (getProcessingStep (inject_Z p)))
                   (fst (processImage canvas file settings)) in
  (forall p q, (p <= q)%Q -> step (getProcessingStep p) <= step (getProcessingStep q)) /\
  Sorted Z.le steps /\ hd_error steps = Some 1 /\ List.last steps 0 = 4.
Proof.
  intros E steps. split; [exact getProcessingStep_mono|]. subst steps. revert E.
  unfold processImage. destruct file as [img|]; [|discriminate].
  cbv zeta. destruct (negb _); [discriminate|]. destruct (_ || _); [discriminate|].
  intros _.
  destruct (positive (denoising settings)), (useAI settings),
    (nonzero (brightness settings) || nonzero (contrast settings)),
    (nonzero (saturation settings)), (positive (sharpening settings));
    cbn [fst snd app map];
    (split; [repeat constructor; cbv; discriminate | split; reflexivity]).
Qed.

Lemma dialog_steps_advance_witness :
  let steps := map (fun p => step (getProcessingStep (inject_Z p)))
                   (fst (processImage nearestCanvas (Some onePixel) saturateSettings)) in
  Sorted Z.le steps /\ hd_error steps = Some 1 /\ List.last steps 0 = 4.
Proof.
  exact (proj2 (dialog_steps_advance nearestCanvas (Some onePixel) saturateSettings
           (mkImageData 2 2 (data (applyAdvancedSaturation
              (mkImageData 2 2 (drawImage nearestCanvas onePixel 2 2)) 10)))
           eq_refl)).
Defined.

Lemma Math_abs_nonneg x : (0 <= Math_abs x)%Q.
Proof. unfold Math_abs. destruct (Qlt_le_dec x 0); lra. Qed.

Lemma Math_round_ge q (n : Z) : (inject_Z n - (1 # 2) <= q)%Q -> n <= Math_round q.
Proof.
  intros H. unfold Math_round. rewrite <- (Qfloor_Z n). apply Qfloor_resp_le. lra.
Qed.

(** X18: the enhancement strength shown by the application is between 0 and
    100, is at least 17 when AI enhancement is on, and is 0 when [hasChanges]
    is false and the two one-sided sliders are not negative. *)
Theorem enhancement_strength_range settings :
  0 <= getEnhancementStrength settings <= 100 /\
  (useAI settings = true -> 17 <= getEnhancementStrength settings) /\
  (hasChanges settings = false ->
   (0 <= sharpening settings)%Q -> (0 <= denoising settings)%Q ->
   getEnhancementStrength settings = 0).
Proof.
  unfold getEnhancementStrength. cbv zeta.
  pose proof (Math_abs_nonneg (sharpening settings)) as A1.
  pose proof (Math_abs_nonneg (denoising settings)) as A2.
  pose proof (Math_abs_nonneg (brightness settings)) as A3.
  pose proof (Math_abs_nonneg (contrast settings)) as A4.
  pose proof (Math_abs_nonneg (saturation settings)) as A5.
  set (total := (_ + (if useAI settings then 50 else 0))%Q).
  assert (T0 : (0 <= total)%Q) by (subst total; destruct (useAI settings); lra).
  assert (R0 : 0 <= Math_round (total / 3)).
  { apply Math_round_ge. change (inject_Z 0) with 0%Q.
    assert (0 <= total / 3)%Q by (apply Qle_shift_div_l; lra). lra. }
  split; [lia|]. split.
  - intros Hai. assert (T50 : (50 <= total)%Q) by (subst total; rewrite Hai; lra).
    assert (17 <= Math_round (total / 3)); [|lia].
    apply Math_round_ge. change (inject_Z 17) with 17%Q.
    assert (50 / 3 <= total / 3)%Q.
    { apply Qle_shift_div_l; [lra|]. field_simplify. lra. }
    assert (E : (50 / 3 == 50 # 3)%Q) by reflexivity. lra.
  - intros H Hs Hd. apply hasChanges_false in H.
    destruct H as (Ps & Pd & Nb & Nc & Nsat & Hai).
    rewrite !nonzero_dec in *. unfold positive in *.
    destruct (Qlt_le_dec 0 (sharpening settings)); [discriminate|].
    destruct (Qlt_le_dec 0 (denoising settings)); [discriminate|].
    destruct (Qeq_dec (brightness settings) 0) as [Eb|]; [|discriminate].
    destruct (Qeq_dec (contrast settings) 0) as [Ec|]; [|discriminate].
    destruct (Qeq_dec (saturation settings) 0) as [Es|]; [|discriminate].
    assert (Et : (total == 0)%Q).
    { subst total. rewrite Hai. unfold Math_abs.
      repeat destruct (Qlt_le_dec _ 0); lra. }
    assert (Math_round (total / 3) = 0); [|lia].
    unfold Math_round. rewrite Et. reflexivity.
Qed.

Lemma enhancement_strength_range_witness :
  getEnhancementStrength neutralSettings = 0
  /\ 17 <= getEnhancementStrength (mkSettings 40 30 5 15 10 true).
Proof.
  split.
  - apply (proj2 (proj2 (enhancement_strength_range neutralSettings)));
      [reflexivity | discriminate | discriminate].
  - apply (proj1 (proj2 (enhancement_strength_range (mkSettings 40 30 5 15 10 true)))).
    reflexivity.
Defined.

End Application.

(** ** The local-contrast enhancer: the white point *)

Section ClaheWhite.
Import JsQ.

Lemma blockEqualization_top data w bx by' endX endY :
  Forall is_byte data ->
  let '(_, cdf, pixelCount) := blockEqualization data w bx by' endX endY in
  (bin cdf 255 == inject_Z pixelCount)%Q /\
  pixelCount = Z.max 0 (endY - by') * Z.max 0 (endX - bx).
Proof.
  intros Hb. unfold blockEqualization.
  pose proof (blockHistogram_mass data w bx by' endX endY Hb) as H0.
  pose proof (blockHistogram_count data w bx by' endX endY) as Hc.
  destruct (blockHistogram data w bx by' endX endY) as [h0 n].
  destruct H0 as [L0 S0].
  pose proof (clipHistogram_mass h0 (clipLimit * inject_Z n / 256) L0) as H1.
  destruct (clipHistogram h0 (clipLimit * inject_Z n / 256)) as [h1 e].
  destruct H1 as [L1 S1].
  destruct (redistributeExcess_mass h1 e L1) as [L2 S2].
  split; [|exact Hc].
  rewrite buildCdf_last by exact L2. rewrite S2, S1. exact S0.
Qed.

Lemma equalizeBlock_white d cur w bx by' endX endY cdf pixelCount :
  (bin cdf 255 == inject_Z pixelCount)%Q ->
  pixelCount = Z.max 0 (endY - by') * Z.max 0 (endX - bx) ->
  (forall j, get d j = 255 -> get cur j = 255) ->
  forall j, get d j = 255 ->
    get (equalizeBlock cur w bx by' endX endY cdf pixelCount) j = 255.
Proof.
  intros Htop Hn Hcur. unfold equalizeBlock.
  apply (for_range_inv (fun t => forall j, get d j = 255 -> get t j = 255));
    [exact Hcur|].
  intros y t Hy Ht.
  apply (for_range_inv (fun t => forall j, get d j = 255 -> get t j = 255));
    [exact Ht|].
  clear t Ht. intros x t Hx Ht.
  apply (for_range_inv (fun t => forall j, get d j = 255 -> get t j = 255));
    [exact Ht|].
  clear t Ht. intros c t Hc Ht j Hj. unfold store. rewrite get_put.
  destruct ((j =? _) && _ && _) eqn:E; [|now apply Ht].
  apply andb_prop in E. destruct E as [E _]. apply andb_prop in E. destruct E as [E _].
  apply Z.eqb_eq in E. subst j. rewrite (Ht _ Hj).
  apply clamp_byte; [unfold is_byte; lia|].
  assert (Hp : (0 < inject_Z pixelCount)%Q).
  { change 0%Q with (inject_Z 0). rewrite <- Zlt_Qlt. subst pixelCount. nia. }
  rewrite Htop. change (inject_Z 255) with 255%Q. field. lra.
Qed.

(** X19: the local-contrast enhancer keeps the white point: run on an image
    of width*height*4 byte samples with its own width and height, every
    sample that is 255 before is 255 afterwards, in every tile. *)
Theorem clahe_keeps_white img j :
  wf_image img ->
  get (data img) j = 255 ->
  get (data (applyCLAHE img (width img) (height img))) j = 255.
Proof.
  intros (_ & _ & _ & Hb). revert j. unfold applyCLAHE. cbv zeta. cbn [data].
  set (w := width img). set (h := height img).
  set (I := fun t : buffer => kept (data img) t /\
                              forall j, get (data img) j = 255 -> get t j = 255).
  enough (HI : I (for_step 0 h blockSize (fun by' data0 =>
                   for_step 0 w blockSize (fun bx data1 =>
                     let endY := Z.min (by' + blockSize) h in
                     let endX := Z.min (bx + blockSize) w in
                     let '(_, cdf, pixelCount) :=
                       blockEqualization data1 w bx by' endX endY in
                     equalizeBlock data1 w bx by' endX endY cdf pixelCount) data0)
                   (data img))) by apply HI.
  apply for_step_inv; [reflexivity | split; [now apply kept_refl | auto] |].
  intros y t _ _ Ht.
  apply for_step_inv; [reflexivity | exact Ht |]. clear t Ht.
  intros x t _ _ [Hk Ht]. cbv zeta.
  pose proof (blockEqualization_top t w x y (Z.min (x + blockSize) w)
                (Z.min (y + blockSize) h) (proj2 (proj2 Hk))) as Htop.
  destruct (blockEqualization _ _ _ _ _ _) as [[hist cdf] pixelCount].
  destruct Htop as [Htop Hn]. split.
  - now apply equalizeBlock_kept.
  - now apply equalizeBlock_white.
Qed.

Lemma clahe_keeps_white_witness :
  get (data (applyCLAHE (mkImageData 2 1 [255; 20; 30; 255; 7; 100; 250; 0]) 2 1)) 0 = 255.
Proof.
  apply (clahe_keeps_white (mkImageData 2 1 [255; 20; 30; 255; 7; 100; 250; 0]) 0);
    [|reflexivity].
  unfold wf_image, len; simpl. repeat split; try lia.
  repeat constructor; unfold is_byte; lia.
Defined.

End ClaheWhite.

(** ** Unsharp mask: every sample moves away from its blurred value *)

Section UnsharpDirection.
Import JsR.
Local Open Scope R_scope.

Lemma applyUnsharpMask_spec img w h amount radius threshold :
  (len (data img) mod 4 = 0)%Z -> Forall is_byte (data img) ->
  let d := data img in
  let blurred := data (gaussianBlur img w h radius) in
  let out := data (applyUnsharpMask img w h amount radius threshold) in
  forall p c, (0 <= p)%Z -> (4 * p + 4 <= len d)%Z -> (0 <= c < 3)%Z ->
    get out (4 * p + c)
    = ToUint8Clamp
        (let original := load d (4 * p + c) in
         let diff := original - load blurred (4 * p + c) in
         if Rlt_dec threshold (Rabs diff)
         then Rmin 255 (Rmax 0 (original + diff * amount))
         else original).
Proof.
  intros Hmod Hb d blurred out. subst out. unfold applyUnsharpMask. cbv zeta.
  cbn [data]. fold d. fold blurred.
  apply (pixel_loop d _
    (fun p c => ToUint8Clamp
        (let original := load d (4 * p + c) in
         let diff := original - load blurred (4 * p + c) in
         if Rlt_dec threshold (Rabs diff)
         then Rmin 255 (Rmax 0 (original + diff * amount))
         else original))); [exact Hmod|].
  intros p cur Hp Hin Hl Hcur.
  assert (Hlen : len cur = len d) by (unfold len; now rewrite Hl).
  set (v := fun c => ToUint8Clamp
        (let original := load d (4 * p + c) in
         let diff := original - load blurred (4 * p + c) in
         if Rlt_dec threshold (Rabs diff)
         then Rmin 255 (Rmax 0 (original + diff * amount))
         else original)).
  assert (Hstep : forall c t,
            (fun c outputData =>
               let original := load d (4 * p + c) in
               let blurredValue := load blurred (4 * p + c) in
               let diff := original - blurredValue in
               if Rlt_dec threshold (Rabs diff)
               then store outputData (4 * p + c)
                      (Rmin 255 (Rmax 0 (original + diff * amount)))
               else store outputData (4 * p + c) original) c t
            = put t (4 * p + c) (v c)).
  { intros c t. cbv beta zeta. unfold v. cbv zeta. unfold store.
    destruct (Rlt_dec _ _); reflexivity. }
  unfold for_range. change (range 0 3) with [0; 1; 2]%Z. cbn [fold_left].
  rewrite !Hstep.
  assert (Ha : ToUint8Clamp (load d (4 * p + 3)) = get cur (4 * p + 3)).
  { unfold load. rewrite ToUint8ClampR_IZR by (now apply get_is_byte).
    symmetry. apply Hcur. lia. }
  unfold store. rewrite Ha.
  repeat split.
  - now rewrite !length_put.
  - intros j Hj. destruct (Z.eq_dec j (4 * p + 3)%Z) as [E|Hne]; [subst j|].
    + rewrite get_put. rewrite !get_put_ne by lia.
      destruct (_ && _ && _); reflexivity.
    + rewrite !get_put_ne by lia. reflexivity.
  - intros c Hc.
    assert (Hcc : (c = 0 \/ c = 1 \/ c = 2)%Z) by lia.
    destruct Hcc as [E|[E|E]]; subst c.
    + rewrite !get_put_ne by lia. apply get_put_eq. lia.
    + rewrite !get_put_ne by lia. apply get_put_eq. rewrite len_put. lia.
    + rewrite get_put_ne by lia. apply get_put_eq. rewrite !len_put. lia.
Qed.

(** X20: the unsharp mask moves a colour sample only away from its blurred
    value: a sample whose distance to the blurred sample is at most the
    threshold is returned as it is, and for amount >= 0 a sample at or above
    its blurred value does not decrease and a sample at or below it does not
    increase. *)
Theorem unsharp_mask_direction img amount radius threshold j :
  wf_image img -> (0 <= j < len (data img))%Z -> (j mod 4 <> 3)%Z ->
  let w := width img in
  let h := height img in
  let o := get (data img) j in
  let b := get (data (gaussianBlur img w h radius)) j in
  let out := get (data (applyUnsharpMask img w h amount radius threshold)) j in
  (IZR (Z.abs (o - b)) <= threshold -> out = o) /\
  (0 <= amount -> ((b <= o)%Z -> (o <= out)%Z) /\ ((o <= b)%Z -> (out <= o)%Z)).
Proof.
  intros Hwf Hj Hc w h o b out.
  pose proof (wf_len_mod4 img Hwf) as Hmod.
  assert (Hb : Forall is_byte (data img)) by apply Hwf.
  assert (Ho : is_byte o) by (now apply get_is_byte).
  set (p := (j / 4)%Z). set (c := (j mod 4)%Z).
  assert (Ej : j = (4 * p + c)%Z) by (subst p c; apply Z.div_mod; lia).
  assert (Hc' : (0 <= c < 3)%Z) by (subst c; pose proof (Z.mod_pos_bound j 4); lia).
  assert (Hp : (0 <= p)%Z) by (subst p; apply Z.div_pos; lia).
  assert (Hin : (4 * p + 4 <= len (data img))%Z).
  { pose proof (Z.div_mod (len (data img)) 4 ltac:(lia)) as Hd. rewrite Hmod in Hd.
    assert (p < len (data img) / 4)%Z; [|lia].
    subst p. apply Z.div_lt_upper_bound; lia. }
  pose proof (applyUnsharpMask_spec img w h amount radius threshold Hmod Hb
                p c Hp Hin Hc') as Hs.
  cbv zeta in Hs. rewrite <- Ej in Hs. fold out in Hs. unfold load in Hs.
  fold o in Hs. fold b in Hs. rewrite <- minus_IZR, <- abs_IZR in Hs.
  split.
  - intros Hthr. rewrite Hs.
    destruct (Rlt_dec _ _) as [Hlt|_]; [lra|]. now apply ToUint8ClampR_IZR.
  - intros Ham. split.
    + intros Hbo. rewrite Hs. apply ToUint8ClampR_ge; [exact Ho|].
      destruct (Rlt_dec _ _) as [_|_]; [|lra].
      rewrite <- (clampR_byte o Ho) at 1. apply clampR_mono.
      assert (0 <= IZR (o - b)) by (apply IZR_le; lia). nra.
    + intros Hbo. rewrite Hs. apply ToUint8ClampR_le; [exact Ho|].
      destruct (Rlt_dec _ _) as [_|_]; [|lra].
      rewrite <- (clampR_byte o Ho) at 2. apply clampR_mono.
      assert (IZR (o - b) <= 0) by (apply IZR_le; lia). nra.
Qed.

Lemma unsharp_mask_direction_witness :
  let o := get (data ninePixels) 16 in
  let b := get (data (gaussianBlur ninePixels 3 3 2)) 16 in
  let out := get (data (applyUnsharpMask ninePixels 3 3 1 2 3)) 16 in
  (IZR (Z.abs (o - b)) <= 3 -> out = o) /\
  (0 <= 1 -> ((b <= o)%Z -> (o <= out)%Z) /\ ((o <= b)%Z -> (out <= o)%Z)).
Proof.
  apply (unsharp_mask_direction ninePixels 1 2 3 16 ninePixels_wf).
  - vm_compute. split; [discriminate | reflexivity].
  - vm_compute. discriminate.
Defined.

End UnsharpDirection.

(** ** Saturation keeps the lightness *)

Section SaturationLightness.
Import JsQ.
Local Open Scope Q_scope.

Lemma ToUint8ClampQ_mono x y : x <= y -> (ToUint8Clamp x <= ToUint8Clamp y)%Z.
Proof.
  intros Hle.
  pose proof (ToUint8ClampQ_byte x) as [B0 B1].
  pose proof (ToUint8ClampQ_byte y) as [B0' B1'].
  unfold ToUint8Clamp in *.
  destruct (Qlt_le_dec 0 x) as [H0|H0]; [|exact B0'].
  destruct (Qlt_le_dec 0 y) as [H0'|H0']; [|lra].
  destruct (Qlt_le_dec y 255) as [H1'|H1']; [|exact B1].
  destruct (Qlt_le_dec x 255) as [H1|H1]; [|lra].
  pose proof (Qfloor_le x) as F1. pose proof (Qlt_floor x) as F2.
  pose proof (Qfloor_le y) as F1'. pose proof (Qlt_floor y) as F2'.
  rewrite inject_Z_plus in F2, F2'. change (inject_Z 1) with 1 in F2, F2'.
  pose proof (Qfloor_resp_le x y Hle) as Hf. cbv zeta.
  destruct (Z.eq_dec (Qfloor x) (Qfloor y)) as [E|E].
  - rewrite <- E in *.
    repeat destruct (Qlt_le_dec _ _); try destruct (Z.even (Qfloor x)); try lia; lra.
  - assert (Qfloor x + 1 <= Qfloor y)%Z by lia.
    repeat destruct (Qlt_le_dec _ _); try destruct (Z.even _); try destruct (Z.even _); lia.
Qed.

Lemma ToUint8ClampQ_comp x y : x == y -> ToUint8Clamp x = ToUint8Clamp y.
Proof.
  intros E. apply Z.le_antisymm; apply ToUint8ClampQ_mono; rewrite E; apply Qle_refl.
Qed.

Lemma ToUint8ClampQ_near x :
  0 <= x <= 255 ->
  x - (1 # 2) <= inject_Z (ToUint8Clamp x) <= x + (1 # 2).
Proof.
  intros [H0 H1]. unfold ToUint8Clamp.
  pose proof (Qfloor_le x) as F1. pose proof (Qlt_floor x) as F2.
  rewrite inject_Z_plus in F2. change (inject_Z 1) with 1 in F2.
  destruct (Qlt_le_dec 0 x) as [P|P]; [|change (inject_Z 0) with 0; lra].
  destruct (Qlt_le_dec x 255) as [L|L]; [|change (inject_Z 255) with 255; lra].
  cbv zeta.
  repeat destruct (Qlt_le_dec _ _); try destruct (Z.even _);
    rewrite ?inject_Z_plus; change (inject_Z 1) with 1; lra.
Qed.

Lemma ToUint8ClampQ_max x y :
  ToUint8Clamp (Math_max x y) = Z.max (ToUint8Clamp x) (ToUint8Clamp y).
Proof.
  unfold Math_max. destruct (Qlt_le_dec x y) as [H|H].
  - rewrite Z.max_r; [reflexivity|]. apply ToUint8ClampQ_mono. lra.
  - rewrite Z.max_l; [reflexivity|]. now apply ToUint8ClampQ_mono.
Qed.

Lemma ToUint8ClampQ_min x y :
  ToUint8Clamp (Math_min x y) = Z.min (ToUint8Clamp x) (ToUint8Clamp y).
Proof.
  unfold Math_min. destruct (Qlt_le_dec y x) as [H|H].
  - rewrite Z.min_r; [reflexivity|]. apply ToUint8ClampQ_mono. lra.
  - rewrite Z.min_l; [reflexivity|]. now apply ToUint8ClampQ_mono.
Qed.

Lemma Math_max_unit (a b : Z) :
  Math_max (inject_Z a / 255) (inject_Z b / 255) * 255 == inject_Z (Z.max a b).
Proof.
  unfold Math_max, Qdiv. change (/ 255) with (1 # 255).
  destruct (Qlt_le_dec _ _) as [H|H].
  - rewrite Z.max_r; [lra|]. rewrite Zle_Qle. lra.
  - rewrite Z.max_l; [lra|]. rewrite Zle_Qle. lra.
Qed.

Lemma Math_min_unit (a b : Z) :
  Math_min (inject_Z a / 255) (inject_Z b / 255) * 255 == inject_Z (Z.min a b).
Proof.
  unfold Math_min, Qdiv. change (/ 255) with (1 # 255).
  destruct (Qlt_le_dec _ _) as [H|H].
  - rewrite Z.min_r; [lra|]. rewrite Zle_Qle. lra.
  - rewrite Z.min_l; [lra|]. rewrite Zle_Qle. lra.
Qed.

Lemma Math_max3_unit (a b c : Z) :
  Math_max (Math_max (inject_Z a / 255) (inject_Z b / 255)) (inject_Z c / 255) * 255
  == inject_Z (Z.max (Z.max a b) c).
Proof.
  pose proof (Math_max_unit a b) as H.
  assert (E : Math_max (inject_Z a / 255) (inject_Z b / 255)
              == inject_Z (Z.max a b) / 255).
  { unfold Qdiv in *. change (/ 255) with (1 # 255) in *. lra. }
  rewrite <- Math_max_unit. unfold Math_max at 1 3.
  repeat destruct (Qlt_le_dec _ _); lra.
Qed.

Lemma Math_min3_unit (a b c : Z) :
  Math_min (Math_min (inject_Z a / 255) (inject_Z b / 255)) (inject_Z c / 255) * 255
  == inject_Z (Z.min (Z.min a b) c).
Proof.
  pose proof (Math_min_unit a b) as H.
  assert (E : Math_min (inject_Z a / 255) (inject_Z b / 255)
              == inject_Z (Z.min a b) / 255).
  { unfold Qdiv in *. change (/ 255) with (1 # 255) in *. lra. }
  rewrite <- Math_min_unit. unfold Math_min at 1 3.
  repeat destruct (Qlt_le_dec _ _); lra.
Qed.

(** The three numbers of a hue in [0, 6): the largest is (c + m) * 255 and
    the smallest m * 255. *)
Lemma hslToRgb_extremes h l newS :
  0 <= h * 6 -> h * 6 < 6 -> 0 <= l <= 1 -> 0 <= newS <= 1 ->
  let c := (1 - Math_abs (2 * l - 1)) * newS in
  let m := l - c / 2 in
  let '(r', g', b') := hslToRgb h l newS in
  Math_max (Math_max r' g') b' == (c + m) * 255 /\
  Math_min (Math_min r' g') b' == m * 255 /\
  0 <= m /\ c + m <= 1 /\ 0 <= c.
Proof.
  intros H0 H6 Hl Hs. cbv zeta.
  set (k := Math_floor (h * 6)).
  assert (Hk : (0 <= k <= 5)%Z).
  { subst k. unfold Math_floor. split.
    - rewrite <- (Qfloor_Z 0). now apply Qfloor_resp_le.
    - assert (Qfloor (h * 6) < 6)%Z; [|lia].
      rewrite Zlt_Qlt. pose proof (Qfloor_le (h * 6)). change (inject_Z 6) with 6. lra. }
  assert (K1 : inject_Z k <= h * 6) by apply Qfloor_le.
  assert (K2 : h * 6 < inject_Z k + 1).
  { pose proof (Qlt_floor (h * 6)) as F. rewrite inject_Z_plus in F. exact F. }
  destruct (hue_sector (h * 6) k Hk K1 K2) as [_ Hx].
  unfold hslToRgb. cbv zeta. fold k.
  set (c := (1 - Math_abs (2 * l - 1)) * newS) in *.
  assert (Hc : 0 <= c /\ c <= 1 - Math_abs (2 * l - 1)).
  { subst c. unfold Math_abs. destruct (Qlt_le_dec _ 0); nra. }
  set (x := c * (1 - Math_abs (rem (h * 6) 2 - 1))).
  assert (Hxb : 0 <= x <= c).
  { subst x. rewrite Hx. destruct (Z.even k); nra. }
  assert (Hm : 0 <= l - c / 2 /\ c + (l - c / 2) <= 1).
  { unfold Qdiv. change (/ 2) with (1 # 2). unfold Math_abs in Hc.
    destruct (Qlt_le_dec _ 0); split; lra. }
  set (m := l - c / 2) in *. clearbody c x m k.
  assert (Ec : Math_min 255 (Math_max 0 ((c + m) * 255)) == (c + m) * 255)
    by (apply clamp_eq; [reflexivity | lra | lra]).
  assert (Ex : Math_min 255 (Math_max 0 ((x + m) * 255)) == (x + m) * 255)
    by (apply clamp_eq; [reflexivity | lra | lra]).
  assert (Em : Math_min 255 (Math_max 0 ((0 + m) * 255)) == (0 + m) * 255)
    by (apply clamp_eq; [reflexivity | lra | lra]).
  assert (Hcases : (k = 0 \/ k = 1 \/ k = 2 \/ k = 3 \/ k = 4 \/ k = 5)%Z) by lia.
  destruct Hcases as [E|[E|[E|[E|[E|E]]]]]; subst k; cbv iota;
    set (vc := Math_min 255 (Math_max 0 ((c + m) * 255))) in *;
    set (vx := Math_min 255 (Math_max 0 ((x + m) * 255))) in *;
    set (vm := Math_min 255 (Math_max 0 ((0 + m) * 255))) in *;
    clearbody vc vx vm;
    unfold Math_max, Math_min; repeat destruct (Qlt_le_dec _ _);
    repeat split; lra.
Qed.

(** The hue of a chromatic pixel, times 6, lies in [0, 6). *)
Lemma hue_range r g b :
  let max := Math_max (Math_max r g) b in
  let min := Math_min (Math_min r g) b in
  let diff := max - min in
  ~ diff == 0 ->
  let h :=
    if Qeq_dec max r then ((g - b) / diff + (if Qlt_le_dec g b then 6 else 0)) / 6
    else if Qeq_dec max g then ((b - r) / diff + 2) / 6
    else if Qeq_dec max b then ((r - g) / diff + 4) / 6
    else 0 in
  0 <= h * 6 /\ h * 6 < 6.
Proof.
  cbv zeta. intros Hd.
  destruct (Math_max3 r g b) as (_ & Mr & Mg & Mb).
  destruct (Math_min3 r g b) as (_ & mr & mg & mb).
  set (mx := Math_max (Math_max r g) b) in *.
  set (mn := Math_min (Math_min r g) b) in *.
  clearbody mx mn.
  assert (Hlt : 0 < mx - mn).
  { apply Qle_neq_lt; [lra|]. intros E. apply Hd. now rewrite E. }
  assert (T : forall a c, mn <= a <= mx -> mn <= c <= mx ->
            -1 <= (a - c) / (mx - mn) <= 1).
  { intros a c Ha Hc'. split; [apply Qle_shift_div_l | apply Qle_shift_div_r]; lra. }
  destruct (Qeq_dec mx r).
  - pose proof (T g b ltac:(lra) ltac:(lra)) as Ht.
    destruct (Qlt_le_dec g b) as [Hgb|Hgb].
    + assert ((g - b) / (mx - mn) < 0) by (apply Qlt_shift_div_r; lra).
      set (t := (g - b) / (mx - mn)) in *. clearbody t.
      unfold Qdiv. change (/ 6) with (1 # 6). split; lra.
    + assert (0 <= (g - b) / (mx - mn)) by (apply Qle_shift_div_l; lra).
      set (t := (g - b) / (mx - mn)) in *. clearbody t.
      unfold Qdiv. change (/ 6) with (1 # 6). split; lra.
  - destruct (Qeq_dec mx g).
    + pose proof (T b r ltac:(lra) ltac:(lra)) as Ht.
      set (t := (b - r) / (mx - mn)) in *. clearbody t.
      unfold Qdiv. change (/ 6) with (1 # 6). split; lra.
    + destruct (Qeq_dec mx b).
      * pose proof (T r g ltac:(lra) ltac:(lra)) as Ht.
        set (t := (r - g) / (mx - mn)) in *. clearbody t.
        unfold Qdiv. change (/ 6) with (1 # 6). split; lra.
      * split; lra.
Qed.

Lemma saturatePixel_lightness factor r g b :
  0 <= r <= 1 -> 0 <= g <= 1 -> 0 <= b <= 1 ->
  ~ Math_max (Math_max r g) b - Math_min (Math_min r g) b == 0 ->
  let '(r', g', b') := saturatePixel factor r g b in
  let hi := Math_max (Math_max r' g') b' in
  let lo := Math_min (Math_min r' g') b' in
  0 <= lo /\ lo <= hi /\ hi <= 255 /\
  hi + lo == (Math_max (Math_max r g) b + Math_min (Math_min r g) b) * 255.
Proof.
  intros Hr Hg Hb Hd. unfold saturatePixel. cbv zeta.
  pose proof (hue_range r g b Hd) as Hh. cbv zeta in Hh.
  destruct (Math_max3 r g b) as (Hmx & Mr & Mg & Mb).
  destruct (Math_min3 r g b) as (Hmn & mr & mg & mb).
  set (mx := Math_max (Math_max r g) b) in *.
  set (mn := Math_min (Math_min r g) b) in *.
  assert (Hmx1 : mx <= 1) by (destruct Hmx as [E|[E|E]]; rewrite E; lra).
  assert (Hmn0 : 0 <= mn) by (destruct Hmn as [E|[E|E]]; rewrite E; lra).
  clearbody mx mn. clear Hmx Hmn.
  set (h := if Qeq_dec mx r then _ else _) in *. clearbody h.
  set (s := if Qlt_le_dec (1 # 2) ((mx + mn) / 2) then _ else _). clearbody s.
  set (newS := Math_min 1 (Math_max 0 (s * factor))).
  assert (Hs : 0 <= newS <= 1).
  { subst newS. unfold Math_min, Math_max. repeat destruct (Qlt_le_dec _ _); lra. }
  clearbody newS.
  assert (Hl : 0 <= (mx + mn) / 2 <= 1).
  { unfold Qdiv. change (/ 2) with (1 # 2). lra. }
  pose proof (hslToRgb_extremes h ((mx + mn) / 2) newS (proj1 Hh) (proj2 Hh) Hl Hs) as He.
  cbv zeta in He.
  destruct (hslToRgb h ((mx + mn) / 2) newS) as [[r' g'] b'].
  destruct He as (E1 & E2 & M0 & M1 & C0). cbv zeta.
  rewrite E1, E2. unfold Qdiv in *. change (/ 2) with (1 # 2) in *.
  repeat split; lra.
Qed.

Local Open Scope Z_scope.

(** X21: the saturation adjuster keeps the lightness of every pixel: for
    every saturation value, the sum of the largest and the smallest colour
    sample of a pixel changes by at most 1 (the rounding of the two stores). *)
Theorem saturation_keeps_lightness img saturation p :
  wf_image img -> 0 <= p < width img * height img ->
  let d := data img in
  let out := data (applyAdvancedSaturation img saturation) in
  let hi := fun t : buffer =>
    Z.max (Z.max (get t (4 * p)) (get t (4 * p + 1))) (get t (4 * p + 2)) in
  let lo := fun t : buffer =>
    Z.min (Z.min (get t (4 * p)) (get t (4 * p + 1))) (get t (4 * p + 2)) in
  Z.abs ((hi out + lo out) - (hi d + lo d)) <= 1.
Proof.
  intros Hwf Hp d out hi lo.
  destruct Hwf as (Hw & Hh & Hlen & Hb).
  assert (Hmod : len (data img) mod 4 = 0) by (rewrite Hlen; apply Z_mod_mult).
  destruct (applyAdvancedSaturation_spec img saturation Hmod) as (_ & Hrgb & _).
  assert (Hin : 4 * p + 4 <= len (data img)) by (rewrite Hlen; lia).
  pose proof (Hrgb p 0 ltac:(lia) Hin ltac:(lia)) as E0.
  pose proof (Hrgb p 1 ltac:(lia) Hin ltac:(lia)) as E1.
  pose proof (Hrgb p 2 ltac:(lia) Hin ltac:(lia)) as E2.
  rewrite Z.add_0_r in E0. fold out d in E0, E1, E2.
  subst hi lo. cbv beta. rewrite E0, E1, E2.
  set (r0 := get d (4 * p)). set (g0 := get d (4 * p + 1)). set (b0 := get d (4 * p + 2)).
  assert (Hr : is_byte r0) by (now apply get_is_byte).
  assert (Hg : is_byte g0) by (now apply get_is_byte).
  assert (Hb0 : is_byte b0) by (now apply get_is_byte).
  clearbody r0 g0 b0. clear E0 E1 E2.
  unfold saturatedSamples. cbv zeta.
  destruct (Qeq_dec _ 0) as [Ed|Ed]; [simpl; lia|].
  pose proof (saturatePixel_lightness ((saturation + 100) / 100)
                (inject_Z r0 / 255) (inject_Z g0 / 255) (inject_Z b0 / 255)
                (proj1 (byte_unit r0 Hr)) (proj1 (byte_unit g0 Hg))
                (proj1 (byte_unit b0 Hb0)) Ed) as HL.
  destruct (saturatePixel _ _ _ _) as [[r' g'] b']. cbv zeta in HL.
  destruct HL as (L0 & L1 & L2 & L3). simpl channel.
  rewrite <- !ToUint8ClampQ_max, <- !ToUint8ClampQ_min.
  set (hi' := Math_max (Math_max r' g') b') in *.
  set (lo' := Math_min (Math_min r' g') b') in *.
  pose proof (ToUint8ClampQ_near hi' ltac:(lra)) as N1.
  pose proof (ToUint8ClampQ_near lo' ltac:(lra)) as N2.
  assert (L4 : (hi' + lo' == inject_Z (Z.max (Z.max r0 g0) b0)
                           + inject_Z (Z.min (Z.min r0 g0) b0))%Q).
  { rewrite L3, <- Math_max3_unit, <- Math_min3_unit. ring. }
  clearbody hi' lo'.
  set (T1 := ToUint8Clamp hi') in *. set (T2 := ToUint8Clamp lo') in *.
  set (M := Z.max (Z.max r0 g0) b0) in *. set (m := Z.min (Z.min r0 g0) b0) in *.
  clearbody T1 T2 M m.
  assert (U : T1 + T2 <= M + m + 1).
  { rewrite Zle_Qle, !inject_Z_plus. change (inject_Z 1) with 1%Q. lra. }
  assert (D : M + m <= T1 + T2 + 1).
  { rewrite Zle_Qle, !inject_Z_plus. change (inject_Z 1) with 1%Q. lra. }
  lia.
Qed.

Lemma saturation_keeps_lightness_witness :
  let d := data twoPixelImage in
  let out := data (applyAdvancedSaturation twoPixelImage (-30)) in
  let hi := fun t : buffer =>
    Z.max (Z.max (get t (4 * 1)) (get t (4 * 1 + 1))) (get t (4 * 1 + 2)) in
  let lo := fun t : buffer =>
    Z.min (Z.min (get t (4 * 1)) (get t (4 * 1 + 1))) (get t (4 * 1 + 2)) in
  Z.abs ((hi out + lo out) - (hi d + lo d)) <= 1.
Proof.
  apply (saturation_keeps_lightness twoPixelImage (-30) 1 twoPixelImage_wf).
  simpl. lia.
Defined.

End SaturationLightness.

(** ** A uniform gray image through the pipelines *)

Section FlatPipeline.
Import JsQ.

Lemma flatImage_uniform w h v : 0 <= w -> 0 <= h -> uniform (flatImage w h v).
Proof.
  intros Hw Hh p c Hp Hc. unfold flatImage in *. cbn [data width height] in *.
  rewrite !get_flatBuffer by (rewrite Z2Nat.id; nia).
  replace ((4 * p + c) mod 4) with (c mod 4); [reflexivity|].
  rewrite Z.add_comm, Z.mul_comm, Z_mod_plus_full. reflexivity.
Qed.

Lemma applyAdvancedSaturation_flat w h v saturation :
  0 <= w -> 0 <= h -> is_byte v ->
  applyAdvancedSaturation (flatImage w h v) saturation = flatImage w h v.
Proof.
  intros Hw Hh Hv.
  pose proof (flatImage_wf w h v Hw Hh Hv) as (_ & _ & Hlen & Hb).
  assert (Hmod : len (data (flatImage w h v)) mod 4 = 0)
    by (rewrite Hlen; apply Z_mod_mult).
  destruct (applyAdvancedSaturation_spec (flatImage w h v) saturation Hmod)
    as (Hl & Hrgb & Halpha).
  assert (Hd : data (applyAdvancedSaturation (flatImage w h v) saturation)
               = data (flatImage w h v)).
  { apply buffer_ext; [exact Hl|]. intros j Hj.
    destruct (sample_index j) as (p & c & Hp & Hc & ->); [lia|].
    destruct (Z.eq_dec c 3) as [->|Hc3]; [apply Halpha|].
    assert (Hin : 4 * p + 4 <= len (data (flatImage w h v))) by (rewrite Hlen in *; lia).
    rewrite Hrgb by lia.
    assert (Hg : forall c', 0 <= c' < 3 -> get (data (flatImage w h v)) (4 * p + c') = v).
    { intros c' Hc'. unfold flatImage in *. cbn [data width height] in *.
      rewrite get_flatBuffer by (rewrite Z2Nat.id; nia).
      replace ((4 * p + c') mod 4) with c'.
      - destruct (Z.eqb_spec c' 3); [lia | reflexivity].
      - rewrite Z.add_comm, Z.mul_comm, Z_mod_plus_full, Z.mod_small; lia. }
    replace (4 * p) with (4 * p + 0) at 1 by lia.
    rewrite !Hg by lia. rewrite saturatedSamples_gray. unfold channel.
    destruct (c =? 0); [reflexivity|]. destruct (c =? 1); reflexivity. }
  change (applyAdvancedSaturation (flatImage w h v) saturation)
    with (mkImageData w h (data (applyAdvancedSaturation (flatImage w h v) saturation))).
  rewrite Hd. reflexivity.
Qed.

Lemma applyBilateralFilter_flat w h v spatialSigma intensitySigma :
  0 <= w -> 0 <= h -> is_byte v ->
  applyBilateralFilter (flatImage w h v) w h spatialSigma intensitySigma
  = flatImage w h v.
Proof.
  intros Hw Hh Hv.
  pose proof (applyBilateralFilter_uniform (flatImage w h v) spatialSigma intensitySigma
                (flatImage_wf w h v Hw Hh Hv) (flatImage_uniform w h v Hw Hh)) as Hd.
  change (width (flatImage w h v)) with w in Hd.
  change (height (flatImage w h v)) with h in Hd.
  change (applyBilateralFilter (flatImage w h v) w h spatialSigma intensitySigma)
    with (mkImageData w h
            (data (applyBilateralFilter (flatImage w h v) w h spatialSigma intensitySigma))).
  rewrite Hd. reflexivity.
Qed.

Lemma applyUnsharpMask_flat w h v amount radius threshold :
  0 <= w -> 0 <= h -> is_byte v ->
  applyUnsharpMask (flatImage w h v) w h amount radius threshold = flatImage w h v.
Proof.
  intros Hw Hh Hv.
  pose proof (applyUnsharpMask_uniform (flatImage w h v) amount radius threshold
                (flatImage_wf w h v Hw Hh Hv) (flatImage_uniform w h v Hw Hh)) as Hd.
  change (width (flatImage w h v)) with w in Hd.
  change (height (flatImage w h v)) with h in Hd.
  change (applyUnsharpMask (flatImage w h v) w h amount radius threshold)
    with (mkImageData w h
            (data (applyUnsharpMask (flatImage w h v) w h amount radius threshold))).
  rewrite Hd. reflexivity.
Qed.

(** X22: a uniform opaque gray image goes through both pipelines unchanged
    when brightness and contrast are 0 and AI enhancement is off, whatever
    the denoising, saturation and sharpening settings: on a canvas that draws
    a uniform image as a uniform image, the raster a pipeline resolves with
    is the uniform image of that gray, at the raster's own size. *)
Theorem flat_gray_unchanged canvas w0 h0 v settings r :
  draws_flat canvas -> 0 < w0 -> 0 < h0 -> is_byte v ->
  (brightness settings == 0)%Q -> (contrast settings == 0)%Q ->
  useAI settings = false ->
  processImageRealtime canvas (Some (flatImage w0 h0 v)) settings = Resolved r
  \/ snd (processImage canvas (Some (flatImage w0 h0 v)) settings) = Resolved r ->
  r = flatImage (width r) (height r) v.
Proof.
  intros [Hctx Hdraw] Hw0 Hh0 Hv Eb Ec Hai Hrun.
  set (img := flatImage w0 h0 v) in *.
  assert (Nb : nonzero (brightness settings) = false).
  { rewrite nonzero_dec. destruct (Qeq_dec _ 0); [reflexivity | contradiction]. }
  assert (Nc : nonzero (contrast settings) = false).
  { rewrite nonzero_dec. destruct (Qeq_dec _ 0); [reflexivity | contradiction]. }
  destruct Hrun as [E|E].
  - pose proof (previewSize_bounds img Hw0 Hh0) as B. cbv zeta in B.
    unfold processImageRealtime, previewSize in *. cbv zeta in *. cbn [fst snd] in *.
    set (w := Math_floor (inject_Z (width img) * _)) in *.
    set (h := Math_floor (inject_Z (height img) * _)) in *. clearbody w h.
    rewrite Hctx, Nb, Nc, Hai in E. cbn [negb orb] in E.
    destruct (Z.eqb_spec w 0) as [E0|Nw]; [discriminate E|].
    destruct (Z.eqb_spec h 0) as [E0|Nh]; [discriminate E|]. cbn [orb] in E.
    unfold img in E. rewrite Hdraw in E by (first [assumption | lia]).
    change (mkImageData w h (data (flatImage w h v))) with (flatImage w h v) in E.
    destruct (positive (denoising settings));
      rewrite ?applyBilateralFilter_flat in E by (first [assumption | lia]);
      destruct (nonzero (saturation settings));
      rewrite ?applyAdvancedSaturation_flat in E by (first [assumption | lia]);
      destruct (positive (sharpening settings));
      rewrite ?applyUnsharpMask_flat in E by (first [assumption | lia]);
      injection E as <-; reflexivity.
  - pose proof (finalSize_bounds img Hw0 Hh0) as B. cbv zeta in B.
    assert (B0 : 0 <= fst (finalSize img) /\ 0 <= snd (finalSize img)).
    { destruct (Z.lt_ge_cases (width img * height img) 1000000) as [Hlt|Hge].
      - destruct B as [_ B]. specialize (B Hlt). lia.
      - destruct B as [B _]. specialize (B Hge). unfold img in *.
        cbn [width height flatImage] in *. lia. }
    clear B.
    unfold processImage, finalSize in *. cbv zeta in *. cbn [fst snd] in *.
    set (w := Math_floor (inject_Z (width img) * _)) in *.
    set (h := Math_floor (inject_Z (height img) * _)) in *. clearbody w h.
    rewrite Hctx, Nb, Nc, Hai in E. cbn [negb orb] in E.
    destruct (Z.eqb_spec w 0) as [E0|Nw]; [discriminate E|].
    destruct (Z.eqb_spec h 0) as [E0|Nh]; [discriminate E|]. cbn [orb] in E.
    unfold img in E. rewrite Hdraw in E by (first [assumption | lia]).
    change (mkImageData w h (data (flatImage w h v))) with (flatImage w h v) in E.
    destruct (positive (denoising settings));
      rewrite ?applyBilateralFilter_flat in E by (first [assumption | lia]);
      destruct (nonzero (saturation settings));
      rewrite ?applyAdvancedSaturation_flat in E by (first [assumption | lia]);
      destruct (positive (sharpening settings));
      rewrite ?applyUnsharpMask_flat in E by (first [assumption | lia]);
      cbn [snd] in E; injection E as <-; reflexivity.
Qed.

(** The full-quality pipeline with denoising 30, saturation 10 and
    sharpening 40 on the 2 by 2 gray image, drawn at 4 by 4. *)
Lemma flat_gray_unchanged_witness :
  let drawn := mkImageData 4 4 (drawImage nearestCanvas (flatImage 2 2 128) 4 4) in
  let denoised :=
    applyBilateralFilter drawn 4 4
      (Q2R (3 + (30 / 100) * 4)) (Q2R (20 + (30 / 100) * 50)) in
  let saturated := applyAdvancedSaturation denoised 10 in
  let sharpened :=
    applyUnsharpMask saturated 4 4
      (Q2R (1 + (40 / 100) * 3)) (Q2R ((6 # 5) + (40 / 100) * 2)) 2%R in
  sharpened = flatImage 4 4 128.
Proof.
  intros drawn denoised saturated sharpened.
  assert (V : is_byte 128) by (unfold is_byte; lia).
  exact (flat_gray_unchanged nearestCanvas 2 2 128 (mkSettings 40 30 0 0 10 false)
           sharpened nearestCanvas_draws_flat eq_refl eq_refl V
           (Qeq_refl 0) (Qeq_refl 0) eq_refl (or_intror eq_refl)).
Defined.

End FlatPipeline.

(** ** Bicubic resampling of a uniform image *)

Section BicubicUniform.
Import JsQ.
Local Open Scope Q_scope.

(** The four weights of the kernel around a point sum to 1. *)
Lemma cubic_partition d :
  0 <= d -> d < 1 ->
  cubic (d - inject_Z (-1)) + cubic (d - inject_Z 0) + cubic (d - inject_Z 1)
  + cubic (d - inject_Z 2) == 1.
Proof.
  intros H0 H1. vm_compute inject_Z. unfold cubic, Math_abs. cbv zeta.
  destruct (Qlt_le_dec (d - -1) 0); [lra|].
  destruct (Qlt_le_dec (d - 0) 0); [lra|].
  destruct (Qlt_le_dec (d - 1) 0); [|lra].
  destruct (Qlt_le_dec (d - 2) 0); [|lra].
  destruct (Qlt_le_dec 1 (d - -1)) as [A|A].
  - destruct (Qlt_le_dec 2 (d - -1)); [lra|].
    destruct (Qlt_le_dec 1 (d - 0)); [lra|].
    destruct (Qlt_le_dec 1 (- (d - 1))); [lra|].
    destruct (Qlt_le_dec 1 (- (d - 2))); [|lra].
    destruct (Qlt_le_dec 2 (- (d - 2))); [lra|]. ring.
  - assert (E : d == 0) by lra.
    destruct (Qlt_le_dec 1 (d - 0)); [lra|].
    destruct (Qlt_le_dec 1 (- (d - 1))); [lra|].
    destruct (Qlt_le_dec 1 (- (d - 2))); [|lra].
    destruct (Qlt_le_dec 2 (- (d - 2))); [lra|]. rewrite E. reflexivity.
Qed.

Lemma getValue_uniform img c px py :
  wf_image img -> uniform img -> (0 < width img)%Z -> (0 < height img)%Z ->
  (0 <= c < 4)%Z ->
  getValue (data img) (width img) (height img) c px py = inject_Z (get (data img) c).
Proof.
  intros Hwf Hu Hw Hh Hc. unfold getValue, load. cbv zeta. f_equal.
  set (qx := Z.min (width img - 1) (Z.max 0 px)).
  set (qy := Z.min (height img - 1) (Z.max 0 py)).
  replace ((qy * width img + qx) * 4 + c)%Z with (4 * (qy * width img + qx) + c)%Z by ring.
  apply Hu; [|exact Hc]. subst qx qy. nia.
Qed.

Lemma fraction_range q : 0 <= q - inject_Z (Math_floor q) /\ q - inject_Z (Math_floor q) < 1.
Proof.
  unfold Math_floor. pose proof (Qfloor_le q). pose proof (Qlt_floor q) as F.
  rewrite inject_Z_plus in F. change (inject_Z 1) with 1 in F. split; lra.
Qed.

Lemma bicubicInterpolate_uniform img x y c :
  wf_image img -> uniform img -> (0 < width img)%Z -> (0 < height img)%Z ->
  (0 <= c < 4)%Z ->
  bicubicInterpolate (data img) (width img) (height img) x y c
  == inject_Z (get (data img) c).
Proof.
  intros Hwf Hu Hw Hh Hc. unfold bicubicInterpolate. cbv zeta.
  destruct (fraction_range x) as [X0 X1]. destruct (fraction_range y) as [Y0 Y1].
  pose proof (cubic_partition _ X0 X1) as Px.
  pose proof (cubic_partition _ Y0 Y1) as Py.
  unfold for_range. change (range (-1) 3) with [-1; 0; 1; 2]%Z. cbn [fold_left].
  rewrite !(getValue_uniform img c) by assumption.
  set (V := inject_Z (get (data img) c)).
  set (dx := x - inject_Z (Math_floor x)) in *.
  set (dy := y - inject_Z (Math_floor y)) in *.
  transitivity
    (V * (cubic (dx - inject_Z (-1)) + cubic (dx - inject_Z 0) + cubic (dx - inject_Z 1)
          + cubic (dx - inject_Z 2))
       * (cubic (dy - inject_Z (-1)) + cubic (dy - inject_Z 0) + cubic (dy - inject_Z 1)
          + cubic (dy - inject_Z 2))); [ring|].
  rewrite Px, Py. ring.
Qed.

Local Open Scope Z_scope.

(** X23: bicubic resampling of a uniform-colour image gives that colour in
    every pixel of the image it returns, alpha included, for every scale
    factor: the weights of the kernel sum to 1. *)
Theorem bicubic_uniform img scaleFactor out x y c :
  wf_image img -> uniform img -> 0 < width img -> 0 < height img ->
  bicubicUpscale img scaleFactor = Some out ->
  0 <= x < width out -> 0 <= y < height out -> 0 <= c < 4 ->
  get (data out) ((y * width out + x) * 4 + c) = get (data img) c.
Proof.
  intros Hwf Hu Hw Hh E. unfold bicubicUpscale in E. cbv zeta in E.
  apply newImageData_Some in E. destruct E as [_ ->].
  cbn [width height data].
  set (dw := Math_round (inject_Z (width img) * scaleFactor)).
  set (dh := Math_round (inject_Z (height img) * scaleFactor)).
  intros Hx Hy Hc.
  set (P := fun (k : Z) (d : buffer) =>
              len d = dw * dh * 4 /\
              forall j, 0 <= j < k -> get d j = get (data img) (j mod 4)).
  assert (Hfill : P (dh * dw * 4)
            (for_range 0 dh (fun y0 dstData =>
               for_range 0 dw (fun x0 dstData0 =>
                 for_range 0 4 (fun c0 dstData1 =>
                   store dstData1 ((y0 * dw + x0) * 4 + c0)
                     (Math_min 255 (Math_max 0
                        (bicubicInterpolate (data img) (width img) (height img)
                           (inject_Z x0 / scaleFactor) (inject_Z y0 / scaleFactor) c0))))
                   dstData0) dstData)
               (replicate (Z.to_nat (dw * dh * 4)) 0))).
  { apply (for_range_ind (fun y0 d => P (y0 * dw * 4) d)); [lia | |].
    { split; [|intros j Hj; lia]. unfold len. rewrite length_replicate. nia. }
    intros y0 d Hy0 Hd.
    replace ((y0 + 1) * dw * 4) with ((y0 * dw + dw) * 4) by ring.
    apply (for_range_ind (fun x0 d => P ((y0 * dw + x0) * 4) d)); [lia | |].
    { replace ((y0 * dw + 0) * 4) with (y0 * dw * 4) by ring. exact Hd. }
    clear d Hd. intros x0 d Hx0 Hd.
    replace ((y0 * dw + (x0 + 1)) * 4) with ((y0 * dw + x0) * 4 + 4) by ring.
    apply (for_range_ind (fun c0 d => P ((y0 * dw + x0) * 4 + c0) d)); [lia | |].
    { now rewrite Z.add_0_r. }
    clear d Hd. intros c0 d Hc0 [Hl Hd].
    rewrite Z.add_assoc. unfold store. split; [now rewrite len_put|].
    intros j Hj. destruct (Z.eq_dec j ((y0 * dw + x0) * 4 + c0)) as [->|Hne].
    - rewrite get_put_eq by (rewrite Hl; nia).
      replace (((y0 * dw + x0) * 4 + c0) mod 4) with c0
        by (rewrite Z.add_comm, Z_mod_plus_full, Z.mod_small; lia).
      apply clamp_byte; [apply get_is_byte; apply Hwf|].
      now apply bicubicInterpolate_uniform.
    - rewrite get_put_ne by exact Hne. apply Hd. lia. }
  destruct Hfill as [_ Hfill]. rewrite Hfill by nia.
  f_equal. rewrite Z.add_comm, Z_mod_plus_full, Z.mod_small; lia.
Qed.

Lemma bicubic_uniform_witness :
  get (data uniformNine) ((2 * width uniformNine + 1) * 4 + 0) = get (data uniformFour) 0.
Proof.
  apply (bicubic_uniform uniformFour (3 # 2) uniformNine 1 2 0
           uniformFour_wf uniformFour_uniform);
    vm_compute; first [reflexivity | split; [discriminate | reflexivity]].
Defined.

End BicubicUniform.

(** ** The local-contrast enhancer: the lookup table of a block *)

Section ClaheTable.
Import JsQ.
Local Open Scope Q_scope.

Lemma bin_set_bin_ne h i j v : i <> j -> bin (set_bin h i v) j = bin h j.
Proof.
  intros Hne. unfold set_bin, bin.
  destruct (0 <=? i)%Z eqn:Ei; [|reflexivity].
  destruct (0 <=? j)%Z eqn:Ej; [|reflexivity].
  apply Z.leb_le in Ei, Ej. rewrite list_lookup_insert_ne by lia. reflexivity.
Qed.

Lemma bin_replicate_0 n i : bin (replicate n 0) i == 0.
Proof.
  unfold bin. destruct (0 <=? i)%Z; [|reflexivity].
  destruct (replicate n 0 !! Z.to_nat i) as [q|] eqn:E; [|reflexivity].
  apply lookup_replicate in E. destruct E as [-> _]. reflexivity.
Qed.

Lemma blockHistogram_nonneg data w bx by' endX endY i :
  Forall is_byte data -> 0 <= bin (fst (blockHistogram data w bx by' endX endY)) i.
Proof.
  intros Hb. revert i. unfold blockHistogram.
  apply (for_range_inv
    (fun acc : list Q * Z => length (fst acc) = 256%nat /\ forall i, 0 <= bin (fst acc) i)).
  { split; [reflexivity|]. intros i. cbn [fst]. rewrite bin_replicate_0. lra. }
  intros y acc _ Hacc. apply for_range_inv; [exact Hacc|].
  clear acc Hacc. intros x [h n] _ [Hl Hs]. cbn [fst] in *.
  pose proof (luminanceQ_range data ((y * w + x) * 4) Hb) as Hr.
  split; [now rewrite length_set_bin|]. intros i.
  destruct (Z.eq_dec (luminanceQ data ((y * w + x) * 4)) i) as [<-|Hne].
  - rewrite bin_set_bin_eq by lia. specialize (Hs (luminanceQ data ((y * w + x) * 4))). lra.
  - rewrite bin_set_bin_ne by exact Hne. apply Hs.
Qed.

Lemma clipHistogram_bins histogram clipValue :
  length histogram = 256%nat -> 0 <= clipValue ->
  (forall i, 0 <= bin histogram i) ->
  let '(clipped, excess) := clipHistogram histogram clipValue in
  0 <= excess /\
  forall i, (0 <= i < 256)%Z -> 0 <= bin clipped i <= clipValue.
Proof.
  intros Hl Hc Hh. unfold clipHistogram.
  assert (H : let acc := for_range 0 256 (fun i '(histogram0, excess) =>
                  if Qlt_le_dec clipValue (bin histogram0 i)
                  then (set_bin histogram0 i clipValue,
                        excess + (bin histogram0 i - clipValue))
                  else (histogram0, excess)) (histogram, 0) in
              length (fst acc) = 256%nat /\ 0 <= snd acc /\
              (forall i, 0 <= bin (fst acc) i) /\
              (forall i, (0 <= i < 256)%Z -> bin (fst acc) i <= clipValue)).
  { apply (for_range_ind
      (fun k (acc : list Q * Q) =>
         length (fst acc) = 256%nat /\ 0 <= snd acc /\
         (forall i, 0 <= bin (fst acc) i) /\
         (forall i, (0 <= i < k)%Z -> bin (fst acc) i <= clipValue))); [lia | |].
    - cbn [fst snd]. repeat split; auto; try lra. intros i Hi. lia.
    - intros k [h e] Hk (Hl' & He & Hn & Hd). cbn [fst snd] in *.
      destruct (Qlt_le_dec clipValue (bin h k)) as [Hgt|Hle]; cbn [fst snd].
      + split; [now rewrite length_set_bin|]. split; [lra|]. split.
        * intros i. destruct (Z.eq_dec k i) as [<-|Hne].
          -- rewrite bin_set_bin_eq by lia. exact Hc.
          -- rewrite bin_set_bin_ne by exact Hne. apply Hn.
        * intros i Hi. destruct (Z.eq_dec k i) as [<-|Hne].
          -- rewrite bin_set_bin_eq by lia. lra.
          -- rewrite bin_set_bin_ne by exact Hne. apply Hd. lia.
      + repeat split; auto. intros i Hi.
        destruct (Z.eq_dec k i) as [<-|Hne]; [exact Hle | apply Hd; lia]. }
  cbv zeta in H.
  destruct (for_range 0 256 _ (histogram, 0)) as [clipped excess]. cbn [fst snd] in H.
  destruct H as (_ & He & Hn & Hd). split; [exact He|]. intros i Hi. split; auto.
Qed.

Lemma redistributeExcess_bins histogram excess i :
  length histogram = 256%nat -> (0 <= i < 256)%Z ->
  bin (redistributeExcess histogram excess) i == bin histogram i + excess / 256.
Proof.
  intros Hl Hi. unfold redistributeExcess. cbv zeta.
  assert (H : let h := for_range 0 256
                (fun i h => set_bin h i (bin h i + excess / 256)) histogram in
              length h = 256%nat /\
              (forall j, (0 <= j < 256)%Z -> bin h j == bin histogram j + excess / 256) /\
              (forall j, (256 <= j)%Z -> bin h j = bin histogram j)).
  { apply (for_range_ind
      (fun k (h : list Q) => length h = 256%nat /\
         (forall j, (0 <= j < k)%Z -> bin h j == bin histogram j + excess / 256) /\
         (forall j, (k <= j)%Z -> bin h j = bin histogram j))); [lia | |].
    - repeat split; auto. intros j Hj. lia.
    - intros k h Hk (Hl' & Hd & Hr). split; [now rewrite length_set_bin|]. split.
      + intros j Hj. destruct (Z.eq_dec k j) as [<-|Hne].
        * rewrite bin_set_bin_eq by lia. rewrite Hr by lia. reflexivity.
        * rewrite bin_set_bin_ne by exact Hne. apply Hd. lia.
      + intros j Hj. rewrite bin_set_bin_ne by lia. apply Hr. lia. }
  destruct H as (_ & H & _). now apply H.
Qed.

Lemma buildCdf_prefix histogram v :
  length histogram = 256%nat -> (0 <= v < 256)%Z ->
  bin (buildCdf histogram) v == sumQ (take (S (Z.to_nat v)) histogram).
Proof.
  intros Hl Hv. unfold buildCdf.
  assert (H : let cdf := for_range 1 256
                (fun i cdf => set_bin cdf i (bin cdf (i - 1) + bin histogram i))
                (set_bin (replicate 256 0) 0 (bin histogram 0)) in
              length cdf = 256%nat /\
              forall j, (0 <= j < 256)%Z ->
                bin cdf j == sumQ (take (S (Z.to_nat j)) histogram)).
  { apply (for_range_ind
      (fun i (cdf : list Q) => length cdf = 256%nat /\
         forall j, (0 <= j < i)%Z ->
           bin cdf j == sumQ (take (S (Z.to_nat j)) histogram))); [lia | |].
    - split; [reflexivity|]. intros j Hj. assert (j = 0%Z) by lia. subst j.
      rewrite bin_set_bin_eq by (simpl; lia).
      destruct histogram; [discriminate|]. simpl. unfold bin. simpl. ring.
    - intros i cdf Hi [Hl' Hs]. split; [now rewrite length_set_bin|].
      intros j Hj. destruct (Z.eq_dec i j) as [<-|Hne].
      + rewrite bin_set_bin_eq by lia. rewrite Hs by lia.
        replace (Z.to_nat (i - 1)) with (Z.to_nat i - 1)%nat by lia.
        replace (S (Z.to_nat i - 1)) with (Z.to_nat i) by lia.
        rewrite (sumQ_take_S histogram (Z.to_nat i)). unfold bin.
        destruct (0 <=? i)%Z eqn:E; [reflexivity | apply Z.leb_gt in E; lia].
      + rewrite bin_set_bin_ne by exact Hne. apply Hs. lia. }
  destruct H as [_ H]. now apply H.
Qed.

Lemma sumQ_take_bounds (h : list Q) (B : Q) (k : nat) :
  (forall i, (0 <= i < 256)%Z -> 0 <= bin h i <= B) -> (k <= 256)%nat ->
  0 <= sumQ (take k h) <= inject_Z (Z.of_nat k) * B.
Proof.
  intros Hh. induction k as [|k IH]; intros Hk.
  - change (sumQ (take 0 h)) with 0. change (inject_Z (Z.of_nat 0)) with 0. lra.
  - rewrite sumQ_take_S. specialize (IH ltac:(lia)).
    pose proof (Hh (Z.of_nat k) ltac:(lia)) as Hb. unfold bin in Hb.
    destruct (0 <=? Z.of_nat k)%Z eqn:E; [|apply Z.leb_gt in E; lia].
    rewrite Nat2Z.id in Hb. rewrite Nat2Z.inj_succ, <- Z.add_1_r, inject_Z_plus.
    change (inject_Z 1) with 1. split; [lra | nra].
Qed.

Lemma sumQ_take_mono (h : list Q) (B : Q) (k m : nat) :
  (forall i, (0 <= i < 256)%Z -> 0 <= bin h i <= B) -> (k <= m)%nat -> (m <= 256)%nat ->
  sumQ (take k h) <= sumQ (take m h).
Proof.
  intros Hh Hkm. induction Hkm as [|m Hkm IH]; intros Hm; [lra|].
  rewrite sumQ_take_S. specialize (IH ltac:(lia)).
  pose proof (Hh (Z.of_nat m) ltac:(lia)) as Hb. unfold bin in Hb.
  destruct (0 <=? Z.of_nat m)%Z eqn:E; [|apply Z.leb_gt in E; lia].
  rewrite Nat2Z.id in Hb. lra.
Qed.

(** X24: the lookup table of a block of the local-contrast enhancer is
    contrast limited: for every block and every level v in 0..255 the CDF
    entry is not negative, does not decrease with v, is at most pixelCount
    and at most (v+1) * pixelCount / 64, so a block stretches a level by a
    factor of at most 4 (clip limit 3 plus the redistributed excess). *)
Theorem clahe_block_contrast_limited data w bx by' endX endY histogram cdf pixelCount v :
  Forall is_byte data ->
  blockEqualization data w bx by' endX endY = (histogram, cdf, pixelCount) ->
  (0 <= v < 256)%Z ->
  0 <= bin cdf v /\
  ((v < 255)%Z -> bin cdf v <= bin cdf (v + 1)) /\
  bin cdf v <= inject_Z pixelCount /\
  bin cdf v <= inject_Z (v + 1) * inject_Z pixelCount / 64.
Proof.
  intros Hb. unfold blockEqualization.
  pose proof (blockHistogram_mass data w bx by' endX endY Hb) as H0.
  pose proof (blockHistogram_count data w bx by' endX endY) as Hc.
  pose proof (fun i => blockHistogram_nonneg data w bx by' endX endY i Hb) as Hn0.
  destruct (blockHistogram data w bx by' endX endY) as [h0 n].
  cbn [fst snd] in *. destruct H0 as [L0 S0].
  assert (Hn : 0 <= inject_Z n).
  { change 0 with (inject_Z 0). rewrite <- Zle_Qle. subst n. nia. }
  set (clipValue := clipLimit * inject_Z n / 256).
  assert (Hcv : 0 <= clipValue /\ clipValue == 3 * inject_Z n * (1 # 256)).
  { subst clipValue. unfold clipLimit, Qdiv. change (/ 256) with (1 # 256). split; lra. }
  pose proof (clipHistogram_mass h0 clipValue L0) as H1.
  pose proof (clipHistogram_bins h0 clipValue L0 (proj1 Hcv) Hn0) as B1.
  destruct (clipHistogram h0 clipValue) as [h1 e].
  destruct H1 as [L1 S1]. destruct B1 as [He B1].
  destruct (redistributeExcess_mass h1 e L1) as [L2 S2].
  intros E Hv. injection E as <- <- <-.
  assert (S1' : 0 <= sumQ h1).
  { pose proof (sumQ_take_bounds h1 clipValue 256 B1 ltac:(lia)) as [T _].
    rewrite firstn_all2 in T by (rewrite L1; lia). exact T. }
  assert (Hen : e <= inject_Z n) by lra.
  assert (B2 : forall i, (0 <= i < 256)%Z ->
            0 <= bin (redistributeExcess h1 e) i <= inject_Z n * (1 # 64)).
  { intros i Hi. rewrite (redistributeExcess_bins h1 e i L1 Hi).
    specialize (B1 i Hi). unfold Qdiv. change (/ 256) with (1 # 256). lra. }
  pose proof (sumQ_take_bounds (redistributeExcess h1 e) (inject_Z n * (1 # 64))
                (S (Z.to_nat v)) B2 ltac:(lia)) as [T0 T1].
  rewrite (buildCdf_prefix _ v L2 Hv).
  split; [exact T0|]. split; [|split].
  - intros Hv'. rewrite (buildCdf_prefix _ (v + 1) L2 ltac:(lia)).
    replace (Z.to_nat (v + 1)) with (S (Z.to_nat v)) by lia.
    rewrite (sumQ_take_S _ (S (Z.to_nat v))).
    pose proof (B2 (v + 1)%Z ltac:(lia)) as Hb2. unfold bin in Hb2.
    destruct (0 <=? v + 1)%Z eqn:E1; [|apply Z.leb_gt in E1; lia].
    replace (Z.to_nat (v + 1)) with (S (Z.to_nat v)) in Hb2 by lia. lra.
  - assert (Hall : sumQ (redistributeExcess h1 e) == inject_Z n)
      by (rewrite S2, S1; exact S0).
    rewrite <- Hall.
    rewrite <- (firstn_all2 (redistributeExcess h1 e) (n:=256)) at 2
      by (rewrite L2; lia).
    apply (sumQ_take_mono _ (inject_Z n * (1 # 64))); [exact B2 | lia | lia].
  - replace (Z.of_nat (S (Z.to_nat v))) with (v + 1)%Z in T1 by lia.
    unfold Qdiv. change (/ 64) with (1 # 64). lra.
Qed.

Lemma clahe_block_contrast_limited_witness :
  let cdf := snd (fst (blockEqualization twoPixels 2 0 0 2 1)) in
  0 <= bin cdf 100 /\
  ((100 < 255)%Z -> bin cdf 100 <= bin cdf (100 + 1)) /\
  bin cdf 100 <= inject_Z 2 /\
  bin cdf 100 <= inject_Z (100 + 1) * inject_Z 2 / 64.
Proof.
  refine (clahe_block_contrast_limited twoPixels 2 0 0 2 1
            (fst (fst (blockEqualization twoPixels 2 0 0 2 1)))
            (snd (fst (blockEqualization twoPixels 2 0 0 2 1))) 2 100 _ _ _).
  - repeat constructor; unfold is_byte; lia.
  - vm_compute. reflexivity.
  - lia.
Defined.

End ClaheTable.
